(** * Shader recompiler core: IR emitter and SSA rewriting pass

    A shallow embedding of the yuzu shader recompiler pieces under
    [src/]: the IR emitter ([IREmitter], frontend/ir/ir_emitter.cpp) and
    the SSA construction pass ([SsaRewritePass], ir_opt/ssa_rewrite_pass.cpp,
    which implements Braun et al., CC 2013).

    The arena and block primitives they call ([Block::PrependNewInst],
    [Inst::ReplaceUsesWith], [Inst::AddPhiOperand], ...) live in files that
    are not part of [src/]; those are modelled from the specification and
    say so in their doc comments. *)

From Stdlib Require Import ZArith Lia.
From stdpp Require Import base gmap list.



(* ------------------------------------------------------------------ *)
(** ** IR types, opcodes and values *)

Module IRType.
(** [IR::Type]: the closed enumeration of value types. *)
Inductive t :=
| Void | Opaque | Reg | Pred | Attribute | Label
| U1 | U8 | U16 | U32 | U64 | F16 | F32 | F64
| U32x2 | U32x3 | U32x4 | F16x2 | F16x3 | F16x4
| F32x2 | F32x3 | F32x4 | F64x2 | F64x3 | F64x4.

#[global] Instance eq_dec : EqDecision t.
Proof. solve_decision. Defined.
End IRType.

Module Opcode.
(** [IR::Opcode], restricted to the opcodes the modelled code emits or
    inspects; every other opcode is [Other n ty] with its result type. *)
Inductive t :=
| Phi | UndefU1 | UndefU32
| Branch | BranchConditional | LoopMerge | SelectionMerge | Return
| GetRegister | SetRegister | GetPred | SetPred
| GetGotoVariable | SetGotoVariable
| GetIndirectBranchVariable | SetIndirectBranchVariable
| GetZFlag | GetSFlag | GetCFlag | GetOFlag
| SetZFlag | SetSFlag | SetCFlag | SetOFlag
| FPAdd16 | FPAdd32 | FPAdd64
| CompositeExtractU32x2 | CompositeExtractU32x3 | CompositeExtractU32x4
| CompositeExtractF16x2 | CompositeExtractF16x3 | CompositeExtractF16x4
| CompositeExtractF32x2 | CompositeExtractF32x3 | CompositeExtractF32x4
| CompositeExtractF64x2 | CompositeExtractF64x3 | CompositeExtractF64x4
| ConvertU32U64 | ConvertU64U32
| IAdd32
| Other (n : nat) (result : IRType.t).

#[global] Instance eq_dec : EqDecision t.
Proof. solve_decision. Defined.

(** Modelled from the spec: the opcode table (opcodes.inc, not in
    src/) gives each opcode its result type. *)
Definition TypeOf (op : t) : IRType.t :=
  match op with
  | Phi => IRType.Opaque
  | UndefU1 => IRType.U1
  | UndefU32 => IRType.U32
  | Branch | BranchConditional | LoopMerge | SelectionMerge | Return => IRType.Void
  | GetRegister => IRType.U32
  | GetPred => IRType.U1
  | GetGotoVariable => IRType.U1
  | GetIndirectBranchVariable => IRType.U32
  | GetZFlag | GetSFlag | GetCFlag | GetOFlag => IRType.U1
  | SetRegister | SetPred | SetGotoVariable | SetIndirectBranchVariable
  | SetZFlag | SetSFlag | SetCFlag | SetOFlag => IRType.Void
  | FPAdd16 => IRType.F16
  | FPAdd32 => IRType.F32
  | FPAdd64 => IRType.F64
  | CompositeExtractU32x2 | CompositeExtractU32x3 | CompositeExtractU32x4 => IRType.U32
  | CompositeExtractF16x2 | CompositeExtractF16x3 | CompositeExtractF16x4 => IRType.F16
  | CompositeExtractF32x2 | CompositeExtractF32x3 | CompositeExtractF32x4 => IRType.F32
  | CompositeExtractF64x2 | CompositeExtractF64x3 | CompositeExtractF64x4 => IRType.F64
  | ConvertU32U64 => IRType.U32
  | ConvertU64U32 => IRType.U64
  | IAdd32 => IRType.U32
  | Other _ ty => ty
  end.

(** Modelled from the spec: the other opcodes the modelled emitters
    emit, named. Each is an [Other] opcode with a number of its own and
    the result type the opcode table gives it (the type argument of the
    emitter's [Inst<T>] call where it has one). *)
Definition FPMul16 : t := Other 1 IRType.F16.
Definition FPMul32 : t := Other 2 IRType.F32.
Definition FPMul64 : t := Other 3 IRType.F64.
Definition FPFma16 : t := Other 4 IRType.F16.
Definition FPFma32 : t := Other 5 IRType.F32.
Definition FPFma64 : t := Other 6 IRType.F64.
Definition CompositeConstructU32x2 : t := Other 7 IRType.U32x2.
Definition CompositeConstructU32x3 : t := Other 8 IRType.U32x3.
Definition CompositeConstructU32x4 : t := Other 9 IRType.U32x4.
Definition CompositeConstructF16x2 : t := Other 10 IRType.F16x2.
Definition CompositeConstructF16x3 : t := Other 11 IRType.F16x3.
Definition CompositeConstructF16x4 : t := Other 12 IRType.F16x4.
Definition CompositeConstructF32x2 : t := Other 13 IRType.F32x2.
Definition CompositeConstructF32x3 : t := Other 14 IRType.F32x3.
Definition CompositeConstructF32x4 : t := Other 15 IRType.F32x4.
Definition CompositeConstructF64x2 : t := Other 16 IRType.F64x2.
Definition CompositeConstructF64x3 : t := Other 17 IRType.F64x3.
Definition CompositeConstructF64x4 : t := Other 18 IRType.F64x4.
Definition SelectU8 : t := Other 19 IRType.U8.
Definition SelectU16 : t := Other 20 IRType.U16.
Definition SelectU32 : t := Other 21 IRType.U32.
Definition SelectU64 : t := Other 22 IRType.U64.
Definition SelectF32 : t := Other 23 IRType.F32.
Definition IAdd64 : t := Other 24 IRType.U64.
Definition ISub32 : t := Other 25 IRType.U32.
Definition ISub64 : t := Other 26 IRType.U64.
Definition FPAbs16 : t := Other 27 IRType.F16.
Definition FPAbs32 : t := Other 28 IRType.F32.
Definition FPAbs64 : t := Other 29 IRType.F64.
Definition FPNeg16 : t := Other 30 IRType.F16.
Definition FPNeg32 : t := Other 31 IRType.F32.
Definition FPNeg64 : t := Other 32 IRType.F64.
Definition FPSaturate16 : t := Other 33 IRType.F16.
Definition FPSaturate32 : t := Other 34 IRType.F32.
Definition FPSaturate64 : t := Other 35 IRType.F64.
Definition FPRoundEven16 : t := Other 36 IRType.F16.
Definition FPRoundEven32 : t := Other 37 IRType.F32.
Definition FPRoundEven64 : t := Other 38 IRType.F64.
Definition FPFloor16 : t := Other 39 IRType.F16.
Definition FPFloor32 : t := Other 40 IRType.F32.
Definition FPFloor64 : t := Other 41 IRType.F64.
Definition FPCeil16 : t := Other 42 IRType.F16.
Definition FPCeil32 : t := Other 43 IRType.F32.
Definition FPCeil64 : t := Other 44 IRType.F64.
Definition FPTrunc16 : t := Other 45 IRType.F16.
Definition FPTrunc32 : t := Other 46 IRType.F32.
Definition FPTrunc64 : t := Other 47 IRType.F64.
Definition FPRecip32 : t := Other 48 IRType.F32.
Definition FPRecip64 : t := Other 49 IRType.F64.
Definition FPRecipSqrt32 : t := Other 50 IRType.F32.
Definition FPRecipSqrt64 : t := Other 51 IRType.F64.
Definition FPOrdEqual16 : t := Other 52 IRType.U1.
Definition FPOrdEqual32 : t := Other 53 IRType.U1.
Definition FPOrdEqual64 : t := Other 54 IRType.U1.
Definition FPUnordEqual16 : t := Other 55 IRType.U1.
Definition FPUnordEqual32 : t := Other 56 IRType.U1.
Definition FPUnordEqual64 : t := Other 57 IRType.U1.
Definition FPOrdNotEqual16 : t := Other 58 IRType.U1.
Definition FPOrdNotEqual32 : t := Other 59 IRType.U1.
Definition FPOrdNotEqual64 : t := Other 60 IRType.U1.
Definition FPUnordNotEqual16 : t := Other 61 IRType.U1.
Definition FPUnordNotEqual32 : t := Other 62 IRType.U1.
Definition FPUnordNotEqual64 : t := Other 63 IRType.U1.
Definition FPOrdLessThan16 : t := Other 64 IRType.U1.
Definition FPOrdLessThan32 : t := Other 65 IRType.U1.
Definition FPOrdLessThan64 : t := Other 66 IRType.U1.
Definition FPUnordLessThan16 : t := Other 67 IRType.U1.
Definition FPUnordLessThan32 : t := Other 68 IRType.U1.
Definition FPUnordLessThan64 : t := Other 69 IRType.U1.
Definition FPOrdGreaterThan16 : t := Other 70 IRType.U1.
Definition FPOrdGreaterThan32 : t := Other 71 IRType.U1.
Definition FPOrdGreaterThan64 : t := Other 72 IRType.U1.
Definition FPUnordGreaterThan16 : t := Other 73 IRType.U1.
Definition FPUnordGreaterThan32 : t := Other 74 IRType.U1.
Definition FPUnordGreaterThan64 : t := Other 75 IRType.U1.
Definition FPOrdLessThanEqual16 : t := Other 76 IRType.U1.
Definition FPOrdLessThanEqual32 : t := Other 77 IRType.U1.
Definition FPOrdLessThanEqual64 : t := Other 78 IRType.U1.
Definition FPUnordLessThanEqual16 : t := Other 79 IRType.U1.
Definition FPUnordLessThanEqual32 : t := Other 80 IRType.U1.
Definition FPUnordLessThanEqual64 : t := Other 81 IRType.U1.
Definition FPOrdGreaterThanEqual16 : t := Other 82 IRType.U1.
Definition FPOrdGreaterThanEqual32 : t := Other 83 IRType.U1.
Definition FPOrdGreaterThanEqual64 : t := Other 84 IRType.U1.
Definition FPUnordGreaterThanEqual16 : t := Other 85 IRType.U1.
Definition FPUnordGreaterThanEqual32 : t := Other 86 IRType.U1.
Definition FPUnordGreaterThanEqual64 : t := Other 87 IRType.U1.
Definition ConvertS16F16 : t := Other 88 IRType.U32.
Definition ConvertS16F32 : t := Other 89 IRType.U32.
Definition ConvertS16F64 : t := Other 90 IRType.U32.
Definition ConvertS32F16 : t := Other 91 IRType.U32.
Definition ConvertS32F32 : t := Other 92 IRType.U32.
Definition ConvertS32F64 : t := Other 93 IRType.U32.
Definition ConvertS64F16 : t := Other 94 IRType.U64.
Definition ConvertS64F32 : t := Other 95 IRType.U64.
Definition ConvertS64F64 : t := Other 96 IRType.U64.
Definition ConvertU16F16 : t := Other 97 IRType.U32.
Definition ConvertU16F32 : t := Other 98 IRType.U32.
Definition ConvertU16F64 : t := Other 99 IRType.U32.
Definition ConvertU32F16 : t := Other 100 IRType.U32.
Definition ConvertU32F32 : t := Other 101 IRType.U32.
Definition ConvertU32F64 : t := Other 102 IRType.U32.
Definition ConvertU64F16 : t := Other 103 IRType.U64.
Definition ConvertU64F32 : t := Other 104 IRType.U64.
Definition ConvertU64F64 : t := Other 105 IRType.U64.
Definition LogicalNot : t := Other 106 IRType.U1.
Definition GetCbuf : t := Other 107 IRType.U32.
Definition GetAttribute : t := Other 108 IRType.F32.
Definition PackDouble2x32 : t := Other 109 IRType.F64.
Definition UnpackUint2x32 : t := Other 110 IRType.U32x2.
Definition UnpackFloat2x16 : t := Other 111 IRType.F16x2.
Definition LogicalAnd : t := Other 112 IRType.U1.
End Opcode.

(** [IR::Reg]: R0..R254 and the zero register RZ (index 255). *)
Definition RZ : nat := 255.
(** [IR::Pred]: P0..P6 and the true predicate PT (index 7). *)
Definition PT : nat := 7.

(** [IR::Value]: empty (default constructed), a handle to an instruction
    of the arena, or an immediate of some type. Immediates of numeric
    types carry their raw bits. *)
Inductive Value :=
| Empty
| InstRef (inst : nat)
| ImmReg (reg : nat)
| ImmPred (pred : nat)
| ImmLabel (block : nat)
| Imm (ty : IRType.t) (bits : Z).

#[global] Instance Value_eq_dec : EqDecision Value.
Proof. solve_decision. Defined.

Definition IsEmpty (v : Value) : bool :=
  match v with Empty => true | _ => false end.

(** Floating-point control flags ([IR::FpControl]). *)
Inductive FpRounding := RDontCare | RoundEven | RoundZero | RoundUp | RoundDown.
Inductive FmzMode := FmzDontCare | FmzNone | FTZ | FMZ.
Record FpControl := {
  no_contraction : bool;
  rounding : FpRounding;
  fmz_mode : FmzMode
}.

(** The flags payload of an instruction. *)
Inductive InstFlags := NoFlags | FpFlags (control : FpControl).

(** [IR::Inst]: opcode, flags, operands; the operands of a phi are its
    values, [phi_blocks] its predecessor blocks, in the same order. *)
Record Inst := {
  op : Opcode.t;
  flags : InstFlags;
  args : list Value;
  phi_blocks : list nat
}.

(** [Inst::Arg]: operand [i] (an unset slot reads as an empty value). *)
Definition Arg (inst : Inst) (i : nat) : Value := nth i (args inst) Empty.

(** [IR::Block]: instruction list (handles into the arena), immediate
    predecessors in insertion order, and successors. *)
Record Block := {
  instructions : list nat;
  imm_predecessors : list nat;
  successors : list nat
}.

Definition empty_block : Block :=
  {| instructions := []; imm_predecessors := []; successors := [] |}.

(** The instruction arena and the blocks of a program; blocks and
    instructions are named by their handles. [next_id] is the next free
    instruction handle. *)
Record IRState := {
  arena : gmap nat Inst;
  blocks : gmap nat Block;
  next_id : nat
}.

Definition block_of (ir : IRState) (b : nat) : Block :=
  match blocks ir !! b with Some blk => blk | None => empty_block end.

Definition set_block (ir : IRState) (b : nat) (blk : Block) : IRState :=
  {| arena := arena ir; blocks := <[b := blk]> (blocks ir); next_id := next_id ir |}.

Definition set_instructions (ir : IRState) (b : nat) (l : list nat) : IRState :=
  let blk := block_of ir b in
  set_block ir b {| instructions := l; imm_predecessors := imm_predecessors blk;
                    successors := successors blk |}.

(** [Value::Type]: immediates carry their type, an instruction handle
    has the result type of its opcode. *)
Definition value_type (ir : IRState) (v : Value) : IRType.t :=
  match v with
  | Empty => IRType.Void
  | InstRef i =>
      match arena ir !! i with Some inst => Opcode.TypeOf (op inst) | None => IRType.Void end
  | ImmReg _ => IRType.Reg
  | ImmPred _ => IRType.Pred
  | ImmLabel _ => IRType.Label
  | Imm ty _ => ty
  end.

(** Modelled from the spec: [Block::PrependNewInst] (basic_block.cpp, not
    in src/), the spec's [insert]: a fresh instruction is created in the
    arena and placed before position [pos] of the block's list. *)
Definition PrependNewInst (ir : IRState) (b pos : nat) (opc : Opcode.t)
    (fl : InstFlags) (operands : list Value) : IRState * nat :=
  let id := next_id ir in
  let l := instructions (block_of ir b) in
  let ir1 := {| arena := <[id := {| op := opc; flags := fl; args := operands;
                                    phi_blocks := [] |}]> (arena ir);
                blocks := blocks ir; next_id := S id |} in
  (set_instructions ir1 b (take pos l ++ id :: drop pos l), id).

(** Modelled from the spec: [Inst::AddPhiOperand] (microinstruction.cpp,
    not in src/): phi operands are appended in order, keyed by the
    predecessor block. *)
Definition AddPhiOperand (ir : IRState) (phi pred : nat) (v : Value) : IRState :=
  {| arena := alter (fun inst => {| op := op inst; flags := flags inst;
                                    args := args inst ++ [v];
                                    phi_blocks := phi_blocks inst ++ [pred] |}) phi (arena ir);
     blocks := blocks ir; next_id := next_id ir |}.

Definition subst_value (target : nat) (replacement : Value) (v : Value) : Value :=
  if decide (v = InstRef target) then replacement else v.

Definition subst_inst (target : nat) (replacement : Value) (inst : Inst) : Inst :=
  {| op := op inst; flags := flags inst;
     args := map (subst_value target replacement) (args inst);
     phi_blocks := phi_blocks inst |}.

(** Modelled from the spec: [Inst::ReplaceUsesWith] (microinstruction.cpp,
    not in src/), the spec's [replace_uses_with]: every instruction
    holding the target as an operand gets the replacement instead. *)
Definition ReplaceUsesWith (ir : IRState) (target : nat) (replacement : Value) : IRState :=
  {| arena := subst_inst target replacement <$> arena ir;
     blocks := blocks ir; next_id := next_id ir |}.

(** Modelled from the spec: [Value::Resolve] (value.cpp, not in src/).
    Values compare structurally (immediates) or by handle (instructions);
    since uses are rewritten in place there is nothing to resolve. *)
Definition Resolve (v : Value) : Value := v.

(** Modelled from the spec: [Block::AddImmediatePredecessor] (not in
    src/): idempotent, insertion order preserved. *)
Definition AddImmediatePredecessor (ir : IRState) (b pred : nat) : IRState :=
  let blk := block_of ir b in
  if decide (pred ∈ imm_predecessors blk) then ir
  else set_block ir b {| instructions := instructions blk;
                         imm_predecessors := imm_predecessors blk ++ [pred];
                         successors := successors blk |}.

(** Modelled from the spec: [Block::SetBranch] / [Block::SetBranches]
    (not in src/): one successor for an unconditional branch, two for a
    conditional one. *)
Definition SetSuccessors (ir : IRState) (b : nat) (succ : list nat) : IRState :=
  let blk := block_of ir b in
  set_block ir b {| instructions := instructions blk;
                    imm_predecessors := imm_predecessors blk; successors := succ |}.

Definition SetBranch (ir : IRState) (b label : nat) : IRState := SetSuccessors ir b [label].
Definition SetBranches (ir : IRState) (b t f : nat) : IRState := SetSuccessors ir b [t; f].

(* ------------------------------------------------------------------ *)
(** ** Exceptions and a state/exception monad *)

Inductive Exception := InvalidArgument | NotImplemented | LogicError.

(** Outcome of a computation: a value, a thrown exception, or (for the
    fuel-bounded loop of [ReadVariable]) running out of fuel. *)
Inductive Result (A : Type) := Ok (a : A) | Throw (e : Exception) | OutOfFuel.
Arguments Ok {A} a.
Arguments Throw {A} e.
Arguments OutOfFuel {A}.

Definition M (S A : Type) : Type := S -> Result (A * S).

Definition retM {S A} (a : A) : M S A := fun s => Ok (a, s).
Definition bindM {S A B} (m : M S A) (f : A -> M S B) : M S B :=
  fun s => match m s with
           | Ok (a, s') => f a s'
           | Throw e => Throw e
           | OutOfFuel => OutOfFuel
           end.
Definition throwM {S A} (e : Exception) : M S A := fun _ => Throw e.

Notation "'let*' x ':=' m 'in' k" := (bindM m (fun x => k))
  (at level 200, x name, m at level 100, k at level 200).

Fixpoint forM_ {S A} (l : list A) (f : A -> M S unit) : M S unit :=
  match l with
  | [] => retM tt
  | x :: l' => let* _ := f x in forM_ l' f
  end.

(* ------------------------------------------------------------------ *)
(** ** The IR emitter (ir_emitter.cpp) *)

Module IREmitter.

(** An emitter builds instructions at the end of its current block. *)
Record EmitState := {
  eir : IRState;
  eblock : nat
}.

Definition with_ir (es : EmitState) (ir : IRState) : EmitState :=
  {| eir := ir; eblock := eblock es |}.

(** Modelled from the spec: [IREmitter::Inst] (ir_emitter.h, not in
    src/): a new instruction with the given opcode, flags and operands
    is appended to the current block; its handle is the result. *)
Definition Inst (opc : Opcode.t) (fl : InstFlags) (operands : list Value)
    : M EmitState Value :=
  fun es =>
    let ir := eir es in
    let pos := length (instructions (block_of ir (eblock es))) in
    let '(ir', id) := PrependNewInst ir (eblock es) pos opc fl operands in
    Ok (InstRef id, with_ir es ir').

Definition Inst_ (opc : Opcode.t) (operands : list Value) : M EmitState unit :=
  let* _ := Inst opc NoFlags operands in retM tt.

Definition Type_ (v : Value) : M EmitState IRType.t :=
  fun es => Ok (value_type (eir es) v, es).

Definition modify_ir (f : IRState -> IRState) : M EmitState unit :=
  fun es => Ok (tt, with_ir es (f (eir es))).

(** [IREmitter::Branch]. *)
Definition Branch (label : nat) : M EmitState unit :=
  fun es =>
    (let* _ := modify_ir (fun ir => AddImmediatePredecessor ir label (eblock es)) in
     let* _ := modify_ir (fun ir => SetBranch ir (eblock es) label) in
     Inst_ Opcode.Branch [ImmLabel label]) es.

(** [IREmitter::BranchConditional]. *)
Definition BranchConditional (condition : Value) (true_label false_label : nat)
    : M EmitState unit :=
  fun es =>
    (let* _ := modify_ir (fun ir => SetBranches ir (eblock es) true_label false_label) in
     let* _ := modify_ir (fun ir => AddImmediatePredecessor ir true_label (eblock es)) in
     let* _ := modify_ir (fun ir => AddImmediatePredecessor ir false_label (eblock es)) in
     Inst_ Opcode.BranchConditional [condition; ImmLabel true_label; ImmLabel false_label]) es.

(** [IREmitter::LoopMerge]. *)
Definition LoopMerge (merge_block continue_target : nat) : M EmitState unit :=
  Inst_ Opcode.LoopMerge [ImmLabel merge_block; ImmLabel continue_target].

(** [IREmitter::SelectionMerge]. *)
Definition SelectionMerge (merge_block : nat) : M EmitState unit :=
  Inst_ Opcode.SelectionMerge [ImmLabel merge_block].

(** [IREmitter::Return]. *)
Definition Return : M EmitState unit := Inst_ Opcode.Return [].

(** [IREmitter::FPAdd], with its type check exactly as written:
    [if (a.Type() != a.Type())]. *)
Definition FPAdd (a b : Value) (control : FpControl) : M EmitState Value :=
  let* ta := Type_ a in
  let* ta' := Type_ a in
  if decide (ta <> ta') then throwM InvalidArgument
  else
    match ta with
    | IRType.F16 => Inst Opcode.FPAdd16 (FpFlags control) [a; b]
    | IRType.F32 => Inst Opcode.FPAdd32 (FpFlags control) [a; b]
    | IRType.F64 => Inst Opcode.FPAdd64 (FpFlags control) [a; b]
    | _ => throwM InvalidArgument (* ThrowInvalidType *)
    end.

(** [IREmitter::CompositeExtract]. The element index is a [size_t];
    the emitted immediate is its [u32] cast. *)
Definition CompositeExtract (vector : Value) (element : nat) : M EmitState Value :=
  let read (opc : Opcode.t) (limit : nat) : M EmitState Value :=
    if Nat.leb limit element then throwM InvalidArgument
    else Inst opc NoFlags [vector; Imm IRType.U32 (Z.of_nat element mod 2 ^ 32)%Z] in
  let* ty := Type_ vector in
  match ty with
  | IRType.U32x2 => read Opcode.CompositeExtractU32x2 2
  | IRType.U32x3 => read Opcode.CompositeExtractU32x3 3
  | IRType.U32x4 => read Opcode.CompositeExtractU32x4 4
  | IRType.F16x2 => read Opcode.CompositeExtractF16x2 2
  | IRType.F16x3 => read Opcode.CompositeExtractF16x3 3
  | IRType.F16x4 => read Opcode.CompositeExtractF16x4 4
  | IRType.F32x2 => read Opcode.CompositeExtractF32x2 2
  | IRType.F32x3 => read Opcode.CompositeExtractF32x3 3
  | IRType.F32x4 => read Opcode.CompositeExtractF32x4 4
  | IRType.F64x2 => read Opcode.CompositeExtractF64x2 2
  | IRType.F64x3 => read Opcode.CompositeExtractF64x3 3
  | IRType.F64x4 => read Opcode.CompositeExtractF64x4 4
  | _ => throwM InvalidArgument (* ThrowInvalidType *)
  end.

(** [IREmitter::ConvertU]: the inner [default: break;] leaves the
    switch and reaches the final [throw NotImplementedException]. *)
Definition ConvertU (result_bitsize : nat) (value : Value) : M EmitState Value :=
  let* ty := Type_ value in
  if Nat.eqb result_bitsize 32 then
    match ty with
    | IRType.U32 => retM value (* Nothing to do *)
    | IRType.U64 => Inst Opcode.ConvertU32U64 NoFlags [value]
    | _ => throwM NotImplemented
    end
  else if Nat.eqb result_bitsize 64 then
    match ty with
    | IRType.U32 => Inst Opcode.ConvertU64U32 NoFlags [value]
    | IRType.U64 => retM value (* Nothing to do *)
    | _ => throwM NotImplemented
    end
  else throwM NotImplemented.

(** [IREmitter::Imm32(u32)]. *)
Definition Imm32 (value : Z) : Value := Imm IRType.U32 value.

(** [IREmitter::GetPred]: with [is_negated] the predicate is read and
    then negated. *)
Definition GetPred (pred : nat) (is_negated : bool) : M EmitState Value :=
  let* value := Inst Opcode.GetPred NoFlags [ImmPred pred] in
  if is_negated then Inst Opcode.LogicalNot NoFlags [value] else retM value.

(** [IREmitter::Imm1]: a [U1] immediate. *)
Definition Imm1 (value : bool) : Value := Imm IRType.U1 (Z.b2z value).

(** [IREmitter::GetZFlag], [LogicalAnd] and [LogicalNot]. *)
Definition GetZFlag : M EmitState Value := Inst Opcode.GetZFlag NoFlags [].
Definition LogicalAnd (a b : Value) : M EmitState Value := Inst Opcode.LogicalAnd NoFlags [a; b].
Definition LogicalNot (value : Value) : M EmitState Value := Inst Opcode.LogicalNot NoFlags [value].

(** [IR::FlowTest] (flow_test.h, not in src/): the four tests
    [GetFlowTest] handles by name, every other enumerator by its code. *)
Inductive FlowTest := FT_F | FT_EQ | FT_NE | FT_T | FT_Other (code : nat).

(** [IR::Condition] (condition.h, not in src/) as [Condition] reads it:
    [FlowTest()] and the pair [Pred()] of a predicate and its negation. *)
Record IRCondition := {
  cond_flow_test : FlowTest;
  cond_pred : nat;
  cond_negated : bool
}.

(** The static [GetFlowTest]. *)
Definition GetFlowTest (flow_test : FlowTest) : M EmitState Value :=
  match flow_test with
  | FT_T => retM (Imm1 true)
  | FT_F => retM (Imm1 false)
  | FT_EQ => GetZFlag
  | FT_NE => let* z := GetZFlag in LogicalNot z
  | FT_Other _ => throwM NotImplemented
  end.

(** [IREmitter::Condition]. The two arguments of [LogicalAnd] are
    evaluated in an order C++ leaves unspecified: [args_left_to_right]
    chooses it. *)
Definition Condition (args_left_to_right : bool) (cond : IRCondition) : M EmitState Value :=
  let flow_test := cond_flow_test cond in
  if args_left_to_right then
    let* a := GetPred (cond_pred cond) (cond_negated cond) in
    let* b := GetFlowTest flow_test in
    LogicalAnd a b
  else
    let* b := GetFlowTest flow_test in
    let* a := GetPred (cond_pred cond) (cond_negated cond) in
    LogicalAnd a b.

(** [IREmitter::GetCbuf]. *)
Definition GetCbuf (binding byte_offset : Value) : M EmitState Value :=
  Inst Opcode.GetCbuf NoFlags [binding; byte_offset].

(** [IREmitter::GetAttribute]; an [IR::Attribute] operand is an
    immediate of type [Attribute]. *)
Definition GetAttribute (attribute : Z) : M EmitState Value :=
  Inst Opcode.GetAttribute NoFlags [Imm IRType.Attribute attribute].

(** [IREmitter::PackDouble2x32], [UnpackUint2x32], [UnpackFloat2x16]. *)
Definition PackDouble2x32 (vector : Value) : M EmitState Value :=
  Inst Opcode.PackDouble2x32 NoFlags [vector].
Definition UnpackUint2x32 (value : Value) : M EmitState Value :=
  Inst Opcode.UnpackUint2x32 NoFlags [value].
Definition UnpackFloat2x16 (value : Value) : M EmitState Value :=
  Inst Opcode.UnpackFloat2x16 NoFlags [value].

(** [IREmitter::FPMul]: unlike [FPAdd], the guard compares [a] with [b]. *)
Definition FPMul (a b : Value) (control : FpControl) : M EmitState Value :=
  let* ta := Type_ a in
  let* tb := Type_ b in
  if decide (ta <> tb) then throwM InvalidArgument
  else
    match ta with
    | IRType.F16 => Inst Opcode.FPMul16 (FpFlags control) [a; b]
    | IRType.F32 => Inst Opcode.FPMul32 (FpFlags control) [a; b]
    | IRType.F64 => Inst Opcode.FPMul64 (FpFlags control) [a; b]
    | _ => throwM InvalidArgument (* ThrowInvalidType *)
    end.

(** [IREmitter::FPFma]. *)
Definition FPFma (a b c : Value) (control : FpControl) : M EmitState Value :=
  let* ta := Type_ a in
  let* tb := Type_ b in
  let* tc := Type_ c in
  if decide (ta <> tb \/ ta <> tc) then throwM InvalidArgument
  else
    match ta with
    | IRType.F16 => Inst Opcode.FPFma16 (FpFlags control) [a; b; c]
    | IRType.F32 => Inst Opcode.FPFma32 (FpFlags control) [a; b; c]
    | IRType.F64 => Inst Opcode.FPFma64 (FpFlags control) [a; b; c]
    | _ => throwM InvalidArgument (* ThrowInvalidType *)
    end.

(** [IREmitter::CompositeConstruct] with 2 elements. *)
Definition CompositeConstruct2 (e1 e2 : Value) : M EmitState Value :=
  let* t1 := Type_ e1 in
  let* t2 := Type_ e2 in
  if decide (t1 <> t2) then throwM InvalidArgument
  else
    match t1 with
    | IRType.U32 => Inst Opcode.CompositeConstructU32x2 NoFlags [e1; e2]
    | IRType.F16 => Inst Opcode.CompositeConstructF16x2 NoFlags [e1; e2]
    | IRType.F32 => Inst Opcode.CompositeConstructF32x2 NoFlags [e1; e2]
    | IRType.F64 => Inst Opcode.CompositeConstructF64x2 NoFlags [e1; e2]
    | _ => throwM InvalidArgument (* ThrowInvalidType *)
    end.

(** [IREmitter::CompositeConstruct] with 3 elements. *)
Definition CompositeConstruct3 (e1 e2 e3 : Value) : M EmitState Value :=
  let* t1 := Type_ e1 in
  let* t2 := Type_ e2 in
  let* t3 := Type_ e3 in
  if decide (t1 <> t2 \/ t1 <> t3) then throwM InvalidArgument
  else
    match t1 with
    | IRType.U32 => Inst Opcode.CompositeConstructU32x3 NoFlags [e1; e2; e3]
    | IRType.F16 => Inst Opcode.CompositeConstructF16x3 NoFlags [e1; e2; e3]
    | IRType.F32 => Inst Opcode.CompositeConstructF32x3 NoFlags [e1; e2; e3]
    | IRType.F64 => Inst Opcode.CompositeConstructF64x3 NoFlags [e1; e2; e3]
    | _ => throwM InvalidArgument (* ThrowInvalidType *)
    end.

(** [IREmitter::CompositeConstruct] with 4 elements. *)
Definition CompositeConstruct4 (e1 e2 e3 e4 : Value) : M EmitState Value :=
  let* t1 := Type_ e1 in
  let* t2 := Type_ e2 in
  let* t3 := Type_ e3 in
  let* t4 := Type_ e4 in
  if decide (t1 <> t2 \/ t1 <> t3 \/ t1 <> t4) then throwM InvalidArgument
  else
    match t1 with
    | IRType.U32 => Inst Opcode.CompositeConstructU32x4 NoFlags [e1; e2; e3; e4]
    | IRType.F16 => Inst Opcode.CompositeConstructF16x4 NoFlags [e1; e2; e3; e4]
    | IRType.F32 => Inst Opcode.CompositeConstructF32x4 NoFlags [e1; e2; e3; e4]
    | IRType.F64 => Inst Opcode.CompositeConstructF64x4 NoFlags [e1; e2; e3; e4]
    | _ => throwM InvalidArgument (* ThrowInvalidType *)
    end.

(** [IREmitter::Select]. *)
Definition Select (condition true_value false_value : Value) : M EmitState Value :=
  let* ttrue := Type_ true_value in
  let* tfalse := Type_ false_value in
  if decide (ttrue <> tfalse) then throwM InvalidArgument
  else
    match ttrue with
    | IRType.U8 => Inst Opcode.SelectU8 NoFlags [condition; true_value; false_value]
    | IRType.U16 => Inst Opcode.SelectU16 NoFlags [condition; true_value; false_value]
    | IRType.U32 => Inst Opcode.SelectU32 NoFlags [condition; true_value; false_value]
    | IRType.U64 => Inst Opcode.SelectU64 NoFlags [condition; true_value; false_value]
    | IRType.F32 => Inst Opcode.SelectF32 NoFlags [condition; true_value; false_value]
    | _ => throwM InvalidArgument
    end.

(** [IREmitter::IAdd]. *)
Definition IAdd (a b : Value) : M EmitState Value :=
  let* ta := Type_ a in
  let* tb := Type_ b in
  if decide (ta <> tb) then throwM InvalidArgument
  else
    match ta with
    | IRType.U32 => Inst Opcode.IAdd32 NoFlags [a; b]
    | IRType.U64 => Inst Opcode.IAdd64 NoFlags [a; b]
    | _ => throwM InvalidArgument (* ThrowInvalidType *)
    end.

(** [IREmitter::ISub]. *)
Definition ISub (a b : Value) : M EmitState Value :=
  let* ta := Type_ a in
  let* tb := Type_ b in
  if decide (ta <> tb) then throwM InvalidArgument
  else
    match ta with
    | IRType.U32 => Inst Opcode.ISub32 NoFlags [a; b]
    | IRType.U64 => Inst Opcode.ISub64 NoFlags [a; b]
    | _ => throwM InvalidArgument (* ThrowInvalidType *)
    end.

(** [IREmitter::FPAbs]. *)
Definition FPAbs (value : Value) : M EmitState Value :=
  let* ty := Type_ value in
  match ty with
  | IRType.F16 => Inst Opcode.FPAbs16 NoFlags [value]
  | IRType.F32 => Inst Opcode.FPAbs32 NoFlags [value]
  | IRType.F64 => Inst Opcode.FPAbs64 NoFlags [value]
  | _ => throwM InvalidArgument (* ThrowInvalidType *)
  end.

(** [IREmitter::FPNeg]. *)
Definition FPNeg (value : Value) : M EmitState Value :=
  let* ty := Type_ value in
  match ty with
  | IRType.F16 => Inst Opcode.FPNeg16 NoFlags [value]
  | IRType.F32 => Inst Opcode.FPNeg32 NoFlags [value]
  | IRType.F64 => Inst Opcode.FPNeg64 NoFlags [value]
  | _ => throwM InvalidArgument (* ThrowInvalidType *)
  end.

(** [IREmitter::FPSaturate]. *)
Definition FPSaturate (value : Value) : M EmitState Value :=
  let* ty := Type_ value in
  match ty with
  | IRType.F16 => Inst Opcode.FPSaturate16 NoFlags [value]
  | IRType.F32 => Inst Opcode.FPSaturate32 NoFlags [value]
  | IRType.F64 => Inst Opcode.FPSaturate64 NoFlags [value]
  | _ => throwM InvalidArgument (* ThrowInvalidType *)
  end.

(** [IREmitter::FPAbsNeg]. *)
Definition FPAbsNeg (value : Value) (abs neg : bool) : M EmitState Value :=
  let* result := if abs then FPAbs value else retM value in
  if neg then FPNeg result else retM result.

(** [IREmitter::FPRecip]. *)
Definition FPRecip (value : Value) : M EmitState Value :=
  let* ty := Type_ value in
  match ty with
  | IRType.F32 => Inst Opcode.FPRecip32 NoFlags [value]
  | IRType.F64 => Inst Opcode.FPRecip64 NoFlags [value]
  | _ => throwM InvalidArgument (* ThrowInvalidType *)
  end.

(** [IREmitter::FPRecipSqrt]. *)
Definition FPRecipSqrt (value : Value) : M EmitState Value :=
  let* ty := Type_ value in
  match ty with
  | IRType.F32 => Inst Opcode.FPRecipSqrt32 NoFlags [value]
  | IRType.F64 => Inst Opcode.FPRecipSqrt64 NoFlags [value]
  | _ => throwM InvalidArgument (* ThrowInvalidType *)
  end.

(** [IREmitter::FPRoundEven]. *)
Definition FPRoundEven (value : Value) (control : FpControl) : M EmitState Value :=
  let* ty := Type_ value in
  match ty with
  | IRType.F16 => Inst Opcode.FPRoundEven16 (FpFlags control) [value]
  | IRType.F32 => Inst Opcode.FPRoundEven32 (FpFlags control) [value]
  | IRType.F64 => Inst Opcode.FPRoundEven64 (FpFlags control) [value]
  | _ => throwM InvalidArgument (* ThrowInvalidType *)
  end.

(** [IREmitter::FPFloor]. *)
Definition FPFloor (value : Value) (control : FpControl) : M EmitState Value :=
  let* ty := Type_ value in
  match ty with
  | IRType.F16 => Inst Opcode.FPFloor16 (FpFlags control) [value]
  | IRType.F32 => Inst Opcode.FPFloor32 (FpFlags control) [value]
  | IRType.F64 => Inst Opcode.FPFloor64 (FpFlags control) [value]
  | _ => throwM InvalidArgument (* ThrowInvalidType *)
  end.

(** [IREmitter::FPCeil]. *)
Definition FPCeil (value : Value) (control : FpControl) : M EmitState Value :=
  let* ty := Type_ value in
  match ty with
  | IRType.F16 => Inst Opcode.FPCeil16 (FpFlags control) [value]
  | IRType.F32 => Inst Opcode.FPCeil32 (FpFlags control) [value]
  | IRType.F64 => Inst Opcode.FPCeil64 (FpFlags control) [value]
  | _ => throwM InvalidArgument (* ThrowInvalidType *)
  end.

(** [IREmitter::FPTrunc]. *)
Definition FPTrunc (value : Value) (control : FpControl) : M EmitState Value :=
  let* ty := Type_ value in
  match ty with
  | IRType.F16 => Inst Opcode.FPTrunc16 (FpFlags control) [value]
  | IRType.F32 => Inst Opcode.FPTrunc32 (FpFlags control) [value]
  | IRType.F64 => Inst Opcode.FPTrunc64 (FpFlags control) [value]
  | _ => throwM InvalidArgument (* ThrowInvalidType *)
  end.

(** [IREmitter::FPEqual]. *)
Definition FPEqual (lhs rhs : Value) (ordered : bool) : M EmitState Value :=
  let* tl := Type_ lhs in
  let* tr := Type_ rhs in
  if decide (tl <> tr) then throwM InvalidArgument
  else
    match tl with
    | IRType.F16 =>
        Inst (if ordered then Opcode.FPOrdEqual16 else Opcode.FPUnordEqual16) NoFlags [lhs; rhs]
    | IRType.F32 =>
        Inst (if ordered then Opcode.FPOrdEqual32 else Opcode.FPUnordEqual32) NoFlags [lhs; rhs]
    | IRType.F64 =>
        Inst (if ordered then Opcode.FPOrdEqual64 else Opcode.FPUnordEqual64) NoFlags [lhs; rhs]
    | _ => throwM InvalidArgument (* ThrowInvalidType *)
    end.

(** [IREmitter::FPNotEqual]. *)
Definition FPNotEqual (lhs rhs : Value) (ordered : bool) : M EmitState Value :=
  let* tl := Type_ lhs in
  let* tr := Type_ rhs in
  if decide (tl <> tr) then throwM InvalidArgument
  else
    match tl with
    | IRType.F16 =>
        Inst (if ordered then Opcode.FPOrdNotEqual16 else Opcode.FPUnordNotEqual16) NoFlags [lhs; rhs]
    | IRType.F32 =>
        Inst (if ordered then Opcode.FPOrdNotEqual32 else Opcode.FPUnordNotEqual32) NoFlags [lhs; rhs]
    | IRType.F64 =>
        Inst (if ordered then Opcode.FPOrdNotEqual64 else Opcode.FPUnordNotEqual64) NoFlags [lhs; rhs]
    | _ => throwM InvalidArgument (* ThrowInvalidType *)
    end.

(** [IREmitter::FPLessThan]. *)
Definition FPLessThan (lhs rhs : Value) (ordered : bool) : M EmitState Value :=
  let* tl := Type_ lhs in
  let* tr := Type_ rhs in
  if decide (tl <> tr) then throwM InvalidArgument
  else
    match tl with
    | IRType.F16 =>
        Inst (if ordered then Opcode.FPOrdLessThan16 else Opcode.FPUnordLessThan16) NoFlags [lhs; rhs]
    | IRType.F32 =>
        Inst (if ordered then Opcode.FPOrdLessThan32 else Opcode.FPUnordLessThan32) NoFlags [lhs; rhs]
    | IRType.F64 =>
        Inst (if ordered then Opcode.FPOrdLessThan64 else Opcode.FPUnordLessThan64) NoFlags [lhs; rhs]
    | _ => throwM InvalidArgument (* ThrowInvalidType *)
    end.

(** [IREmitter::FPGreaterThan]. *)
Definition FPGreaterThan (lhs rhs : Value) (ordered : bool) : M EmitState Value :=
  let* tl := Type_ lhs in
  let* tr := Type_ rhs in
  if decide (tl <> tr) then throwM InvalidArgument
  else
    match tl with
    | IRType.F16 =>
        Inst (if ordered then Opcode.FPOrdGreaterThan16 else Opcode.FPUnordGreaterThan16) NoFlags [lhs; rhs]
    | IRType.F32 =>
        Inst (if ordered then Opcode.FPOrdGreaterThan32 else Opcode.FPUnordGreaterThan32) NoFlags [lhs; rhs]
    | IRType.F64 =>
        Inst (if ordered then Opcode.FPOrdGreaterThan64 else Opcode.FPUnordGreaterThan64) NoFlags [lhs; rhs]
    | _ => throwM InvalidArgument (* ThrowInvalidType *)
    end.

(** [IREmitter::FPLessThanEqual]. *)
Definition FPLessThanEqual (lhs rhs : Value) (ordered : bool) : M EmitState Value :=
  let* tl := Type_ lhs in
  let* tr := Type_ rhs in
  if decide (tl <> tr) then throwM InvalidArgument
  else
    match tl with
    | IRType.F16 =>
        Inst (if ordered then Opcode.FPOrdLessThanEqual16 else Opcode.FPUnordLessThanEqual16) NoFlags [lhs; rhs]
    | IRType.F32 =>
        Inst (if ordered then Opcode.FPOrdLessThanEqual32 else Opcode.FPUnordLessThanEqual32) NoFlags [lhs; rhs]
    | IRType.F64 =>
        Inst (if ordered then Opcode.FPOrdLessThanEqual64 else Opcode.FPUnordLessThanEqual64) NoFlags [lhs; rhs]
    | _ => throwM InvalidArgument (* ThrowInvalidType *)
    end.

(** [IREmitter::FPGreaterThanEqual]. *)
Definition FPGreaterThanEqual (lhs rhs : Value) (ordered : bool) : M EmitState Value :=
  let* tl := Type_ lhs in
  let* tr := Type_ rhs in
  if decide (tl <> tr) then throwM InvalidArgument
  else
    match tl with
    | IRType.F16 =>
        Inst (if ordered then Opcode.FPOrdGreaterThanEqual16 else Opcode.FPUnordGreaterThanEqual16) NoFlags [lhs; rhs]
    | IRType.F32 =>
        Inst (if ordered then Opcode.FPOrdGreaterThanEqual32 else Opcode.FPUnordGreaterThanEqual32) NoFlags [lhs; rhs]
    | IRType.F64 =>
        Inst (if ordered then Opcode.FPOrdGreaterThanEqual64 else Opcode.FPUnordGreaterThanEqual64) NoFlags [lhs; rhs]
    | _ => throwM InvalidArgument (* ThrowInvalidType *)
    end.

(** [IREmitter::ConvertFToS]: the bitsize is checked first, then the type. *)
Definition ConvertFToS (bitsize : nat) (value : Value) : M EmitState Value :=
  let* ty := Type_ value in
  if Nat.eqb bitsize 16 then
    match ty with
    | IRType.F16 => Inst Opcode.ConvertS16F16 NoFlags [value]
    | IRType.F32 => Inst Opcode.ConvertS16F32 NoFlags [value]
    | IRType.F64 => Inst Opcode.ConvertS16F64 NoFlags [value]
    | _ => throwM InvalidArgument (* ThrowInvalidType *)
    end
  else if Nat.eqb bitsize 32 then
    match ty with
    | IRType.F16 => Inst Opcode.ConvertS32F16 NoFlags [value]
    | IRType.F32 => Inst Opcode.ConvertS32F32 NoFlags [value]
    | IRType.F64 => Inst Opcode.ConvertS32F64 NoFlags [value]
    | _ => throwM InvalidArgument (* ThrowInvalidType *)
    end
  else if Nat.eqb bitsize 64 then
    match ty with
    | IRType.F16 => Inst Opcode.ConvertS64F16 NoFlags [value]
    | IRType.F32 => Inst Opcode.ConvertS64F32 NoFlags [value]
    | IRType.F64 => Inst Opcode.ConvertS64F64 NoFlags [value]
    | _ => throwM InvalidArgument (* ThrowInvalidType *)
    end
  else throwM InvalidArgument.

(** [IREmitter::ConvertFToU]: the bitsize is checked first, then the type. *)
Definition ConvertFToU (bitsize : nat) (value : Value) : M EmitState Value :=
  let* ty := Type_ value in
  if Nat.eqb bitsize 16 then
    match ty with
    | IRType.F16 => Inst Opcode.ConvertU16F16 NoFlags [value]
    | IRType.F32 => Inst Opcode.ConvertU16F32 NoFlags [value]
    | IRType.F64 => Inst Opcode.ConvertU16F64 NoFlags [value]
    | _ => throwM InvalidArgument (* ThrowInvalidType *)
    end
  else if Nat.eqb bitsize 32 then
    match ty with
    | IRType.F16 => Inst Opcode.ConvertU32F16 NoFlags [value]
    | IRType.F32 => Inst Opcode.ConvertU32F32 NoFlags [value]
    | IRType.F64 => Inst Opcode.ConvertU32F64 NoFlags [value]
    | _ => throwM InvalidArgument (* ThrowInvalidType *)
    end
  else if Nat.eqb bitsize 64 then
    match ty with
    | IRType.F16 => Inst Opcode.ConvertU64F16 NoFlags [value]
    | IRType.F32 => Inst Opcode.ConvertU64F32 NoFlags [value]
    | IRType.F64 => Inst Opcode.ConvertU64F64 NoFlags [value]
    | _ => throwM InvalidArgument (* ThrowInvalidType *)
    end
  else throwM InvalidArgument.

(** [IREmitter::ConvertFToI]. *)
Definition ConvertFToI (bitsize : nat) (is_signed : bool) (value : Value) : M EmitState Value :=
  if is_signed then ConvertFToS bitsize value else ConvertFToU bitsize value.

End IREmitter.

(* ------------------------------------------------------------------ *)
(** ** The SSA rewriting pass (ssa_rewrite_pass.cpp) *)

Module Ssa.

(** [Variant]: the virtual variables, one alternative per tag type:
    [IR::Reg], [IR::Pred], the four flag tags, [GotoVariable] (with its
    [u32] index) and [IndirectBranchVariable]. *)
Inductive Variant :=
| VarReg (reg : nat)
| VarPred (pred : nat)
| ZeroFlagTag
| SignFlagTag
| CarryFlagTag
| OverflowFlagTag
| GotoVariable (index : Z)
| IndirectBranchVariable.

#[global] Instance Variant_eq_dec : EqDecision Variant.
Proof. solve_decision. Defined.

(** The four overloads of [UndefOpcode]. *)
Definition UndefOpcode_Reg : Opcode.t := Opcode.UndefU32.
Definition UndefOpcode_Pred : Opcode.t := Opcode.UndefU1.
Definition UndefOpcode_FlagTag : Opcode.t := Opcode.UndefU1.
Definition UndefOpcode_IndirectBranchVariable : Opcode.t := Opcode.UndefU32.

(** Overload resolution of [UndefOpcode(variable)] for each alternative:
    [ZeroFlagTag], [SignFlagTag], [CarryFlagTag], [OverflowFlagTag] and
    [GotoVariable] all derive from [FlagTag], and the only viable
    overload for them is [UndefOpcode(const FlagTag&)]. *)
Definition UndefOpcode (v : Variant) : Opcode.t :=
  match v with
  | VarReg _ => UndefOpcode_Reg
  | VarPred _ => UndefOpcode_Pred
  | ZeroFlagTag | SignFlagTag | CarryFlagTag | OverflowFlagTag => UndefOpcode_FlagTag
  | GotoVariable _ => UndefOpcode_FlagTag
  | IndirectBranchVariable => UndefOpcode_IndirectBranchVariable
  end.

(** [std::variant]'s [operator<]: alternative index first, then the
    held values. *)
Definition variant_index (v : Variant) : nat :=
  match v with
  | VarReg _ => 0 | VarPred _ => 1 | ZeroFlagTag => 2 | SignFlagTag => 3
  | CarryFlagTag => 4 | OverflowFlagTag => 5 | GotoVariable _ => 6
  | IndirectBranchVariable => 7
  end.

Definition variant_payload (v : Variant) : Z :=
  match v with
  | VarReg r => Z.of_nat r
  | VarPred p => Z.of_nat p
  | GotoVariable i => i
  | _ => 0
  end.

Definition variant_lt (a b : Variant) : bool :=
  Nat.ltb (variant_index a) (variant_index b)
  || (Nat.eqb (variant_index a) (variant_index b)
      && Z.ltb (variant_payload a) (variant_payload b)).

(** [flat_map<Variant, IR::Inst*>::insert_or_assign] on a list kept
    sorted by [variant_lt]. *)
Fixpoint insert_or_assign (k : Variant) (x : nat) (m : list (Variant * nat))
    : list (Variant * nat) :=
  match m with
  | [] => [(k, x)]
  | (k', x') :: m' =>
      if decide (k = k') then (k, x) :: m'
      else if variant_lt k k' then (k, x) :: m
      else (k', x') :: insert_or_assign k x m'
  end.

(** [ValueMap]: block to current definition. *)
Abbreviation ValueMap := (gmap nat Value).

(** [DefTable]: one [ValueMap] per variable. *)
Record DefTable := {
  regs : gmap nat ValueMap;
  preds : gmap nat ValueMap;
  goto_vars : gmap Z ValueMap;
  indirect_branch_var : ValueMap;
  zero_flag : ValueMap;
  sign_flag : ValueMap;
  carry_flag : ValueMap;
  overflow_flag : ValueMap
}.

Definition empty_def_table : DefTable :=
  {| regs := ∅; preds := ∅; goto_vars := ∅; indirect_branch_var := ∅;
     zero_flag := ∅; sign_flag := ∅; carry_flag := ∅; overflow_flag := ∅ |}.

Definition map_or_empty {K} `{Countable K} (m : gmap K ValueMap) (k : K) : ValueMap :=
  match m !! k with Some vm => vm | None => ∅ end.

(** [DefTable::operator[]], read side. *)
Definition def_get (t : DefTable) (v : Variant) : ValueMap :=
  match v with
  | VarReg r => map_or_empty (regs t) r
  | VarPred p => map_or_empty (preds t) p
  | GotoVariable i => map_or_empty (goto_vars t) i
  | IndirectBranchVariable => indirect_branch_var t
  | ZeroFlagTag => zero_flag t
  | SignFlagTag => sign_flag t
  | CarryFlagTag => carry_flag t
  | OverflowFlagTag => overflow_flag t
  end.

(** [DefTable::operator[]], write side. *)
Definition def_set (t : DefTable) (v : Variant) (vm : ValueMap) : DefTable :=
  let '{| regs := r; preds := p; goto_vars := g; indirect_branch_var := ib;
          zero_flag := z; sign_flag := s; carry_flag := c; overflow_flag := o |} := t in
  match v with
  | VarReg k => Build_DefTable (<[k := vm]> r) p g ib z s c o
  | VarPred k => Build_DefTable r (<[k := vm]> p) g ib z s c o
  | GotoVariable k => Build_DefTable r p (<[k := vm]> g) ib z s c o
  | IndirectBranchVariable => Build_DefTable r p g vm z s c o
  | ZeroFlagTag => Build_DefTable r p g ib vm s c o
  | SignFlagTag => Build_DefTable r p g ib z vm c o
  | CarryFlagTag => Build_DefTable r p g ib z s vm o
  | OverflowFlagTag => Build_DefTable r p g ib z s c vm
  end.

(** The members of [class Pass]. *)
Record Pass := {
  sealed_blocks : list nat;
  incomplete_phis : gmap nat (list (Variant * nat));
  current_def : DefTable
}.

Definition empty_pass : Pass :=
  {| sealed_blocks := []; incomplete_phis := ∅; current_def := empty_def_table |}.

(** The state the pass works on: the program's IR and the pass members. *)
Record St := {
  st_ir : IRState;
  st_pass : Pass
}.

Definition with_ir (s : St) (ir : IRState) : St :=
  {| st_ir := ir; st_pass := st_pass s |}.

Definition with_pass (s : St) (p : Pass) : St :=
  {| st_ir := st_ir s; st_pass := p |}.

(** [Pass::WriteVariable]. *)
Definition WriteVariable (variable : Variant) (block : nat) (value : Value) (s : St) : St :=
  let p := st_pass s in
  let cd := current_def p in
  with_pass s {| sealed_blocks := sealed_blocks p;
                 incomplete_phis := incomplete_phis p;
                 current_def := def_set cd variable (<[block := value]> (def_get cd variable)) |}.

Definition is_sealed (s : St) (block : nat) : bool :=
  bool_decide (block ∈ sealed_blocks (st_pass s)).

(** [incomplete_phis[block].insert_or_assign(variable, phi)]. *)
Definition add_incomplete_phi (block : nat) (variable : Variant) (phi : nat) (s : St) : St :=
  let p := st_pass s in
  let m := match incomplete_phis p !! block with Some m => m | None => [] end in
  with_pass s {| sealed_blocks := sealed_blocks p;
                 incomplete_phis := <[block := insert_or_assign variable phi m]> (incomplete_phis p);
                 current_def := current_def p |}.

(** [sealed_blocks.insert(block)] on a flat set. *)
Definition mark_sealed (block : nat) (s : St) : St :=
  let p := st_pass s in
  with_pass s {| sealed_blocks := if decide (block ∈ sealed_blocks p) then sealed_blocks p
                                  else block :: sealed_blocks p;
                 incomplete_phis := incomplete_phis p;
                 current_def := current_def p |}.

(** [IsPhi]. *)
Definition IsPhi (ir : IRState) (i : nat) : bool :=
  match arena ir !! i with
  | Some inst => bool_decide (op inst = Opcode.Phi)
  | None => false
  end.

(** [std::ranges::find_if_not(list, IsPhi)], as a position. *)
Fixpoint first_not_phi (ir : IRState) (l : list nat) : nat :=
  match l with
  | [] => 0
  | i :: l' => if IsPhi ir i then S (first_not_phi ir l') else 0
  end.

(** [list.erase(s_iterator_to(phi))]: unlink the phi's node. *)
Fixpoint list_erase (x : nat) (l : list nat) : list nat :=
  match l with
  | [] => []
  | y :: l' => if decide (x = y) then l' else y :: list_erase x l'
  end.

Definition phi_args (ir : IRState) (phi : nat) : list Value :=
  match arena ir !! phi with Some inst => args inst | None => [] end.

(** The operand loop of [TryRemoveTrivialPhi]: [None] when two distinct
    non-self operands are met (the early [return IR::Value{&phi}]),
    otherwise [Some same]. *)
Fixpoint trivial_phi_scan (self same : Value) (ops : list Value) : option Value :=
  match ops with
  | [] => Some same
  | op :: ops' =>
      if bool_decide (Resolve op = Resolve same) || bool_decide (op = self) then
        (* Unique value or self-reference *)
        trivial_phi_scan self same ops'
      else if negb (IsEmpty same) then None
      else trivial_phi_scan self op ops'
  end.

(** [Pass::TryRemoveTrivialPhi]. *)
Definition TryRemoveTrivialPhi (s : St) (phi block : nat) (undef_opcode : Opcode.t)
    : St * Value :=
  let ir := st_ir s in
  match trivial_phi_scan (InstRef phi) Empty (phi_args ir phi) with
  | None => (s, InstRef phi)
  | Some same =>
      let '(ir1, same1) :=
        if IsEmpty same then
          (* remove the phi node from the block, it will be reinserted *)
          let l := list_erase phi (instructions (block_of ir block)) in
          let ir0 := set_instructions ir block l in
          (* insert an undef after all phi nodes *)
          let k := first_not_phi ir0 l in
          let '(ir', undef) := PrependNewInst ir0 block k undef_opcode NoFlags [] in
          (* insert the phi node after the undef, before [first_not_phi] *)
          let l' := instructions (block_of ir' block) in
          (set_instructions ir' block (take (S k) l' ++ phi :: drop (S k) l'), InstRef undef)
        else (ir, same) in
      (* reroute all uses of phi to same *)
      (with_ir s (ReplaceUsesWith ir1 phi same1), same1)
  end.

(** [Status] and [ReadState] of the explicit stack of [ReadVariable].
    [rs_preds] is the range [pred_it, pred_end) still to visit. *)
Inductive Status := Start | SetValue | PreparePhiArgument | PushPhiArgument.

Record ReadState := {
  rs_block : nat;
  rs_result : Value;
  rs_phi : nat;
  rs_preds : list nat;
  rs_pc : Status
}.

(** [ReadState(block)]; the bottom entry [ReadState(nullptr)] is never
    executed, its block field is irrelevant. *)
Definition new_read_state (block : nat) : ReadState :=
  {| rs_block := block; rs_result := Empty; rs_phi := 0; rs_preds := []; rs_pc := Start |}.

Definition set_result (r : ReadState) (v : Value) : ReadState :=
  {| rs_block := rs_block r; rs_result := v; rs_phi := rs_phi r;
     rs_preds := rs_preds r; rs_pc := rs_pc r |}.

Definition set_pc (r : ReadState) (pc : Status) : ReadState :=
  {| rs_block := rs_block r; rs_result := rs_result r; rs_phi := rs_phi r;
     rs_preds := rs_preds r; rs_pc := pc |}.

Definition set_phi_preds (r : ReadState) (phi : nat) (ps : list nat) : ReadState :=
  {| rs_block := rs_block r; rs_result := rs_result r; rs_phi := phi;
     rs_preds := ps; rs_pc := rs_pc r |}.

(** What one pass of the loop body does to the stack below the entry it
    ran on: [PopWith r] is [stack.pop_back(); stack.back().result = r],
    [PushOn top' e] replaces the running entry by [top'] and then
    [stack.emplace_back(e)]. *)
Inductive StackOp :=
| PopWith (result : Value)
| PushOn (top' : ReadState) (entry : ReadState).

Section ReadVariable.
Variable variable : Variant.

(** The [prepare_phi_operand] lambda. *)
Definition prepare_phi_operand (s : St) (top : ReadState) : St * StackOp :=
  match rs_preds top with
  | [] =>
      let '(s', result) :=
        TryRemoveTrivialPhi s (rs_phi top) (rs_block top) (UndefOpcode variable) in
      (WriteVariable variable (rs_block top) result s', PopWith result)
  | imm_pred :: _ =>
      (s, PushOn (set_pc top PushPhiArgument) (new_read_state imm_pred))
  end.

(** [case Status::SetValue]. *)
Definition set_value (s : St) (top : ReadState) (result : Value) : St * StackOp :=
  (WriteVariable variable (rs_block top) result s, PopWith result).

(** One pass of the [do { switch (stack.back().pc) ... }] body, run on
    the top entry of the stack. *)
Definition read_step (s : St) (top : ReadState) : St * StackOp :=
  let block := rs_block top in
  match rs_pc top with
  | Start =>
      match def_get (current_def (st_pass s)) variable !! block with
      | Some v => set_value s top v
      | None =>
          if negb (is_sealed s block) then
            (* Incomplete CFG *)
            let '(ir', phi) := PrependNewInst (st_ir s) block 0 Opcode.Phi NoFlags [] in
            let s1 := add_incomplete_phi block variable phi (with_ir s ir') in
            set_value s1 top (InstRef phi)
          else
            match imm_predecessors (block_of (st_ir s) block) with
            | [p] =>
                (* one predecessor: no phi needed *)
                (s, PushOn (set_pc top SetValue) (new_read_state p))
            | imm_preds =>
                (* break potential cycles with operandless phi *)
                let '(ir', phi) := PrependNewInst (st_ir s) block 0 Opcode.Phi NoFlags [] in
                let s1 := WriteVariable variable block (InstRef phi) (with_ir s ir') in
                prepare_phi_operand s1 (set_phi_preds top phi imm_preds)
            end
      end
  | SetValue => set_value s top (rs_result top)
  | PushPhiArgument =>
      match rs_preds top with
      | imm_pred :: rest =>
          let s1 := with_ir s (AddPhiOperand (st_ir s) (rs_phi top) imm_pred (rs_result top)) in
          prepare_phi_operand s1 (set_phi_preds top (rs_phi top) rest)
      | [] => prepare_phi_operand s top
      end
  | PreparePhiArgument => prepare_phi_operand s top
  end.

(** The loop body on the whole stack (head = [stack.back()]). *)
Definition read_body (s : St) (stack : list ReadState) : St * list ReadState :=
  match stack with
  | top :: next :: rest =>
      let '(s', sop) := read_step s top in
      match sop with
      | PopWith r => (s', set_result next r :: rest)
      | PushOn top' e => (s', e :: top' :: next :: rest)
      end
  | _ => (s, stack)
  end.

(** [do { body } while (stack.size() > depth)], bounded by [fuel]
    passes; returns the final state, stack and unused fuel.
    [ReadVariable] runs it with [depth = 1]. *)
Fixpoint read_loop (depth fuel : nat) (s : St) (stack : list ReadState)
    : option (St * list ReadState * nat) :=
  match fuel with
  | O => None
  | S fuel' =>
      let '(s', stack') := read_body s stack in
      if Nat.leb (length stack') depth then Some (s', stack', fuel')
      else read_loop depth fuel' s' stack'
  end.

(** [Pass::ReadVariable]; [None] when [fuel] passes do not suffice. *)
Definition ReadVariable (fuel : nat) (root_block : nat) (s : St) : option (Value * St) :=
  match read_loop 1 fuel s [new_read_state root_block; new_read_state 0] with
  | Some (s', top :: _, _) => Some (rs_result top, s')
  | _ => None
  end.

(** [n] passes of the loop body, without the [while] test: the stack of
    pending reads after them. *)
Fixpoint read_iter (n : nat) (s : St) (stack : list ReadState) : St * list ReadState :=
  match n with
  | O => (s, stack)
  | S n' => let '(s', stack') := read_body s stack in read_iter n' s' stack'
  end.

(** [Pass::AddPhiOperands]. *)
Definition AddPhiOperands (fuel : nat) (phi block : nat) : M St Value :=
  fun s =>
    (let* _ := forM_ (imm_predecessors (block_of (st_ir s) block)) (fun imm_pred =>
                 fun s1 => match ReadVariable fuel imm_pred s1 with
                           | Some (v, s2) => Ok (tt, with_ir s2 (AddPhiOperand (st_ir s2) phi imm_pred v))
                           | None => OutOfFuel
                           end) in
     fun s3 => let '(s4, v) := TryRemoveTrivialPhi s3 phi block (UndefOpcode variable) in
               Ok (v, s4)) s.
End ReadVariable.

(** [ReadVariable] in the monad. *)
Definition read (fuel : nat) (variable : Variant) (block : nat) : M St Value :=
  fun s => match ReadVariable variable fuel block s with
           | Some (v, s') => Ok (v, s')
           | None => OutOfFuel
           end.

Definition write (variable : Variant) (block : nat) (value : Value) : M St unit :=
  fun s => Ok (tt, WriteVariable variable block value s).

Definition replace_uses (inst : nat) (value : Value) : M St unit :=
  fun s => Ok (tt, with_ir s (ReplaceUsesWith (st_ir s) inst value)).

(** Modelled from the spec: the payload accessors [Value::Reg],
    [Value::Pred] and [Value::U32] (value.cpp, not in src/) read the
    immediate of a tagged value; on a value of another tag the access is
    a logic error. *)
Definition value_reg (v : Value) : M St nat :=
  match v with ImmReg r => retM r | _ => throwM LogicError end.
Definition value_pred (v : Value) : M St nat :=
  match v with ImmPred p => retM p | _ => throwM LogicError end.
Definition value_u32 (v : Value) : M St Z :=
  match v with Imm IRType.U32 z => retM z | _ => throwM LogicError end.

(** [VisitInst] on the instruction with handle [i] of [block]. *)
Definition VisitInst (fuel : nat) (block : nat) (i : nat) : M St unit :=
  fun s =>
    match arena (st_ir s) !! i with
    | None => Ok (tt, s)
    | Some inst =>
        let body : M St unit :=
          match op inst with
          | Opcode.SetRegister =>
              let* reg := value_reg (Arg inst 0) in
              if decide (reg <> RZ) then write (VarReg reg) block (Arg inst 1) else retM tt
          | Opcode.SetPred =>
              let* pred := value_pred (Arg inst 0) in
              if decide (pred <> PT) then write (VarPred pred) block (Arg inst 1) else retM tt
          | Opcode.SetGotoVariable =>
              let* index := value_u32 (Arg inst 0) in
              write (GotoVariable index) block (Arg inst 1)
          | Opcode.SetIndirectBranchVariable =>
              write IndirectBranchVariable block (Arg inst 0)
          | Opcode.SetZFlag => write ZeroFlagTag block (Arg inst 0)
          | Opcode.SetSFlag => write SignFlagTag block (Arg inst 0)
          | Opcode.SetCFlag => write CarryFlagTag block (Arg inst 0)
          | Opcode.SetOFlag => write OverflowFlagTag block (Arg inst 0)
          | Opcode.GetRegister =>
              let* reg := value_reg (Arg inst 0) in
              if decide (reg <> RZ) then
                let* v := read fuel (VarReg reg) block in replace_uses i v
              else retM tt
          | Opcode.GetPred =>
              let* pred := value_pred (Arg inst 0) in
              if decide (pred <> PT) then
                let* v := read fuel (VarPred pred) block in replace_uses i v
              else retM tt
          | Opcode.GetGotoVariable =>
              let* index := value_u32 (Arg inst 0) in
              let* v := read fuel (GotoVariable index) block in replace_uses i v
          | Opcode.GetIndirectBranchVariable =>
              let* v := read fuel IndirectBranchVariable block in replace_uses i v
          | Opcode.GetZFlag => let* v := read fuel ZeroFlagTag block in replace_uses i v
          | Opcode.GetSFlag => let* v := read fuel SignFlagTag block in replace_uses i v
          | Opcode.GetCFlag => let* v := read fuel CarryFlagTag block in replace_uses i v
          | Opcode.GetOFlag => let* v := read fuel OverflowFlagTag block in replace_uses i v
          | _ => retM tt
          end in
        body s
    end.

(** [Pass::SealBlock]: the incomplete phis of the block are completed in
    key order, then the block is marked sealed. *)
Definition SealBlock (fuel : nat) (block : nat) : M St unit :=
  fun s =>
    (let* _ := match incomplete_phis (st_pass s) !! block with
               | Some m => forM_ m (fun '(variable, phi) =>
                             let* _ := AddPhiOperands variable fuel phi block in retM tt)
               | None => retM tt
               end in
     fun s' => Ok (tt, mark_sealed block s')) s.

(** [VisitBlock]. The range-for walks the block's intrusive list; the
    pass only inserts into the visited block at its head (new phis,
    behind the iterator), so the walk visits the list as it is when the
    visit starts. *)
Definition VisitBlock (fuel : nat) (block : nat) : M St unit :=
  fun s =>
    (let* _ := forM_ (instructions (block_of (st_ir s) block)) (VisitInst fuel block) in
     SealBlock fuel block) s.

(** [IR::Program] as [SsaRewritePass] sees it. *)
Record Program := {
  prog_ir : IRState;
  post_order_blocks : list nat
}.

(** [SsaRewritePass]: visit the blocks in reverse post order. *)
Definition SsaRewritePass (fuel : nat) (program : Program) : Result St :=
  match forM_ (rev (post_order_blocks program)) (VisitBlock fuel)
              {| st_ir := prog_ir program; st_pass := empty_pass |} with
  | Ok (_, s) => Ok s
  | Throw e => Throw e
  | OutOfFuel => OutOfFuel
  end.

End Ssa.

(* ------------------------------------------------------------------ *)
(** ** Maxwell translators (F2I in floating_point_conversion_integer.cpp,
       IPA in load_store_attribute.cpp) *)

Module Maxwell.
Import IREmitter.

(** [BitField<position, bits, T>] (common/bit_field.h, not in src/):
    the [bits]-bit field at bit [position] of the raw instruction word;
    a field of a signed type is sign-extended. *)
Definition bitfield (position bits raw : Z) : Z :=
  Z.land (Z.shiftr raw position) (Z.ones bits).

Definition bitfield_signed (position bits raw : Z) : Z :=
  let v := bitfield position bits raw in
  if Z.testbit v (bits - 1) then (v - 2 ^ bits)%Z else v.

(** [union F2I]. The enumerations [DestFormat] (Invalid, I16, I32, I64),
    [SrcFormat] (Invalid, F16, F32, F64) and [Rounding] (Round, Floor,
    Ceil, Trunc) are kept as their underlying integers. *)
Record F2I := {
  dest_reg : Z;
  dest_format : Z;
  src_format : Z;
  is_signed : Z;
  rounding : Z;
  half : Z;
  ftz : Z;
  abs : Z;
  cc : Z;
  neg : Z
}.

Definition decode_F2I (insn : Z) : F2I :=
  {| dest_reg := bitfield 0 8 insn;
     dest_format := bitfield 8 2 insn;
     src_format := bitfield 10 2 insn;
     is_signed := bitfield 12 1 insn;
     rounding := bitfield 39 2 insn;
     half := bitfield 49 1 insn;
     ftz := bitfield 44 1 insn;
     abs := bitfield 45 1 insn;
     cc := bitfield 47 1 insn;
     neg := bitfield 49 1 insn |}.

(** [BitSize(DestFormat)]. *)
Definition BitSize (dest_format : Z) : M EmitState nat :=
  match dest_format with
  | 1%Z => retM 16
  | 2%Z => retM 32
  | 3%Z => retM 64
  | _ => throwM NotImplemented
  end.

(** [UnpackCbuf]: the constant-buffer operand of an F64 source. The
    offset is a signed 14-bit field, the binding a 5-bit one; the
    [static_cast<u32>] arithmetic is taken modulo 2^32. *)
Definition UnpackCbuf (insn : Z) : M EmitState Value :=
  let offset := bitfield_signed 20 14 insn in
  let binding := bitfield 34 5 insn in
  if Z.leb 18 binding then throwM NotImplemented
  else if Z.leb 0x4000 offset || Z.ltb offset 0 then throwM NotImplemented
  else if negb (Z.eqb (Z.rem offset 2) 0) then throwM NotImplemented
  else
    let binding_imm := Imm32 (binding mod 2 ^ 32) in
    let byte_offset := Imm32 (((offset mod 2 ^ 32) * 4 + 4) mod 2 ^ 32) in
    let* cbuf_data := GetCbuf binding_imm byte_offset in
    let* vector := CompositeConstruct2 (Imm32 0) cbuf_data in
    PackDouble2x32 vector.

(** Lifts a computation that may throw and leaves the emitter alone. *)
Definition lift {A} (r : Exception + A) : M EmitState A :=
  match r with inl e => throwM e | inr a => retM a end.

Section TranslateF2I.
(** Modelled from the spec: the register write [TranslatorVisitor::X(reg,
    value)] (impl.cpp, not in src/). Not in src/ either: the register
    arithmetic [IR::Reg + int] (reg.h), which may throw. Both are left as
    parameters: the properties below hold for every choice. *)
Variable X : Z -> Value -> M EmitState unit.
Variable RegAdd : Z -> Z -> Exception + Z.

(** [TranslateF2I]. The register arithmetic does not touch the IR, so
    the unspecified order in which the arguments of [v.X(...)] are
    evaluated does not matter. *)
Definition TranslateF2I (insn : Z) (src_a : Value) : M EmitState unit :=
  let f2i := decode_F2I insn in
  let denorm_cares := negb (Z.eqb (src_format f2i) 1) && negb (Z.eqb (src_format f2i) 3) &&
                      negb (Z.eqb (dest_format f2i) 3) in
  let fmz := if denorm_cares then (if negb (Z.eqb (ftz f2i) 0) then FTZ else FmzNone)
             else FmzDontCare in
  let fp_control := Build_FpControl true RDontCare fmz in
  let* op_a := FPAbsNeg src_a (negb (Z.eqb (abs f2i) 0)) (negb (Z.eqb (neg f2i) 0)) in
  let* rounded_value :=
    match rounding f2i with
    | 0%Z => FPRoundEven op_a fp_control
    | 1%Z => FPFloor op_a fp_control
    | 2%Z => FPCeil op_a fp_control
    | 3%Z => FPTrunc op_a fp_control
    | _ => throwM NotImplemented
    end in
  let signed := negb (Z.eqb (is_signed f2i) 0) in
  let* bitsize := BitSize (dest_format f2i) in
  let* result := ConvertFToI bitsize signed rounded_value in
  let* _ :=
    if Nat.eqb bitsize 64 then
      let* vector := UnpackUint2x32 result in
      let* r0 := lift (RegAdd (dest_reg f2i) 0) in
      let* lo := CompositeExtract vector 0 in
      let* _ := X r0 lo in
      let* r1 := lift (RegAdd (dest_reg f2i) 1) in
      let* hi := CompositeExtract vector 1 in
      X r1 hi
    else X (dest_reg f2i) result in
  if negb (Z.eqb (cc f2i) 0) then throwM NotImplemented else retM tt.
End TranslateF2I.

(** The anonymous union of [TranslatorVisitor::IPA]. *)
Record IPAFields := {
  ipa_dest_reg : Z;
  index_reg : Z;
  multiplier : Z;
  attribute : Z;
  idx : Z;
  sat : Z;
  sample_mode : Z;
  interpolation_mode : Z
}.

Definition decode_IPA (insn : Z) : IPAFields :=
  {| ipa_dest_reg := bitfield 0 8 insn;
     index_reg := bitfield 8 8 insn;
     multiplier := bitfield 20 8 insn;
     attribute := bitfield 30 8 insn;
     idx := bitfield 38 1 insn;
     sat := bitfield 51 1 insn;
     sample_mode := bitfield 52 2 insn;
     interpolation_mode := bitfield 54 2 insn |}.

Section IPA.
(** Modelled from the spec: the register accessors [F(reg)] and [F(reg,
    value)] of [TranslatorVisitor] (impl.cpp, not in src/). Not in src/
    either: the attribute predicate [IR::IsGeneric], the attribute numbers
    of [PositionW] and [FrontFace] (attribute.h) and the default
    [FpControl] argument of [FPMul] (ir_emitter.h). All are parameters:
    the properties below hold for every choice. *)
Variable F_read : Z -> M EmitState Value.
Variable F_write : Z -> Value -> M EmitState unit.
Variable IsGeneric : Z -> bool.
Variables PositionW FrontFace : Z.
Variable default_control : FpControl.

(** [TranslatorVisitor::IPA]. [InterpolationMode] is Pass, Multiply,
    Constant, Sc; a value outside the four leaves the switch without
    effect. *)
Definition IPA (insn : Z) : M EmitState unit :=
  let ipa := decode_IPA insn in
  let is_indexed := negb (Z.eqb (idx ipa) 0) && negb (Z.eqb (index_reg ipa) (Z.of_nat RZ)) in
  if is_indexed then throwM NotImplemented
  else
    let attr := attribute ipa in
    let* value := GetAttribute attr in
    let* value :=
      if IsGeneric attr then
        let is_perspective := false in
        if is_perspective then
          let* position_w := GetAttribute PositionW in
          let* rcp_position_w := FPRecip position_w in
          FPMul value rcp_position_w default_control
        else retM value
      else retM value in
    let* value :=
      match interpolation_mode ipa with
      | 0%Z => retM value
      | 1%Z => let* m := F_read (multiplier ipa) in FPMul value m default_control
      | 2%Z => throwM NotImplemented (* IPA.CONSTANT *)
      | 3%Z => throwM NotImplemented (* IPA.SC *)
      | _ => retM value
      end in
    let is_saturated := negb (Z.eqb (sat ipa) 0) in
    let* value :=
      if is_saturated then
        if Z.eqb attr FrontFace then throwM NotImplemented else FPSaturate value
      else retM value in
    F_write (ipa_dest_reg ipa) value.
End IPA.
End Maxwell.

(* ------------------------------------------------------------------ *)
(** ** Spec-side definitions used to state refinement claims *)

Module SpecSide.

(** The N-element composite types (N in {2,3,4}) and, by name, the
    [CompositeExtract] opcode of each. *)
Definition composite_info (ty : IRType.t) : option (nat * Opcode.t) :=
  match ty with
  | IRType.U32x2 => Some (2%nat, Opcode.CompositeExtractU32x2)
  | IRType.U32x3 => Some (3%nat, Opcode.CompositeExtractU32x3)
  | IRType.U32x4 => Some (4%nat, Opcode.CompositeExtractU32x4)
  | IRType.F16x2 => Some (2%nat, Opcode.CompositeExtractF16x2)
  | IRType.F16x3 => Some (3%nat, Opcode.CompositeExtractF16x3)
  | IRType.F16x4 => Some (4%nat, Opcode.CompositeExtractF16x4)
  | IRType.F32x2 => Some (2%nat, Opcode.CompositeExtractF32x2)
  | IRType.F32x3 => Some (3%nat, Opcode.CompositeExtractF32x3)
  | IRType.F32x4 => Some (4%nat, Opcode.CompositeExtractF32x4)
  | IRType.F64x2 => Some (2%nat, Opcode.CompositeExtractF64x2)
  | IRType.F64x3 => Some (3%nat, Opcode.CompositeExtractF64x3)
  | IRType.F64x4 => Some (4%nat, Opcode.CompositeExtractF64x4)
  | _ => None
  end.

(** Claimed behaviour of [composite_extract(vec, index)]: out-of-bounds
    index or a non-composite type raise [InvalidArgument], otherwise the
    type's extract opcode is emitted on [vec] and the index. *)
Definition composite_extract_claim (vector : Value) (element : nat)
    : M IREmitter.EmitState Value :=
  fun es =>
    match composite_info (value_type (IREmitter.eir es) vector) with
    | None => Throw InvalidArgument
    | Some (n, opc) =>
        if Nat.ltb element n
        then IREmitter.Inst opc NoFlags [vector; Imm IRType.U32 (Z.of_nat element)] es
        else Throw InvalidArgument
    end.

(** Width of an unsigned integer type. *)
Definition uwidth (ty : IRType.t) : option nat :=
  match ty with IRType.U32 => Some 32%nat | IRType.U64 => Some 64%nat | _ => None end.

(** Claimed behaviour of [ConvertU(result_bitsize, v)]: [v] itself when
    the widths agree, the cross-width conversion for 32/64 and 64/32,
    [NotImplemented] otherwise. *)
Definition convert_u_claim (result_bitsize : nat) (value : Value)
    : M IREmitter.EmitState Value :=
  fun es =>
    match uwidth (value_type (IREmitter.eir es) value) with
    | Some w =>
        if Nat.eqb result_bitsize w then Ok (value, es)
        else if Nat.eqb result_bitsize 32 && Nat.eqb w 64
        then IREmitter.Inst Opcode.ConvertU32U64 NoFlags [value] es
        else if Nat.eqb result_bitsize 64 && Nat.eqb w 32
        then IREmitter.Inst Opcode.ConvertU64U32 NoFlags [value] es
        else Throw NotImplemented
    | None => Throw NotImplemented
    end.

End SpecSide.

(** ** Spec-side observations of the emitter *)

Module Observe.
(** The emitter appended one instruction, with opcode [opc], at the end
    of its current block. *)
Definition emitted (es es' : IREmitter.EmitState) (opc : Opcode.t) : Prop :=
  IREmitter.eblock es' = IREmitter.eblock es /\
  instructions (block_of (IREmitter.eir es') (IREmitter.eblock es)) =
    instructions (block_of (IREmitter.eir es) (IREmitter.eblock es)) ++ [next_id (IREmitter.eir es)] /\
  option_map op (arena (IREmitter.eir es') !! next_id (IREmitter.eir es)) = Some opc.

(** The natural width of each virtual variable, as an undef opcode:
    32 bits for registers and the indirect-branch target, one bit for
    predicates, flags and goto variables (whose [Get]/[Set] emitters
    take and return [U1]). *)
Definition undef_by_width (v : Ssa.Variant) : Opcode.t :=
  match v with
  | Ssa.VarReg _ | Ssa.IndirectBranchVariable => Opcode.UndefU32
  | _ => Opcode.UndefU1
  end.

(** No block's predecessor or successor list changed. *)
Definition cfg_unchanged (es es' : IREmitter.EmitState) : Prop :=
  forall b, imm_predecessors (block_of (IREmitter.eir es') b) = imm_predecessors (block_of (IREmitter.eir es) b) /\
            successors (block_of (IREmitter.eir es') b) = successors (block_of (IREmitter.eir es) b).
(** Well-formed operands: the register, predicate and goto-index operands
    of the [Set]/[Get] instructions that [VisitInst] decodes carry an
    immediate of the matching kind. *)
Definition inst_wf (inst : Inst) : bool :=
  match op inst with
  | Opcode.SetRegister | Opcode.GetRegister =>
      match Arg inst 0 with ImmReg _ => true | _ => false end
  | Opcode.SetPred | Opcode.GetPred =>
      match Arg inst 0 with ImmPred _ => true | _ => false end
  | Opcode.SetGotoVariable | Opcode.GetGotoVariable =>
      match Arg inst 0 with Imm IRType.U32 _ => true | _ => false end
  | _ => true
  end.

Definition arena_wf (a : gmap nat Inst) : Prop :=
  map_Forall (fun _ inst => inst_wf inst = true) a.

Definition state_wf (s : Ssa.St) : Prop := arena_wf (arena (Ssa.st_ir s)).

(** A pass step that, from a well-formed state, never throws and, when it
    succeeds, ends in a well-formed state. *)
Definition never_throws {A} (m : M Ssa.St A) : Prop :=
  forall s, state_wf s ->
    match m s with Ok (_, s') => state_wf s' | Throw _ => False | OutOfFuel => True end.
(** The [Get] instructions that [VisitInst] replaces: every [Get] of a
    virtual variable except those against the sinks RZ and PT, with an
    operand of the kind [VisitInst] decodes. *)
Definition is_ssa_read (inst : Inst) : bool :=
  match op inst with
  | Opcode.GetRegister => match Arg inst 0 with ImmReg r => negb (Nat.eqb r RZ) | _ => false end
  | Opcode.GetPred => match Arg inst 0 with ImmPred p => negb (Nat.eqb p PT) | _ => false end
  | Opcode.GetGotoVariable => match Arg inst 0 with Imm IRType.U32 _ => true | _ => false end
  | Opcode.GetIndirectBranchVariable | Opcode.GetZFlag | Opcode.GetSFlag
  | Opcode.GetCFlag | Opcode.GetOFlag => true
  | _ => false
  end.

(** The instruction handles of the reachable blocks, in the order
    [SsaRewritePass] visits them, as they are before the pass. *)
Definition visit_order (program : Ssa.Program) : list nat :=
  concat (map (fun b => instructions (block_of (Ssa.prog_ir program) b))
              (rev (Ssa.post_order_blocks program))).

(** [g] is a reachable [Get] that the pass replaces. *)
Definition reachable_read (program : Ssa.Program) (g : nat) : bool :=
  bool_decide (g ∈ visit_order program) &&
  match arena (Ssa.prog_ir program) !! g with Some inst => is_ssa_read inst | None => false end.

(** Every operand of an instruction of [l] that refers to a read
    ([isread]) refers to one met before it: in [seen] or earlier in [l]. *)
Fixpoint uses_defined_before (ir : IRState) (isread : nat -> bool) (seen : list nat)
    (l : list nat) : bool :=
  match l with
  | [] => true
  | u :: l' =>
      match arena ir !! u with
      | Some inst => forallb (fun v => match v with
                                       | InstRef g => negb (isread g) || bool_decide (g ∈ seen)
                                       | _ => true
                                       end) (args inst)
      | None => true
      end && uses_defined_before ir isread (u :: seen) l'
  end.

(** Definitions dominate uses in visiting order: a reachable instruction
    uses the result of a reachable read only if the read is visited
    before it. *)
Definition def_before_use (program : Ssa.Program) : bool :=
  uses_defined_before (Ssa.prog_ir program) (reachable_read program) [] (visit_order program).

(** The handles of the arena and of the block lists are below [next_id]. *)
Definition ids_below_next (ir : IRState) : Prop :=
  map_Forall (fun i _ => i < next_id ir) (arena ir) /\
  map_Forall (fun _ blk => Forall (fun i => i < next_id ir) (instructions blk)) (blocks ir).

(** Some instruction of the arena has [g] as an operand. *)
Definition has_uses (ir : IRState) (g : nat) : Prop :=
  exists i inst, arena ir !! i = Some inst /\ InstRef g ∈ args inst.

(** Invariant of [SsaRewritePass] relative to the program [ir0] and its
    reachable reads [isG], once the instructions [seen] are visited. *)
Definition clean (isG : nat -> bool) (v : Value) : Prop :=
  forall g, isG g = true -> v <> InstRef g.

Record ir_ok (ir0 : IRState) (isG : nat -> bool) (seen : list nat) (ir : IRState) : Prop := {
  ok_next : next_id ir0 <= next_id ir;
  ok_reads : forall u i0, arena ir0 !! u = Some i0 -> is_ssa_read i0 = true ->
               exists i, arena ir !! u = Some i /\ is_ssa_read i = true;
  ok_refs : forall u i g, arena ir !! u = Some i -> isG g = true -> InstRef g ∈ args i ->
              exists i0, arena ir0 !! u = Some i0 /\ InstRef g ∈ args i0;
  ok_replaced : forall g, isG g = true -> g ∈ seen -> ~ has_uses ir g;
  ok_lists : forall b, filter (fun i => i < next_id ir0) (instructions (block_of ir b)) =
                       instructions (block_of ir0 b)
}.

Record pass_ok (ir0 : IRState) (isG : nat -> bool) (p : Ssa.Pass) : Prop := {
  ok_defs : forall var b v, Ssa.def_get (Ssa.current_def p) var !! b = Some v -> clean isG v;
  ok_phis : forall b m, Ssa.incomplete_phis p !! b = Some m -> Forall (fun e => next_id ir0 <= e.2) m
}.

Definition entry_ok (ir0 : IRState) (isG : nat -> bool) (e : Ssa.ReadState) : Prop :=
  clean isG (Ssa.rs_result e) /\
  (Ssa.rs_pc e = Ssa.PushPhiArgument \/ Ssa.rs_pc e = Ssa.PreparePhiArgument ->
   next_id ir0 <= Ssa.rs_phi e).

Definition sop_ok (ir0 : IRState) (isG : nat -> bool) (sop : Ssa.StackOp) : Prop :=
  match sop with
  | Ssa.PopWith r => clean isG r
  | Ssa.PushOn t e => entry_ok ir0 isG t /\ entry_ok ir0 isG e
  end.

(** Partial-correctness triples over the pass monad: from a state
    satisfying [P], a step that succeeds ends in a state satisfying [Q]. *)
Definition triple {A} (P : Ssa.St -> Prop) (m : M Ssa.St A) (Q : A -> Ssa.St -> Prop) : Prop :=
  forall s, P s -> match m s with Ok (a, s') => Q a s' | _ => True end.

(** Emitter observations: typing outcomes, and the instructions that
    exist before a step and are left alone by it. *)
Import IREmitter.

Definition is_float (ty : IRType.t) : bool :=
  match ty with IRType.F16 | IRType.F32 | IRType.F64 => true | _ => false end.

Definition emits_value (es es' : EmitState) (r : Value) (ty : IRType.t) : Prop :=
  r = InstRef (next_id (eir es)) /\ value_type (eir es') r = ty /\
  next_id (eir es') = S (next_id (eir es)) /\
  (exists opc, emitted es es' opc) /\ cfg_unchanged es es'.

Definition typed_result (m : M EmitState Value) (es : EmitState) (ok : Prop)
    (rty : IRType.t) (err : Exception) : Prop :=
  match m es with
  | Ok (r, es') => ok /\ emits_value es es' r rty
  | Throw e => e = err /\ ~ ok
  | OutOfFuel => False
  end.
Definition is_composite_element (ty : IRType.t) : bool :=
  match ty with IRType.U32 | IRType.F16 | IRType.F32 | IRType.F64 => true | _ => false end.

Definition vector_of (n : nat) (ty : IRType.t) : IRType.t :=
  match n, ty with
  | 2, IRType.U32 => IRType.U32x2 | 3, IRType.U32 => IRType.U32x3 | 4, IRType.U32 => IRType.U32x4
  | 2, IRType.F16 => IRType.F16x2 | 3, IRType.F16 => IRType.F16x3 | 4, IRType.F16 => IRType.F16x4
  | 2, IRType.F32 => IRType.F32x2 | 3, IRType.F32 => IRType.F32x3 | 4, IRType.F32 => IRType.F32x4
  | 2, IRType.F64 => IRType.F64x2 | 3, IRType.F64 => IRType.F64x3 | 4, IRType.F64 => IRType.F64x4
  | _, _ => IRType.Void
  end%nat.

Definition is_select_type (ty : IRType.t) : bool :=
  match ty with IRType.U8 | IRType.U16 | IRType.U32 | IRType.U64 | IRType.F32 => true | _ => false end.

Definition is_int_type (ty : IRType.t) : bool :=
  match ty with IRType.U32 | IRType.U64 => true | _ => false end.

Definition is_f32_f64 (ty : IRType.t) : bool :=
  match ty with IRType.F32 | IRType.F64 => true | _ => false end.

Definition below (es es' : EmitState) : Prop :=
  (next_id (eir es) <= next_id (eir es'))%nat /\
  forall k, (k < next_id (eir es))%nat -> arena (eir es') !! k = arena (eir es) !! k.

Definition fresh_for (es : EmitState) (v : Value) : Prop :=
  match v with InstRef k => (k < next_id (eir es))%nat | _ => True end.

Definition is_other_flow_test (ft : FlowTest) : bool :=
  match ft with FT_Other _ => true | _ => false end.

End Observe.

(** ** Concrete inputs *)

Module Inputs.
Definition mkinst (o : Opcode.t) (a : list Value) : Inst :=
  {| op := o; flags := NoFlags; args := a; phi_blocks := [] |}.
Definition mkblock (l ps : list nat) : Block :=
  {| instructions := l; imm_predecessors := ps; successors := [] |}.

(** An emitter in block 0 of a program with three empty blocks. *)
Definition three_blocks : IREmitter.EmitState :=
  {| IREmitter.eir := {| arena := ∅;
                         blocks := <[0 := mkblock [] []]> (<[1 := mkblock [] []]> (<[2 := mkblock [] []]> ∅));
                         next_id := 0 |};
     IREmitter.eblock := 0 |}.

(** A pass state whose only block, 0, is sealed and has no predecessor. *)
Definition sealed_entry : Ssa.St :=
  {| Ssa.st_ir := {| arena := ∅; blocks := <[0 := mkblock [] []]> ∅; next_id := 0 |};
     Ssa.st_pass := {| Ssa.sealed_blocks := [0]; Ssa.incomplete_phis := ∅;
                       Ssa.current_def := Ssa.empty_def_table |} |}.

(** A phi with a self-reference and one other value, and one use. *)
Definition phi_state : Ssa.St :=
  {| Ssa.st_ir := {| arena := {[0%nat := mkinst Opcode.Phi [InstRef 0; Imm IRType.U32 5];
                            1%nat := mkinst Opcode.IAdd32 [InstRef 0; InstRef 0]]};
                 blocks := {[0%nat := mkblock [0; 1]%nat []]};
                 next_id := 2 |};
     Ssa.st_pass := Ssa.empty_pass |}.

(** Block 1 has the single predecessor 0, where R3 is defined; both are
    sealed. *)
Definition single_pred_state : Ssa.St :=
  {| Ssa.st_ir := {| arena := ∅;
                     blocks := {[0%nat := mkblock [] []; 1%nat := mkblock [] [0%nat]]};
                     next_id := 0 |};
     Ssa.st_pass := {| Ssa.sealed_blocks := [0; 1]%nat; Ssa.incomplete_phis := ∅;
                       Ssa.current_def :=
                         {| Ssa.regs := {[3%nat := {[0%nat := Imm IRType.U32 7]}]};
                            Ssa.preds := ∅; Ssa.goto_vars := ∅; Ssa.indirect_branch_var := ∅;
                            Ssa.zero_flag := ∅; Ssa.sign_flag := ∅; Ssa.carry_flag := ∅;
                            Ssa.overflow_flag := ∅ |} |} |}.

(** Block 0 is the entry and the head of a loop whose only other block
    is 1; block 1 also falls through to block 2, which reads R1. Every
    block on the cycle has a single predecessor. *)
Definition loopy : Ssa.Program :=
  {| Ssa.prog_ir := {| arena := {[30%nat := mkinst Opcode.GetRegister [ImmReg 1]]};
                       blocks := {[0%nat := mkblock [] [1%nat]; 1%nat := mkblock [] [0%nat];
                                   2%nat := mkblock [30%nat] [1%nat]]};
                       next_id := 100 |};
     Ssa.post_order_blocks := [2; 1; 0]%nat |}.

(** The state in which [SsaRewritePass] seals block 2 of [loopy]: blocks
    0 and 1 visited and sealed, then the read of R1 in block 2, which
    leaves an incomplete phi there. The fuel only bounds each read; one
    pass of the read loop is enough here. *)
Definition loopy_seal_state : Ssa.St :=
  let s0 := {| Ssa.st_ir := Ssa.prog_ir loopy; Ssa.st_pass := Ssa.empty_pass |} in
  match forM_ [0%nat; 1%nat] (Ssa.VisitBlock 1) s0 with
  | Ok (_, s1) => match Ssa.VisitInst 1 2 30 s1 with Ok (_, s2) => s2 | _ => s1 end
  | _ => s0
  end.

(** A diamond 0 -> {1, 2} -> 3; R1 is set in 1 and 2 and read in 3. *)
Definition diamond : Ssa.Program :=
  {| Ssa.prog_ir := {| arena := {[10%nat := mkinst Opcode.SetRegister [ImmReg 1; Imm IRType.U32 1];
                                 20%nat := mkinst Opcode.SetRegister [ImmReg 1; Imm IRType.U32 2];
                                 30%nat := mkinst Opcode.GetRegister [ImmReg 1];
                                 31%nat := mkinst Opcode.IAdd32 [InstRef 30; Imm IRType.U32 0]]};
                       blocks := {[0%nat := mkblock [] []; 1%nat := mkblock [10%nat] [0%nat];
                                   2%nat := mkblock [20%nat] [0%nat];
                                   3%nat := mkblock [30%nat; 31%nat] [1%nat; 2%nat]]};
                       next_id := 100 |};
     Ssa.post_order_blocks := [3; 2; 1; 0]%nat |}.

(** Block 0 reads the zero register RZ and adds the result to itself. *)
Definition rz_sink : Ssa.Program :=
  {| Ssa.prog_ir := {| arena := {[0%nat := mkinst Opcode.GetRegister [ImmReg RZ];
                                 1%nat := mkinst Opcode.IAdd32 [InstRef 0; InstRef 0]]};
                       blocks := {[0%nat := mkblock [0; 1]%nat []]};
                       next_id := 2 |};
     Ssa.post_order_blocks := [0%nat] |}.
(** Instruction 0 sets R1 to 5 and instruction 1 reads R1, both in
    block 0; nothing is sealed or defined yet. *)
Definition set_get_state : Ssa.St :=
  {| Ssa.st_ir := {| arena := {[0%nat := mkinst Opcode.SetRegister [ImmReg 1; Imm IRType.U32 5];
                                1%nat := mkinst Opcode.GetRegister [ImmReg 1]]};
                     blocks := {[0%nat := mkblock [0; 1]%nat []]};
                     next_id := 2 |};
     Ssa.st_pass := Ssa.empty_pass |}.
End Inputs.

(* ================================================================== *)
(** * Properties *)

Import IREmitter Ssa SpecSide Observe Inputs.

(** ** Block and arena bookkeeping *)

Lemma block_of_set_block ir b blk b' :
  block_of (set_block ir b blk) b' = if decide (b = b') then blk else block_of ir b'.
Proof.
  unfold block_of, set_block; simpl. case_decide; subst.
  - by rewrite lookup_insert_eq.
  - by rewrite lookup_insert_ne.
Qed.

Lemma preds_PrependNewInst ir b pos opc fl ops b' :
  imm_predecessors (block_of (PrependNewInst ir b pos opc fl ops).1 b') =
  imm_predecessors (block_of ir b').
Proof.
  unfold PrependNewInst, set_instructions; simpl.
  rewrite block_of_set_block. case_decide; subst; reflexivity.
Qed.

Lemma succs_PrependNewInst ir b pos opc fl ops b' :
  successors (block_of (PrependNewInst ir b pos opc fl ops).1 b') =
  successors (block_of ir b').
Proof.
  unfold PrependNewInst, set_instructions; simpl.
  rewrite block_of_set_block. case_decide; subst; reflexivity.
Qed.

Lemma instructions_PrependNewInst_end ir b opc fl ops :
  instructions (block_of (PrependNewInst ir b (length (instructions (block_of ir b))) opc fl ops).1 b) =
  instructions (block_of ir b) ++ [next_id ir].
Proof.
  unfold PrependNewInst, set_instructions; simpl.
  rewrite block_of_set_block, decide_True by reflexivity; simpl.
  by rewrite firstn_all, drop_all.
Qed.

Lemma arena_PrependNewInst ir b pos opc fl ops :
  arena (PrependNewInst ir b pos opc fl ops).1 =
  <[next_id ir := {| op := opc; flags := fl; args := ops; phi_blocks := [] |}]> (arena ir).
Proof. reflexivity. Qed.

Lemma preds_AddImmediatePredecessor ir b pred b' :
  imm_predecessors (block_of (AddImmediatePredecessor ir b pred) b') =
  if decide (b = b') then
    (if decide (pred ∈ imm_predecessors (block_of ir b)) then imm_predecessors (block_of ir b)
     else imm_predecessors (block_of ir b) ++ [pred])
  else imm_predecessors (block_of ir b').
Proof.
  unfold AddImmediatePredecessor.
  case_decide as Hin.
  - case_decide; subst; reflexivity.
  - rewrite block_of_set_block. case_decide; subst; reflexivity.
Qed.

Lemma pred_in_AddImmediatePredecessor ir b pred :
  pred ∈ imm_predecessors (block_of (AddImmediatePredecessor ir b pred) b).
Proof.
  rewrite preds_AddImmediatePredecessor, decide_True by reflexivity.
  case_decide; [done|]. apply elem_of_app; right; by apply list_elem_of_singleton.
Qed.

Lemma succs_AddImmediatePredecessor ir b pred b' :
  successors (block_of (AddImmediatePredecessor ir b pred) b') = successors (block_of ir b').
Proof.
  unfold AddImmediatePredecessor. case_decide; [done|].
  rewrite block_of_set_block. case_decide; subst; reflexivity.
Qed.

Lemma preds_SetSuccessors ir b succ b' :
  imm_predecessors (block_of (SetSuccessors ir b succ) b') = imm_predecessors (block_of ir b').
Proof.
  unfold SetSuccessors. rewrite block_of_set_block. case_decide; subst; reflexivity.
Qed.

Lemma succs_SetSuccessors ir b succ b' :
  successors (block_of (SetSuccessors ir b succ) b') =
  if decide (b = b') then succ else successors (block_of ir b').
Proof.
  unfold SetSuccessors. rewrite block_of_set_block. case_decide; subst; reflexivity.
Qed.

Lemma instructions_AddImmediatePredecessor ir b pred b' :
  instructions (block_of (AddImmediatePredecessor ir b pred) b') = instructions (block_of ir b').
Proof.
  unfold AddImmediatePredecessor. case_decide; [done|].
  rewrite block_of_set_block. case_decide; subst; reflexivity.
Qed.

Lemma instructions_SetSuccessors ir b succ b' :
  instructions (block_of (SetSuccessors ir b succ) b') = instructions (block_of ir b').
Proof.
  unfold SetSuccessors. rewrite block_of_set_block. case_decide; subst; reflexivity.
Qed.

Lemma next_id_AddImmediatePredecessor ir b pred :
  next_id (AddImmediatePredecessor ir b pred) = next_id ir.
Proof. unfold AddImmediatePredecessor. case_decide; reflexivity. Qed.

Lemma Inst_emitted opc fl ops es :
  exists es', IREmitter.Inst opc fl ops es = Ok (InstRef (next_id (eir es)), es') /\
              emitted es es' opc /\ cfg_unchanged es es' /\
              arena (eir es') !! next_id (eir es) =
                Some {| op := opc; flags := fl; args := ops; phi_blocks := [] |}.
Proof.
  unfold IREmitter.Inst.
  destruct (PrependNewInst _ _ _ _ _ _) as [ir' id] eqn:E.
  pose proof (instructions_PrependNewInst_end (eir es) (eblock es) opc fl ops) as Hi.
  pose proof (fun b => preds_PrependNewInst (eir es) (eblock es)
                (length (instructions (block_of (eir es) (eblock es)))) opc fl ops b) as Hp.
  pose proof (fun b => succs_PrependNewInst (eir es) (eblock es)
                (length (instructions (block_of (eir es) (eblock es)))) opc fl ops b) as Hs.
  pose proof (arena_PrependNewInst (eir es) (eblock es)
                (length (instructions (block_of (eir es) (eblock es)))) opc fl ops) as Ha.
  rewrite E in Hi, Hp, Hs, Ha. simpl in *.
  assert (id = next_id (eir es)) as -> by (unfold PrependNewInst in E; congruence).
  eexists; split; [reflexivity|].
  unfold emitted, cfg_unchanged, with_ir; simpl.
  rewrite Ha, lookup_insert_eq. auto.
Qed.

(** ** C1: [FPAdd] on mixed widths *)

(** C1 (code_bug). [IREmitter::FPAdd]'s guard compares [a.Type()] with
    itself, so it never fires: on an [F32] and an [F16] operand FPAdd does
    not raise [InvalidArgument] but emits [FPAdd32] on both operands. *)
Theorem FPAdd_mixed_widths_emits_FPAdd32 (x y : Z) (control : FpControl) (es : EmitState) :
  FPAdd (Imm IRType.F32 x) (Imm IRType.F16 y) control es =
    IREmitter.Inst Opcode.FPAdd32 (FpFlags control) [Imm IRType.F32 x; Imm IRType.F16 y] es /\
  (forall e, FPAdd (Imm IRType.F32 x) (Imm IRType.F16 y) control es <> Throw e).
Proof.
  assert (Heq : FPAdd (Imm IRType.F32 x) (Imm IRType.F16 y) control es =
    IREmitter.Inst Opcode.FPAdd32 (FpFlags control) [Imm IRType.F32 x; Imm IRType.F16 y] es)
    by reflexivity.
  split; [exact Heq|]. intros e. rewrite Heq.
  destruct (Inst_emitted Opcode.FPAdd32 (FpFlags control) [Imm IRType.F32 x; Imm IRType.F16 y] es)
    as (es' & -> & _). discriminate.
Qed.

(** ** C7: [CompositeExtract] *)

Lemma composite_read_bounds opc (n element : nat) vector es :
  (n <= 4)%nat ->
  (if Nat.leb n element then throwM InvalidArgument
   else IREmitter.Inst opc NoFlags [vector; Imm IRType.U32 (Z.of_nat element mod 2 ^ 32)%Z]) es =
  (if Nat.ltb element n
   then IREmitter.Inst opc NoFlags [vector; Imm IRType.U32 (Z.of_nat element)] es
   else Throw InvalidArgument).
Proof.
  intros Hn. destruct (Nat.leb_spec n element), (Nat.ltb_spec element n); try lia; [done|].
  rewrite Z.mod_small; [done | lia].
Qed.

(** C7. For every value and index, [IREmitter::CompositeExtract] raises
    [InvalidArgument] when the value's type is not a 2-, 3- or 4-element
    composite or the index is at least the element count, and otherwise
    emits the composite type's [CompositeExtract] opcode on the value and
    the index. *)
Theorem CompositeExtract_bounds (vector : Value) (element : nat) (es : EmitState) :
  CompositeExtract vector element es = composite_extract_claim vector element es.
Proof.
  cbv beta iota zeta delta [CompositeExtract composite_extract_claim bindM Type_].
  destruct (value_type (eir es) vector); cbv beta iota delta [composite_info];
    try reflexivity; apply composite_read_bounds; lia.
Qed.

(** ** C10: [ConvertU] *)

(** C10. [IREmitter::ConvertU(result_bitsize, v)] returns [v] itself and
    emits nothing when [result_bitsize] is [v]'s width (32 for U32, 64
    for U64), emits [ConvertU32U64] / [ConvertU64U32] in the two
    cross-width cases, and raises [NotImplemented] for every other
    combination of bitsize and type. *)
Theorem ConvertU_cases (result_bitsize : nat) (value : Value) (es : EmitState) :
  ConvertU result_bitsize value es = convert_u_claim result_bitsize value es.
Proof.
  unfold ConvertU, convert_u_claim, bindM, Type_, retM, throwM; simpl.
  destruct (value_type (eir es) value); simpl;
    destruct (Nat.eqb_spec result_bitsize 32); subst; simpl; try reflexivity;
    destruct (Nat.eqb_spec result_bitsize 64); subst; simpl; try reflexivity.
Qed.

(** ** C8: control-flow emitters and the CFG *)

Lemma Inst__emitted opc ops es :
  exists es', Inst_ opc ops es = Ok (tt, es') /\ emitted es es' opc /\ cfg_unchanged es es'.
Proof.
  destruct (Inst_emitted opc NoFlags ops es) as (es' & E & H1 & H2 & _).
  exists es'. unfold Inst_, bindM, retM. rewrite E. auto.
Qed.

Lemma emitted_transfer es es1 es' opc :
  eblock es1 = eblock es ->
  instructions (block_of (eir es1) (eblock es)) = instructions (block_of (eir es) (eblock es)) ->
  next_id (eir es1) = next_id (eir es) ->
  emitted es1 es' opc -> emitted es es' opc.
Proof.
  unfold emitted. intros Hb Hi Hn (H1 & H2 & H3).
  rewrite Hb in H1, H2. rewrite Hi, Hn in H2. rewrite Hn in H3. auto.
Qed.

(** C8 (counterexample). [LoopMerge] does not patch the CFG: after
    [LoopMerge(1, 2)] emitted in block 0, block 1 still has no
    predecessor and block 0 no successor. *)
Lemma LoopMerge_leaves_cfg_counterexample :
  match LoopMerge 1 2 three_blocks with
  | Ok (_, es') => (0 ∉ imm_predecessors (block_of (eir es') 1)) /\
                   successors (block_of (eir es') 0) = []
  | _ => False
  end.
Proof. vm_compute. split; [apply not_elem_of_nil | reflexivity]. Qed.

(** C8 (amended). [Branch(label)] and [BranchConditional(cond, t, f)]
    emit their instruction and patch the CFG: the label(s) gain the
    current block as predecessor and become its successor(s).
    [LoopMerge], [SelectionMerge] and [Return] only emit their
    instruction and leave every block's predecessor and successor lists
    unchanged. *)
Theorem control_flow_emitters_cfg (es : EmitState) (label t f m c : nat) (condition : Value) :
  (exists es', Branch label es = Ok (tt, es') /\ emitted es es' Opcode.Branch /\
     eblock es ∈ imm_predecessors (block_of (eir es') label) /\
     successors (block_of (eir es') (eblock es)) = [label]) /\
  (exists es', BranchConditional condition t f es = Ok (tt, es') /\
     emitted es es' Opcode.BranchConditional /\
     eblock es ∈ imm_predecessors (block_of (eir es') t) /\
     eblock es ∈ imm_predecessors (block_of (eir es') f) /\
     successors (block_of (eir es') (eblock es)) = [t; f]) /\
  (exists es', LoopMerge m c es = Ok (tt, es') /\ emitted es es' Opcode.LoopMerge /\
     cfg_unchanged es es') /\
  (exists es', SelectionMerge m es = Ok (tt, es') /\ emitted es es' Opcode.SelectionMerge /\
     cfg_unchanged es es') /\
  (exists es', Return es = Ok (tt, es') /\ emitted es es' Opcode.Return /\
     cfg_unchanged es es').
Proof.
  split; [|split; [|split; [|split]]].
  - set (ir1 := SetBranch (AddImmediatePredecessor (eir es) label (eblock es)) (eblock es) label).
    destruct (Inst__emitted Opcode.Branch [ImmLabel label] (IREmitter.with_ir es ir1))
      as (es' & E & Hem & Hcfg).
    exists es'. split.
    + unfold Branch, bindM, modify_ir. simpl. exact E.
    + split; [|split].
      * apply (emitted_transfer es (IREmitter.with_ir es ir1) es'); [reflexivity| | |exact Hem];
          simpl; unfold ir1, SetBranch.
        -- by rewrite instructions_SetSuccessors, instructions_AddImmediatePredecessor.
        -- apply next_id_AddImmediatePredecessor.
      * destruct (Hcfg label) as [-> _]. simpl. unfold ir1, SetBranch.
        rewrite preds_SetSuccessors. apply pred_in_AddImmediatePredecessor.
      * destruct (Hcfg (eblock es)) as [_ ->]. simpl. unfold ir1, SetBranch.
        rewrite succs_SetSuccessors, decide_True; reflexivity.
  - set (ir1 := AddImmediatePredecessor
                  (AddImmediatePredecessor (SetBranches (eir es) (eblock es) t f) t (eblock es))
                  f (eblock es)).
    destruct (Inst__emitted Opcode.BranchConditional [condition; ImmLabel t; ImmLabel f]
                (IREmitter.with_ir es ir1)) as (es' & E & Hem & Hcfg).
    exists es'. split.
    + unfold BranchConditional, bindM, modify_ir. simpl. exact E.
    + split; [|split; [|split]].
      * apply (emitted_transfer es (IREmitter.with_ir es ir1) es'); [reflexivity| | |exact Hem];
          simpl; unfold ir1, SetBranches.
        -- by rewrite !instructions_AddImmediatePredecessor, instructions_SetSuccessors.
        -- by rewrite !next_id_AddImmediatePredecessor.
      * destruct (Hcfg t) as [-> _]. simpl. unfold ir1.
        rewrite preds_AddImmediatePredecessor. case_decide as Hft.
        -- subst f. case_decide; [done|]. apply elem_of_app; left.
           apply pred_in_AddImmediatePredecessor.
        -- apply pred_in_AddImmediatePredecessor.
      * destruct (Hcfg f) as [-> _]. simpl. unfold ir1.
        apply pred_in_AddImmediatePredecessor.
      * destruct (Hcfg (eblock es)) as [_ ->]. simpl. unfold ir1, SetBranches.
        rewrite !succs_AddImmediatePredecessor, succs_SetSuccessors, decide_True; reflexivity.
  - apply Inst__emitted.
  - apply Inst__emitted.
  - apply Inst__emitted.
Qed.

(** ** C2: undef opcodes of the virtual variables *)

(** C2 (counterexample). A goto variable is not given [UndefU32]:
    [GotoVariable] derives from [FlagTag], so [UndefOpcode] picks the
    [FlagTag] overload, and reading an undefined goto variable in a sealed
    block without predecessors creates an [UndefU1] instruction. *)
Lemma goto_variable_undef_counterexample :
  UndefOpcode (GotoVariable 0) <> Opcode.UndefU32 /\
  match ReadVariable (GotoVariable 0) 10 0 sealed_entry with
  | Some (InstRef u, s') => option_map op (arena (st_ir s') !! u) = Some Opcode.UndefU1
  | _ => False
  end.
Proof. split; [discriminate | vm_compute; reflexivity]. Qed.

Lemma lookup_ReplaceUsesWith ir target v i :
  arena (ReplaceUsesWith ir target v) !! i = subst_inst target v <$> arena ir !! i.
Proof. unfold ReplaceUsesWith; simpl. apply lookup_fmap. Qed.

(** C2 (amended). The undef opcode of trivial-phi replacement is [UndefU1]
    for predicates, the Z/S/C/O flags and goto variables, and [UndefU32]
    for general registers and the indirect-branch variable: reading any
    variable with no definition in a sealed block without predecessors
    returns a fresh instruction with that opcode. *)
Theorem undef_opcode_by_variable (variable : Variant) (fuel block : nat) (s : St) :
  (1 <= fuel)%nat ->
  is_sealed s block = true ->
  def_get (current_def (st_pass s)) variable !! block = None ->
  imm_predecessors (block_of (st_ir s) block) = [] ->
  UndefOpcode variable = undef_by_width variable /\
  exists s', ReadVariable variable fuel block s = Some (InstRef (S (next_id (st_ir s))), s') /\
             option_map op (arena (st_ir s') !! S (next_id (st_ir s))) =
               Some (undef_by_width variable).
Proof.
  intros Hf Hs Hd Hp.
  assert (Hu : UndefOpcode variable = undef_by_width variable) by (destruct variable; reflexivity).
  split; [exact Hu|].
  destruct fuel as [|fuel]; [lia|].
  unfold ReadVariable. simpl read_loop. unfold read_body, read_step. simpl rs_pc.
  simpl rs_block. rewrite Hd, Hs, Hp. simpl negb. cbv iota.
  unfold PrependNewInst, prepare_phi_operand, TryRemoveTrivialPhi, phi_args, set_instructions,
    set_block, WriteVariable, with_ir, with_pass.
  cbn [fst snd st_ir st_pass arena blocks next_id rs_preds rs_phi rs_block set_phi_preds
       new_read_state].
  rewrite lookup_insert_eq.
  cbn [args trivial_phi_scan IsEmpty].
  eexists; split; [reflexivity|].
  cbn [st_ir arena ReplaceUsesWith fst snd].
  rewrite lookup_fmap. unfold set_instructions, set_block. cbn [next_id arena].
  rewrite lookup_insert_eq. simpl. by rewrite Hu.
Qed.

Lemma undef_opcode_by_variable_witness :
  (1 <= 10)%nat /\ is_sealed sealed_entry 0 = true /\
  def_get (current_def (st_pass sealed_entry)) IndirectBranchVariable !! 0 = None /\
  imm_predecessors (block_of (st_ir sealed_entry) 0) = [] /\
  (UndefOpcode IndirectBranchVariable = undef_by_width IndirectBranchVariable /\
   exists s', ReadVariable IndirectBranchVariable 10 0 sealed_entry =
                Some (InstRef (S (next_id (st_ir sealed_entry))), s') /\
              option_map op (arena (st_ir s') !! S (next_id (st_ir sealed_entry))) =
                Some (undef_by_width IndirectBranchVariable)).
Proof.
  split; [lia|]. split; [reflexivity|]. split; [reflexivity|]. split; [reflexivity|].
  apply undef_opcode_by_variable; [lia | reflexivity | reflexivity | reflexivity].
Defined.

(** C6: the RZ register and the PT predicate are sinks. Visiting a
    [SetRegister] of RZ, a [SetPred] of PT, a [GetRegister] of RZ or a
    [GetPred] of PT returns the pass state unchanged: current_def is not
    written, no read happens and the uses of the instruction are kept. *)
Theorem sink_instructions_untouched (fuel block i : nat) (s : St) inst :
  arena (st_ir s) !! i = Some inst ->
  (op inst = Opcode.SetRegister /\ Arg inst 0 = ImmReg RZ) \/
  (op inst = Opcode.SetPred /\ Arg inst 0 = ImmPred PT) \/
  (op inst = Opcode.GetRegister /\ Arg inst 0 = ImmReg RZ) \/
  (op inst = Opcode.GetPred /\ Arg inst 0 = ImmPred PT) ->
  VisitInst fuel block i s = Ok (tt, s).
Proof.
  intros Hi Hcase. unfold VisitInst. rewrite Hi.
  destruct Hcase as [[Ho Ha]|[[Ho Ha]|[[Ho Ha]|[Ho Ha]]]];
    rewrite Ho, Ha; reflexivity.
Qed.

Lemma sink_instructions_untouched_witness :
  let s := {| st_ir := {| arena := {[0%nat := mkinst Opcode.GetRegister [ImmReg RZ];
                                      1%nat := mkinst Opcode.IAdd32 [InstRef 0; InstRef 0]]};
                          blocks := {[0%nat := mkblock [0; 1]%nat []]};
                          next_id := 2 |};
              st_pass := empty_pass |} in
  VisitInst 10 0 0 s = Ok (tt, s).
Proof.
  intros s.
  apply (sink_instructions_untouched 10 0 0 s (mkinst Opcode.GetRegister [ImmReg RZ]));
    [reflexivity | right; right; left; split; reflexivity].
Defined.

(** ** The operand scan and the undef placement of [TryRemoveTrivialPhi] *)

Lemma scan_same_found self v ops :
  v <> self -> Forall (fun x => x = self \/ x = v) ops ->
  trivial_phi_scan self v ops = Some v.
Proof.
  intros Hv Hall. induction Hall as [|x ops Hx _ IH]; [reflexivity|]. simpl.
  unfold Resolve. destruct Hx as [->| ->].
  - rewrite (bool_decide_eq_true_2 (self = self)) by reflexivity.
    rewrite orb_true_r. exact IH.
  - rewrite bool_decide_eq_true_2 by reflexivity. exact IH.
Qed.

Lemma scan_same_conflict self v ops :
  v <> Empty -> (exists x, x ∈ ops /\ x <> self /\ x <> v) ->
  trivial_phi_scan self v ops = None.
Proof.
  intros Hv. induction ops as [|y ops IH]; intros (x & Hx & Hxs & Hxv).
  - by apply not_elem_of_nil in Hx.
  - simpl; unfold Resolve. apply elem_of_cons in Hx.
    destruct (decide (y = v)) as [->|Hyv].
    + rewrite bool_decide_eq_true_2 by reflexivity; simpl. apply IH.
      exists x. destruct Hx as [->|Hx]; [congruence|auto].
    + destruct (decide (y = self)) as [->|Hys].
      * rewrite (bool_decide_eq_false_2 (self = v)) by done.
        rewrite bool_decide_eq_true_2 by done; simpl. apply IH.
        exists x. destruct Hx as [->|Hx]; [congruence|auto].
      * rewrite !bool_decide_eq_false_2 by done. simpl.
        destruct v; [congruence|reflexivity..].
Qed.

Lemma scan_empty_all_self phi ops :
  Forall (fun x => x = InstRef phi) ops ->
  trivial_phi_scan (InstRef phi) Empty ops = Some Empty.
Proof.
  intros Hall. induction Hall as [|x ops -> _ IH]; [reflexivity|]. simpl.
  rewrite bool_decide_eq_true_2 by reflexivity. exact IH.
Qed.

Lemma scan_empty_found self v ops :
  Forall (fun x => x <> Empty) ops -> v <> self -> v ∈ ops ->
  Forall (fun x => x = self \/ x = v) ops ->
  trivial_phi_scan self Empty ops = Some v.
Proof.
  intros Hne Hv Hin Hall. induction Hall as [|x ops Hx Hall IH].
  - by apply not_elem_of_nil in Hin.
  - apply Forall_cons in Hne as [Hxe Hne]. simpl; unfold Resolve.
    rewrite (bool_decide_eq_false_2 (x = Empty)) by done. simpl.
    destruct Hx as [->| ->].
    + rewrite bool_decide_eq_true_2 by reflexivity. apply IH; [done|].
      apply elem_of_cons in Hin as [->|Hin]; [congruence|done].
    + rewrite bool_decide_eq_false_2 by done. simpl.
      by apply scan_same_found.
Qed.

Lemma scan_empty_conflict self ops :
  Forall (fun x => x <> Empty) ops ->
  (exists x y, x ∈ ops /\ y ∈ ops /\ x <> self /\ y <> self /\ x <> y) ->
  trivial_phi_scan self Empty ops = None.
Proof.
  induction ops as [|z ops IH]; intros Hne (x & y & Hx & Hy & Hxs & Hys & Hxy).
  - by apply not_elem_of_nil in Hx.
  - apply Forall_cons in Hne as [Hze Hne]. simpl; unfold Resolve.
    rewrite (bool_decide_eq_false_2 (z = Empty)) by done. simpl.
    apply elem_of_cons in Hx, Hy.
    destruct (decide (z = self)) as [->|Hzs].
    + rewrite bool_decide_eq_true_2 by reflexivity. apply IH; [done|].
      exists x, y. destruct Hx as [->|Hx]; [congruence|]. destruct Hy as [->|Hy]; [congruence|].
      auto.
    + rewrite bool_decide_eq_false_2 by done. simpl.
      apply scan_same_conflict; [done|].
      destruct (decide (x = z)) as [->|Hxz].
      * exists y. destruct Hy as [->|Hy]; [congruence|auto].
      * exists x. destruct Hx as [->|Hx]; [congruence|auto].
Qed.

Lemma first_not_phi_split ir l :
  Forall (fun j => IsPhi ir j = true) (take (first_not_phi ir l) l) /\
  match drop (first_not_phi ir l) l with [] => True | j :: _ => IsPhi ir j = false end /\
  (first_not_phi ir l <= length l)%nat.
Proof.
  induction l as [|j l IH]; simpl.
  - split; [constructor|split; [exact I|lia]].
  - destruct (IsPhi ir j) eqn:Hj; simpl.
    + destruct IH as (H1 & H2 & H3). split; [by constructor|]. split; [exact H2|lia].
    + split; [constructor|split; [exact Hj|lia]].
Qed.

Lemma first_not_phi_arena ir ir' l :
  arena ir = arena ir' -> first_not_phi ir l = first_not_phi ir' l.
Proof.
  intros Ha. induction l as [|j l IH]; simpl; [done|].
  assert (IsPhi ir j = IsPhi ir' j) as -> by (unfold IsPhi; by rewrite Ha).
  by rewrite IH.
Qed.

Lemma block_of_set_instructions ir b l :
  block_of (set_instructions ir b l) b =
  {| instructions := l; imm_predecessors := imm_predecessors (block_of ir b);
     successors := successors (block_of ir b) |}.
Proof. unfold set_instructions. by rewrite block_of_set_block, decide_True. Qed.

Lemma set_instructions_twice ir b l l' :
  set_instructions (set_instructions ir b l) b l' = set_instructions ir b l'.
Proof.
  unfold set_instructions at 1. rewrite block_of_set_instructions.
  unfold set_instructions, set_block; simpl. by rewrite insert_insert_eq.
Qed.

Lemma take_drop_after {A} (l : list A) k x :
  (k <= length l)%nat ->
  take (S k) (take k l ++ x :: drop k l) = take k l ++ [x] /\
  drop (S k) (take k l ++ x :: drop k l) = drop k l.
Proof.
  intros Hk. assert (Hl : length (take k l) = k) by (apply length_take_le; lia).
  rewrite take_app, drop_app, Hl. replace (S k - k)%nat with 1%nat by lia.
  rewrite (take_ge (take k l)), (drop_ge (take k l)) by lia. done.
Qed.

(** C4: [TryRemoveTrivialPhi] on a phi without empty operands. If two
    distinct non-self operands exist, the phi is returned and the state is
    unchanged. If exactly one non-self value [v] occurs, the uses of the
    phi are replaced by [v] and [v] is returned. If every operand is a
    self-reference (or there is none), the phi is unlinked from its block,
    a fresh undef instruction is placed behind the leading phis and before
    the first non-phi instruction, the phi is put back right after the
    undef, the uses of the phi are replaced by the undef, and the undef is
    returned. *)
Theorem TryRemoveTrivialPhi_cases (s : St) (phi block : nat) (undef_opcode : Opcode.t) :
  Forall (fun x => x <> Empty) (phi_args (st_ir s) phi) ->
  ((exists x y, x ∈ phi_args (st_ir s) phi /\ y ∈ phi_args (st_ir s) phi /\
                x <> InstRef phi /\ y <> InstRef phi /\ x <> y) ->
     TryRemoveTrivialPhi s phi block undef_opcode = (s, InstRef phi)) /\
  (forall v, v <> InstRef phi -> v ∈ phi_args (st_ir s) phi ->
     Forall (fun x => x = InstRef phi \/ x = v) (phi_args (st_ir s) phi) ->
     TryRemoveTrivialPhi s phi block undef_opcode =
       (with_ir s (ReplaceUsesWith (st_ir s) phi v), v)) /\
  (Forall (fun x => x = InstRef phi) (phi_args (st_ir s) phi) ->
     exists pre post,
       list_erase phi (instructions (block_of (st_ir s) block)) = pre ++ post /\
       Forall (fun j => IsPhi (st_ir s) j = true) pre /\
       match post with [] => True | j :: _ => IsPhi (st_ir s) j = false end /\
       TryRemoveTrivialPhi s phi block undef_opcode =
         (with_ir s (ReplaceUsesWith
            (set_instructions
               {| arena := <[next_id (st_ir s) := {| op := undef_opcode; flags := NoFlags;
                                                    args := []; phi_blocks := [] |}]>
                             (arena (st_ir s));
                  blocks := blocks (st_ir s); next_id := S (next_id (st_ir s)) |}
               block (pre ++ next_id (st_ir s) :: phi :: post))
            phi (InstRef (next_id (st_ir s)))),
          InstRef (next_id (st_ir s)))).
Proof.
  intros Hne. split; [|split].
  - intros Hconf. unfold TryRemoveTrivialPhi.
    by rewrite scan_empty_conflict.
  - intros v Hv Hin Hall. unfold TryRemoveTrivialPhi.
    rewrite (scan_empty_found _ v) by done.
    destruct v; [|reflexivity..].
    exfalso. by apply Forall_forall with (x := Empty) in Hne.
  - intros Hall.
    set (l0 := list_erase phi (instructions (block_of (st_ir s) block))).
    set (k := first_not_phi (st_ir s) l0).
    destruct (first_not_phi_split (st_ir s) l0) as (H1 & H2 & H3).
    exists (take k l0), (drop k l0).
    split; [by rewrite take_drop|]. split; [exact H1|]. split; [exact H2|].
    unfold TryRemoveTrivialPhi. rewrite scan_empty_all_self by done.
    cbn [IsEmpty].
    rewrite (first_not_phi_arena _ (st_ir s)) by reflexivity. fold l0. fold k.
    unfold PrependNewInst. cbn [fst snd].
    change ({| arena := ?A; blocks := blocks (set_instructions (st_ir s) block l0); next_id := ?N |})
      with (set_instructions {| arena := A; blocks := blocks (st_ir s); next_id := N |} block l0).
    rewrite !block_of_set_instructions. cbn [instructions].
    rewrite set_instructions_twice.
    destruct (take_drop_after l0 k (next_id (set_instructions (st_ir s) block l0)) H3) as [-> ->].
    rewrite set_instructions_twice, <- app_assoc. reflexivity.
Qed.

Lemma TryRemoveTrivialPhi_cases_witness :
  Forall (fun x => x <> Empty) (phi_args (st_ir phi_state) 0) /\
  TryRemoveTrivialPhi phi_state 0 0 Opcode.UndefU32 =
    (with_ir phi_state (ReplaceUsesWith (st_ir phi_state) 0 (Imm IRType.U32 5)),
     Imm IRType.U32 5).
Proof.
  assert (Hne : Forall (fun x => x <> Empty) (phi_args (st_ir phi_state) 0))
    by (apply (bool_decide_unpack _); vm_compute; reflexivity).
  split; [exact Hne|].
  apply (TryRemoveTrivialPhi_cases phi_state 0 0 Opcode.UndefU32 Hne);
    [discriminate | apply (bool_decide_unpack _); vm_compute; reflexivity
    | apply (bool_decide_unpack _); vm_compute; reflexivity].
Defined.

(** ** The stack machine of [ReadVariable] *)

Section ReadLoop.
Variable var : Variant.

Lemma read_loop_S d n s st :
  read_loop var d (S n) s st =
    let '(s', st') := read_body var s st in
    if Nat.leb (length st') d then Some (s', st', n) else read_loop var d n s' st'.
Proof. reflexivity. Qed.

Lemma read_body_frame s A rest :
  (2 <= length A)%nat ->
  read_body var s (A ++ rest) = ((read_body var s A).1, (read_body var s A).2 ++ rest).
Proof.
  intros HA. destruct A as [|top [|next A]]; simpl in HA; [lia|lia|].
  cbn [app]. unfold read_body.
  destruct (read_step var s top) as [s' [r|t e]]; reflexivity.
Qed.

Lemma read_loop_frame n s A rest :
  (2 <= length A)%nat ->
  read_loop var (S (length rest)) n s (A ++ rest) =
  option_map (fun '(s', st, k) => (s', st ++ rest, k)) (read_loop var 1 n s A).
Proof.
  revert s A. induction n as [|n IH]; intros s A HA; [reflexivity|].
  rewrite !read_loop_S, read_body_frame by done.
  destruct (read_body var s A) as [s' A'] eqn:Hb. cbn [fst snd].
  rewrite length_app.
  destruct (Nat.leb (length A') 1) eqn:Hl.
  - apply Nat.leb_le in Hl. rewrite (proj2 (Nat.leb_le _ _)) by lia. reflexivity.
  - apply Nat.leb_gt in Hl. rewrite (proj2 (Nat.leb_gt _ _)) by lia. apply IH. lia.
Qed.

Lemma read_body_bottom s l :
  (1 <= length l)%nat ->
  exists s', (exists l', l' <> [] /\ forall b, read_body var s (l ++ [b]) = (s', l' ++ [b])) \/
             (exists r, forall b, read_body var s (l ++ [b]) = (s', [set_result b r])).
Proof.
  intros Hl. destruct l as [|top [|next l]]; [simpl in Hl; lia| |].
  - destruct (read_step var s top) as [s' [r|t e]] eqn:Hs; exists s'.
    + right. exists r. intros b. unfold read_body; cbn [app]. rewrite Hs. reflexivity.
    + left. exists [e; t]. split; [discriminate|].
      intros b. unfold read_body; cbn [app]. rewrite Hs. reflexivity.
  - destruct (read_step var s top) as [s' [r|t e]] eqn:Hs; exists s'; left.
    + exists (set_result next r :: l). split; [discriminate|].
      intros b. unfold read_body; cbn [app]. rewrite Hs. reflexivity.
    + exists (e :: t :: next :: l). split; [discriminate|].
      intros b. unfold read_body; cbn [app]. rewrite Hs. reflexivity.
Qed.

Lemma read_loop_bottom n s l :
  (1 <= length l)%nat ->
  (forall b, read_loop var 1 n s (l ++ [b]) = None) \/
  exists s' r k, forall b, read_loop var 1 n s (l ++ [b]) = Some (s', [set_result b r], k).
Proof.
  revert s l. induction n as [|n IH]; intros s l Hl; [left; reflexivity|].
  destruct (read_body_bottom s l Hl) as (s' & [(l' & Hne & Hb)|(r & Hb)]).
  - assert (Hl' : (1 <= length l')%nat) by (destruct l'; [congruence|simpl; lia]).
    assert (Hleb : forall b, Nat.leb (length (l' ++ [b])) 1 = false)
      by (intros b; apply Nat.leb_gt; rewrite length_app; simpl; lia).
    destruct (IH s' l' Hl') as [HN|(s2 & r & k & HS)].
    + left. intros b. rewrite read_loop_S, Hb, Hleb. apply HN.
    + right. exists s2, r, k. intros b. rewrite read_loop_S, Hb, Hleb. apply HS.
  - right. exists s', r, n. intros b. rewrite read_loop_S, Hb. reflexivity.
Qed.

Lemma read_loop_seq d d' n s st s1 st1 k :
  (d' <= d)%nat -> read_loop var d n s st = Some (s1, st1, k) ->
  read_loop var d' n s st =
    if Nat.leb (length st1) d' then Some (s1, st1, k) else read_loop var d' k s1 st1.
Proof.
  intros Hd. revert s st. induction n as [|n IH]; intros s st H; [discriminate|].
  rewrite read_loop_S in *. destruct (read_body var s st) as [s' st'].
  destruct (Nat.leb (length st') d) eqn:Hl.
  - injection H as <- <- <-. reflexivity.
  - apply Nat.leb_gt in Hl. rewrite (proj2 (Nat.leb_gt _ _)) by lia. by apply IH.
Qed.

Lemma read_loop_seq_none d d' n s st :
  (d' <= d)%nat -> read_loop var d n s st = None -> read_loop var d' n s st = None.
Proof.
  intros Hd. revert s st. induction n as [|n IH]; intros s st H; [reflexivity|].
  rewrite read_loop_S in *. destruct (read_body var s st) as [s' st'].
  destruct (Nat.leb (length st') d) eqn:Hl; [discriminate|].
  apply Nat.leb_gt in Hl. rewrite (proj2 (Nat.leb_gt _ _)) by lia. by apply IH.
Qed.

Lemma read_loop_more_fuel d n s st s1 st1 k :
  read_loop var d n s st = Some (s1, st1, k) ->
  read_loop var d (S n) s st = Some (s1, st1, S k).
Proof.
  revert s st. induction n as [|n IH]; intros s st H; [discriminate|].
  rewrite read_loop_S in *. destruct (read_body var s st) as [s' st'].
  destruct (Nat.leb (length st') d).
  - by injection H as <- <- <-.
  - by apply IH.
Qed.

(** One predecessor: the first pass pushes the predecessor's entry. *)
Lemma read_loop_single_pred_start n s b p :
  is_sealed s b = true ->
  def_get (current_def (st_pass s)) var !! b = None ->
  imm_predecessors (block_of (st_ir s) b) = [p] ->
  read_loop var 1 (S n) s [new_read_state b; new_read_state 0] =
  read_loop var 1 n s ([new_read_state p] ++ [set_pc (new_read_state b) SetValue] ++
                       [new_read_state 0]).
Proof.
  intros Hs Hd Hp. rewrite read_loop_S. unfold read_body, read_step.
  cbn [rs_pc rs_block new_read_state]. rewrite Hd, Hs, Hp. reflexivity.
Qed.

Lemma read_loop_set_value_tail k s b r :
  read_loop var 1 (S k) s [set_result (set_pc (new_read_state b) SetValue) r; new_read_state 0] =
  Some (WriteVariable var b r s, [set_result (new_read_state 0) r], k).
Proof. reflexivity. Qed.

(** The run for [b] with [n] passes, from the run for [p]. *)
Lemma ReadVariable_single_pred_run n s b p :
  is_sealed s b = true ->
  def_get (current_def (st_pass s)) var !! b = None ->
  imm_predecessors (block_of (st_ir s) b) = [p] ->
  (forall bot, read_loop var 1 n s ([new_read_state p] ++ [bot]) = None) /\
    read_loop var 1 (S n) s [new_read_state b; new_read_state 0] = None \/
  exists s2 r k,
    (forall bot, read_loop var 1 n s ([new_read_state p] ++ [bot]) =
                 Some (s2, [set_result bot r], k)) /\
    read_loop var 1 (S n) s [new_read_state b; new_read_state 0] =
      match k with
      | O => None
      | S k' => Some (WriteVariable var b r s2, [set_result (new_read_state 0) r], k')
      end.
Proof.
  intros Hs Hd Hp. rewrite (read_loop_single_pred_start n s b p Hs Hd Hp).
  destruct (read_loop_bottom n s [new_read_state p]) as [HN|(s2 & r & k & HS)];
    [simpl; lia| |].
  - left. split; [exact HN|].
    apply (read_loop_seq_none 2); [lia|].
    rewrite app_assoc, (read_loop_frame n s _ [new_read_state 0]) by (simpl; lia).
    by rewrite HN.
  - right. exists s2, r, k. split; [exact HS|].
    rewrite (read_loop_seq 2 1 n s _ s2 [set_result (set_pc (new_read_state b) SetValue) r;
                                          new_read_state 0] k); [|lia|].
    + simpl Nat.leb. cbv iota. destruct k as [|k]; [reflexivity|].
      apply read_loop_set_value_tail.
    + rewrite app_assoc, (read_loop_frame n s _ [new_read_state 0]) by (simpl; lia).
      by rewrite HS.
Qed.
End ReadLoop.

Lemma def_get_def_set_eq t v vm : def_get (def_set t v vm) v = vm.
Proof. destruct t, v; simpl; try reflexivity; unfold map_or_empty; simpl; by rewrite lookup_insert_eq. Qed.

(** C3: reading [var] in a sealed block [b] without a definition of
    [var] and with the single predecessor [p]. Whenever the read of [b]
    succeeds, it returns what the read of [p] (with the same fuel) returns,
    its state is the state of that read with only [current_def[var][b]]
    set, so no phi is created for [b], and [current_def[var][b]] holds the
    returned value. Conversely, a read of [p] that succeeds makes the read
    of [b] succeed with two more passes, with that value. *)
Theorem ReadVariable_single_predecessor (var : Variant) (s : St) (b p : nat) :
  is_sealed s b = true ->
  def_get (current_def (st_pass s)) var !! b = None ->
  imm_predecessors (block_of (st_ir s) b) = [p] ->
  (forall n v s', ReadVariable var n b s = Some (v, s') ->
     (exists s'', ReadVariable var n p s = Some (v, s'') /\ s' = WriteVariable var b v s'') /\
     def_get (current_def (st_pass s')) var !! b = Some v) /\
  (forall n v s'', ReadVariable var n p s = Some (v, s'') ->
     ReadVariable var (S (S n)) b s = Some (v, WriteVariable var b v s'')).
Proof.
  intros Hs Hd Hp. split.
  - intros n v s' H. destruct n as [|n]; [discriminate|].
    unfold ReadVariable in H.
    destruct (ReadVariable_single_pred_run var n s b p Hs Hd Hp) as [[_ HN]|(s2 & r & k & HS & Hb)].
    { by rewrite HN in H. }
    rewrite Hb in H. destruct k as [|k]; [discriminate|].
    injection H as <- <-. split.
    + exists s2. split; [|reflexivity].
      pose proof (read_loop_more_fuel var 1 n s _ _ _ _ (HS (new_read_state 0))) as H1.
      simpl app in H1. unfold ReadVariable. by rewrite H1.
    + unfold WriteVariable, with_pass. cbn [st_pass current_def].
      by rewrite def_get_def_set_eq, lookup_insert_eq.
  - intros n v s'' H.
    destruct (ReadVariable_single_pred_run var (S n) s b p Hs Hd Hp) as [[HN _]|(s2 & r & k & HS & Hb)].
    + unfold ReadVariable in H.
      destruct (read_loop_bottom var n s [new_read_state p]) as [HN'|(s3 & r3 & k3 & HS3)];
        [simpl; lia| |].
      * simpl app in HN'. by rewrite HN' in H.
      * specialize (HN (new_read_state 0)).
        by rewrite (read_loop_more_fuel var 1 n s _ _ _ _ (HS3 (new_read_state 0))) in HN.
    + unfold ReadVariable. rewrite Hb.
      unfold ReadVariable in H.
      destruct (read_loop_bottom var n s [new_read_state p]) as [HN'|(s3 & r3 & k3 & HS3)];
        [simpl; lia| |].
      * simpl app in HN'. by rewrite HN' in H.
      * pose proof (HS3 (new_read_state 0)) as H3. simpl app in H3.
        rewrite H3 in H. injection H as <- <-.
        pose proof (read_loop_more_fuel var 1 n s _ _ _ _ (HS3 (new_read_state 0))) as H1.
        rewrite HS in H1. injection H1 as -> Hr ->.
        simpl in Hr. by subst.
Qed.

Lemma ReadVariable_single_predecessor_witness :
  is_sealed single_pred_state 1 = true /\
  def_get (current_def (st_pass single_pred_state)) (VarReg 3) !! 1%nat = None /\
  imm_predecessors (block_of (st_ir single_pred_state) 1) = [0%nat] /\
  ReadVariable (VarReg 3) 3 1 single_pred_state =
    Some (Imm IRType.U32 7, WriteVariable (VarReg 3) 1 (Imm IRType.U32 7)
                              (WriteVariable (VarReg 3) 0 (Imm IRType.U32 7) single_pred_state)).
Proof.
  split; [reflexivity|]. split; [reflexivity|]. split; [reflexivity|].
  apply (ReadVariable_single_predecessor (VarReg 3) single_pred_state 1 0);
    [reflexivity | reflexivity | reflexivity | reflexivity].
Defined.

(** ** C9: on a cycle of single-predecessor blocks the read never ends *)

Lemma ReadVariable_unsealed var n s b :
  is_sealed s b = false ->
  def_get (current_def (st_pass s)) var !! b = None ->
  ReadVariable var (S n) b s =
    Some (InstRef (next_id (st_ir s)),
          WriteVariable var b (InstRef (next_id (st_ir s)))
            (add_incomplete_phi b var (next_id (st_ir s))
               (with_ir s (PrependNewInst (st_ir s) b 0 Opcode.Phi NoFlags []).1))).
Proof.
  intros Hs Hd. unfold ReadVariable. rewrite read_loop_S. unfold read_body, read_step.
  cbn [rs_pc rs_block new_read_state]. rewrite Hd, Hs. reflexivity.
Qed.

Section Cycle.
Variables (var : Variant) (s : St) (a b : nat).
Hypotheses (Hsa : is_sealed s a = true) (Hsb : is_sealed s b = true)
           (Hda : def_get (current_def (st_pass s)) var !! a = None)
           (Hdb : def_get (current_def (st_pass s)) var !! b = None)
           (Hpa : imm_predecessors (block_of (st_ir s) a) = [b])
           (Hpb : imm_predecessors (block_of (st_ir s) b) = [a]).

Lemma read_step_cycle x y :
  is_sealed s x = true -> def_get (current_def (st_pass s)) var !! x = None ->
  imm_predecessors (block_of (st_ir s) x) = [y] ->
  read_step var s (new_read_state x) =
    (s, PushOn (set_pc (new_read_state x) SetValue) (new_read_state y)).
Proof.
  intros Hs Hd Hp. unfold read_step. cbn [rs_pc rs_block new_read_state].
  rewrite Hd, Hs, Hp. reflexivity.
Qed.

Lemma read_loop_cycle n :
  forall rest, rest <> [] ->
  read_loop var 1 n s (new_read_state a :: rest) = None /\
  read_loop var 1 n s (new_read_state b :: rest) = None.
Proof.
  induction n as [|n IH]; intros rest Hr; [split; reflexivity|].
  destruct rest as [|next rest]; [congruence|].
  rewrite !read_loop_S. unfold read_body.
  rewrite (read_step_cycle a b), (read_step_cycle b a) by done.
  split; apply IH; discriminate.
Qed.

Lemma read_iter_cycle n :
  forall rest, rest <> [] ->
  (fst (read_iter var n s (new_read_state a :: rest)) = s /\
   length (snd (read_iter var n s (new_read_state a :: rest))) = n + 1 + length rest) /\
  (fst (read_iter var n s (new_read_state b :: rest)) = s /\
   length (snd (read_iter var n s (new_read_state b :: rest))) = n + 1 + length rest).
Proof.
  induction n as [|n IH]; intros rest Hr; [simpl; auto|].
  destruct rest as [|next rest]; [congruence|].
  cbn [read_iter]. unfold read_body.
  rewrite (read_step_cycle a b), (read_step_cycle b a) by done.
  destruct (IH (set_pc (new_read_state a) SetValue :: next :: rest)) as [_ Hb]; [discriminate|].
  destruct (IH (set_pc (new_read_state b) SetValue :: next :: rest)) as [Ha _]; [discriminate|].
  cbn [length] in *. split; split; lia || tauto.
Qed.

Lemma ReadVariable_cycle n : ReadVariable var n a s = None.
Proof.
  unfold ReadVariable. rewrite (proj1 (read_loop_cycle n [new_read_state 0] ltac:(discriminate))). reflexivity.
Qed.
End Cycle.

Lemma bindM_Ok {S A B} (m : M S A) (f : A -> M S B) s a s' :
  m s = Ok (a, s') -> bindM m f s = f a s'.
Proof. intros H. unfold bindM. by rewrite H. Qed.

Lemma bindM_OutOfFuel {S A B} (m : M S A) (f : A -> M S B) s :
  m s = OutOfFuel -> bindM m f s = OutOfFuel.
Proof. intros H. unfold bindM. by rewrite H. Qed.

Lemma VisitBlock_empty fuel b s :
  instructions (block_of (st_ir s) b) = [] -> incomplete_phis (st_pass s) !! b = None ->
  VisitBlock fuel b s = Ok (tt, mark_sealed b s).
Proof.
  intros Hi Hp. unfold VisitBlock. rewrite Hi. cbn [forM_].
  unfold bindM, retM, SealBlock. by rewrite Hp.
Qed.

Lemma VisitInst_GetRegister fuel block i s inst r :
  arena (st_ir s) !! i = Some inst -> op inst = Opcode.GetRegister -> Arg inst 0 = ImmReg r ->
  r <> RZ ->
  VisitInst fuel block i s =
    match ReadVariable (VarReg r) fuel block s with
    | Some (v, s') => Ok (tt, with_ir s' (ReplaceUsesWith (st_ir s') i v))
    | None => OutOfFuel
    end.
Proof.
  intros Hi Ho Ha Hr. unfold VisitInst. rewrite Hi, Ho, Ha.
  unfold bindM, value_reg, retM. rewrite decide_True by done.
  unfold read, replace_uses. by destruct (ReadVariable (VarReg r) fuel block s) as [[v s']|].
Qed.

Lemma SealBlock_one_pred_stuck fuel block s var phi p :
  incomplete_phis (st_pass s) !! block = Some [(var, phi)] ->
  imm_predecessors (block_of (st_ir s) block) = [p] ->
  ReadVariable var fuel p s = None ->
  SealBlock fuel block s = OutOfFuel.
Proof.
  intros Hi Hp Hr. unfold SealBlock, AddPhiOperands. rewrite Hi. cbn [forM_].
  unfold bindM. rewrite Hp. cbn [forM_]. unfold bindM. rewrite Hr. reflexivity.
Qed.




(** [loopy] has well-formed operands. *)
Lemma loopy_wf : arena_wf (arena (prog_ir loopy)).
Proof. apply (bool_decide_unpack _); vm_compute; reflexivity. Qed.

(** On [loopy] the pass runs out of fuel for every fuel. *)
Lemma SsaRewritePass_loopy_OutOfFuel n : SsaRewritePass n loopy = OutOfFuel.
Proof.
  destruct n as [|n]; [vm_compute; reflexivity|].
  unfold SsaRewritePass. cbn [loopy rev app post_order_blocks prog_ir forM_].
  erewrite bindM_Ok; [|apply VisitBlock_empty; vm_compute; reflexivity].
  erewrite bindM_Ok; [|apply VisitBlock_empty; vm_compute; reflexivity].
  rewrite bindM_OutOfFuel; [reflexivity|].
  unfold VisitBlock.
  match goal with |- context [instructions (block_of (st_ir ?s) 2)] =>
    replace (instructions (block_of (st_ir s) 2)) with [30%nat] by (vm_compute; reflexivity) end.
  cbn [forM_].
  erewrite bindM_Ok.
  2:{ erewrite bindM_Ok; [reflexivity|].
      rewrite (VisitInst_GetRegister _ _ _ _ (mkinst Opcode.GetRegister [ImmReg 1]) 1);
        [|vm_compute; reflexivity|reflexivity|reflexivity|unfold RZ; lia].
      rewrite ReadVariable_unsealed by (vm_compute; reflexivity). reflexivity. }
  apply (SealBlock_one_pred_stuck _ _ _ (VarReg 1) 100 1);
    [vm_compute; reflexivity|vm_compute; reflexivity|].
  apply (ReadVariable_cycle _ _ 1 0); vm_compute; reflexivity.
Qed.

(** ** Well-formed operands are preserved *)

Lemma inst_wf_fresh opc fl :
  (opc = Opcode.Phi \/ opc = Opcode.UndefU1 \/ opc = Opcode.UndefU32) ->
  inst_wf {| op := opc; flags := fl; args := []; phi_blocks := [] |} = true.
Proof. intros [->|[->| ->]]; reflexivity. Qed.

Lemma UndefOpcode_fresh var :
  UndefOpcode var = Opcode.Phi \/ UndefOpcode var = Opcode.UndefU1 \/ UndefOpcode var = Opcode.UndefU32.
Proof. destruct var; simpl; auto. Qed.

Lemma arena_wf_insert a k inst : arena_wf a -> inst_wf inst = true -> arena_wf (<[k := inst]> a).
Proof.
  intros Ha Hi j x Hj. destruct (decide (k = j)) as [<-|Hne].
  - rewrite lookup_insert_eq in Hj. by injection Hj as <-.
  - rewrite lookup_insert_ne in Hj by done. by apply (Ha j).
Qed.

Lemma arena_wf_PrependNewInst ir b pos opc fl :
  arena_wf (arena ir) ->
  (opc = Opcode.Phi \/ opc = Opcode.UndefU1 \/ opc = Opcode.UndefU32) ->
  arena_wf (arena (PrependNewInst ir b pos opc fl []).1).
Proof.
  intros Ha Ho. rewrite arena_PrependNewInst. apply arena_wf_insert; [done|].
  by apply inst_wf_fresh.
Qed.

(** The first operand of an instruction whose operands are only extended
    or rewritten keeps its non-empty value. *)
Lemma inst_wf_first_arg inst inst' :
  op inst' = op inst ->
  (forall v, Arg inst 0 = v -> v <> Empty -> (forall t, v <> InstRef t) -> Arg inst' 0 = v) ->
  inst_wf inst = true -> inst_wf inst' = true.
Proof.
  intros Ho Ha Hw. unfold inst_wf in *. rewrite Ho.
  destruct (op inst); try reflexivity;
    destruct (Arg inst 0) as [| | | | |ty z] eqn:Ha0; try discriminate Hw;
    rewrite (Ha _ eq_refl) by (discriminate || (intros t; discriminate)); exact Hw.
Qed.

Lemma arena_wf_AddPhiOperand ir phi p v :
  arena_wf (arena ir) -> arena_wf (arena (AddPhiOperand ir phi p v)).
Proof.
  intros Ha j x Hj. unfold AddPhiOperand in Hj; cbn [arena] in Hj.
  destruct (decide (phi = j)) as [<-|Hne].
  - rewrite lookup_alter_eq in Hj. destruct (arena ir !! phi) as [inst|] eqn:Hi; [|discriminate].
    injection Hj as <-. apply (inst_wf_first_arg inst); [reflexivity| |by apply (Ha phi)].
    intros w Hw Hne _. unfold Arg in *; cbn [args].
    destruct (args inst) as [|y l]; [simpl in Hw; congruence|]. exact Hw.
  - rewrite lookup_alter_ne in Hj by done. by apply (Ha j).
Qed.

Lemma arena_wf_ReplaceUsesWith ir t v :
  arena_wf (arena ir) -> arena_wf (arena (ReplaceUsesWith ir t v)).
Proof.
  intros Ha j x Hj. rewrite lookup_ReplaceUsesWith in Hj.
  destruct (arena ir !! j) as [inst|] eqn:Hi; [|discriminate].
  injection Hj as <-. apply (inst_wf_first_arg inst); [reflexivity| |by apply (Ha j)].
  intros w Hw Hne Hni. unfold Arg, subst_inst in *; cbn [args].
  destruct (args inst) as [|y l]; [simpl in Hw; congruence|]. simpl in *. subst y.
  unfold subst_value. by rewrite decide_False by apply Hni.
Qed.

Lemma state_wf_with_ir s ir : state_wf (with_ir s ir) <-> arena_wf (arena ir).
Proof. reflexivity. Qed.

Lemma state_wf_WriteVariable var b v s : state_wf (WriteVariable var b v s) <-> state_wf s.
Proof. reflexivity. Qed.

Lemma state_wf_add_incomplete_phi b var phi s : state_wf (add_incomplete_phi b var phi s) <-> state_wf s.
Proof. reflexivity. Qed.

Lemma state_wf_mark_sealed b s : state_wf (mark_sealed b s) <-> state_wf s.
Proof. reflexivity. Qed.

Lemma arena_wf_set_instructions ir b l : arena_wf (arena (set_instructions ir b l)) <-> arena_wf (arena ir).
Proof. reflexivity. Qed.

Lemma state_wf_PrependNewInst s b pos opc fl :
  state_wf s -> (opc = Opcode.Phi \/ opc = Opcode.UndefU1 \/ opc = Opcode.UndefU32) ->
  arena_wf (arena (PrependNewInst (st_ir s) b pos opc fl []).1).
Proof. intros Hs Ho. by apply arena_wf_PrependNewInst. Qed.

Lemma state_wf_TryRemoveTrivialPhi s phi block var :
  state_wf s -> state_wf (TryRemoveTrivialPhi s phi block (UndefOpcode var)).1.
Proof.
  intros Hs. unfold TryRemoveTrivialPhi.
  destruct (trivial_phi_scan (InstRef phi) Empty (phi_args (st_ir s) phi)) as [same|]; [|exact Hs].
  destruct (IsEmpty same).
  - match goal with |- context [PrependNewInst ?ir ?b ?k ?o ?f ?a] =>
      pose proof (arena_wf_PrependNewInst ir b k o f Hs (UndefOpcode_fresh var)) as Hp;
      destruct (PrependNewInst ir b k o f a) as [ir' undef] end.
    cbn [fst]. apply state_wf_with_ir, arena_wf_ReplaceUsesWith. exact Hp.
  - cbn [fst]. apply state_wf_with_ir, arena_wf_ReplaceUsesWith. exact Hs.
Qed.

Section ReadWf.
Variable var : Variant.

Lemma state_wf_prepare_phi_operand s top :
  state_wf s -> state_wf (prepare_phi_operand var s top).1.
Proof.
  intros Hs. unfold prepare_phi_operand. destruct (rs_preds top); [|exact Hs].
  pose proof (state_wf_TryRemoveTrivialPhi s (rs_phi top) (rs_block top) var Hs) as H.
  destruct (TryRemoveTrivialPhi s (rs_phi top) (rs_block top) (UndefOpcode var)). exact H.
Qed.

Lemma state_wf_read_step s top : state_wf s -> state_wf (read_step var s top).1.
Proof.
  intros Hs. unfold read_step. destruct (rs_pc top).
  - destruct (def_get (current_def (st_pass s)) var !! rs_block top); [exact Hs|].
    destruct (negb (is_sealed s (rs_block top))).
    + pose proof (state_wf_PrependNewInst s (rs_block top) 0 Opcode.Phi NoFlags Hs
                    ltac:(left; reflexivity)) as Hp.
      destruct (PrependNewInst (st_ir s) (rs_block top) 0 Opcode.Phi NoFlags []). exact Hp.
    + pose proof (state_wf_PrependNewInst s (rs_block top) 0 Opcode.Phi NoFlags Hs
                    ltac:(left; reflexivity)) as Hp.
      destruct (imm_predecessors (block_of (st_ir s) (rs_block top))) as [|p [|q l]];
        [| exact Hs |];
        destruct (PrependNewInst (st_ir s) (rs_block top) 0 Opcode.Phi NoFlags []);
        apply state_wf_prepare_phi_operand; exact Hp.
  - exact Hs.
  - apply state_wf_prepare_phi_operand, Hs.
  - destruct (rs_preds top); apply state_wf_prepare_phi_operand; [exact Hs|].
    apply state_wf_with_ir, arena_wf_AddPhiOperand, Hs.
Qed.

Lemma state_wf_read_body s st : state_wf s -> state_wf (read_body var s st).1.
Proof.
  intros Hs. unfold read_body. destruct st as [|top [|next rest]]; [exact Hs|exact Hs|].
  pose proof (state_wf_read_step s top Hs) as H.
  destruct (read_step var s top) as [s' [r|t e]]; exact H.
Qed.

Lemma state_wf_read_loop d n s st s' st' k :
  state_wf s -> read_loop var d n s st = Some (s', st', k) -> state_wf s'.
Proof.
  revert s st. induction n as [|n IH]; intros s st Hs H; [discriminate|].
  rewrite read_loop_S in H. pose proof (state_wf_read_body s st Hs) as Hb.
  destruct (read_body var s st) as [s1 st1].
  destruct (Nat.leb (length st1) d); [by injection H as <- _ _|].
  exact (IH s1 st1 Hb H).
Qed.

Lemma state_wf_ReadVariable n b s v s' :
  state_wf s -> ReadVariable var n b s = Some (v, s') -> state_wf s'.
Proof.
  intros Hs H. unfold ReadVariable in H.
  destruct (read_loop var 1 n s [new_read_state b; new_read_state 0])
    as [[[s1 [|top st1]] k]|] eqn:Hl; try discriminate.
  injection H as _ <-. exact (state_wf_read_loop _ _ _ _ _ _ _ Hs Hl).
Qed.
End ReadWf.

(** ** No step of the pass throws on well-formed operands *)

Lemma never_throws_retM {A} (a : A) : never_throws (retM a).
Proof. intros s Hs. exact Hs. Qed.

Lemma never_throws_bindM {A B} (m : M St A) (f : A -> M St B) :
  never_throws m -> (forall a, never_throws (f a)) -> never_throws (bindM m f).
Proof.
  intros Hm Hf s Hs. unfold bindM. specialize (Hm s Hs).
  destruct (m s) as [[a s']| |]; [exact (Hf a s' Hm)|contradiction|exact I].
Qed.

Lemma never_throws_forM_ {A} (l : list A) (f : A -> M St unit) :
  (forall x, never_throws (f x)) -> never_throws (forM_ l f).
Proof.
  intros Hf. induction l as [|x l IH]; cbn [forM_].
  - apply never_throws_retM.
  - apply never_throws_bindM; [apply Hf|intros _; exact IH].
Qed.

Lemma never_throws_read fuel var block : never_throws (read fuel var block).
Proof.
  intros s Hs. unfold read.
  destruct (ReadVariable var fuel block s) as [[v s']|] eqn:H; [|exact I].
  exact (state_wf_ReadVariable _ _ _ _ _ _ Hs H).
Qed.

Lemma never_throws_write var block v : never_throws (write var block v).
Proof. intros s Hs. exact Hs. Qed.

Lemma never_throws_replace_uses i v : never_throws (replace_uses i v).
Proof. intros s Hs. apply state_wf_with_ir, arena_wf_ReplaceUsesWith, Hs. Qed.

Lemma never_throws_AddPhiOperands var fuel phi block : never_throws (AddPhiOperands var fuel phi block).
Proof.
  intros s Hs. unfold AddPhiOperands.
  apply never_throws_bindM; [|intros _ s3 Hs3; cbn;
    pose proof (state_wf_TryRemoveTrivialPhi s3 phi block var Hs3) as H;
    destruct (TryRemoveTrivialPhi s3 phi block (UndefOpcode var)); exact H|exact Hs].
  apply never_throws_forM_. intros p s1 Hs1.
  destruct (ReadVariable var fuel p s1) as [[v s2]|] eqn:H; [|exact I].
  apply state_wf_with_ir, arena_wf_AddPhiOperand.
  exact (state_wf_ReadVariable _ _ _ _ _ _ Hs1 H).
Qed.

Lemma never_throws_SealBlock fuel block : never_throws (SealBlock fuel block).
Proof.
  intros s Hs. unfold SealBlock.
  apply never_throws_bindM; [|intros _ s' Hs'; exact Hs'|exact Hs].
  destruct (incomplete_phis (st_pass s) !! block) as [m|]; [|apply never_throws_retM].
  apply never_throws_forM_. intros [var phi].
  apply never_throws_bindM; [apply never_throws_AddPhiOperands|intros _; apply never_throws_retM].
Qed.

Lemma never_throws_VisitInst fuel block i : never_throws (VisitInst fuel block i).
Proof.
  intros s Hs. unfold VisitInst.
  destruct (arena (st_ir s) !! i) as [inst|] eqn:Hi; [|exact Hs].
  pose proof (Hs i inst Hi) as Hw. cbn beta in Hw. unfold inst_wf in Hw.
  revert Hs. generalize s. clear Hi.
  destruct (op inst); try (intros s0 Hs0; exact Hs0);
    try (apply never_throws_write);
    try (apply never_throws_bindM; [apply never_throws_read|intros; apply never_throws_replace_uses]);
    destruct (Arg inst 0) as [| | | | |ty z]; try discriminate Hw;
    try (destruct ty; try discriminate Hw);
    cbn [value_reg value_pred value_u32];
    (apply never_throws_bindM; [apply never_throws_retM|intros y]);
    repeat case_decide;
    first [ apply never_throws_write | apply never_throws_retM
          | apply never_throws_bindM; [apply never_throws_read|intros; apply never_throws_replace_uses] ].
Qed.

Lemma never_throws_VisitBlock fuel block : never_throws (VisitBlock fuel block).
Proof.
  intros s Hs. unfold VisitBlock.
  apply never_throws_bindM; [apply never_throws_forM_; intros i; apply never_throws_VisitInst
                            |intros _; apply never_throws_SealBlock|exact Hs].
Qed.

(** On a program whose [Set]/[Get] instructions carry operands of the
    right kind, [SsaRewritePass] raises none of the emitter's exceptions,
    whatever the fuel. *)
Theorem SsaRewritePass_never_throws (fuel : nat) (program : Program) :
  arena_wf (arena (prog_ir program)) ->
  forall e, SsaRewritePass fuel program <> Throw e.
Proof.
  intros Hw e. unfold SsaRewritePass.
  pose proof (never_throws_forM_ (rev (post_order_blocks program)) (VisitBlock fuel)
                (never_throws_VisitBlock fuel)
                {| st_ir := prog_ir program; st_pass := empty_pass |} Hw) as H.
  destruct (forM_ (rev (post_order_blocks program)) (VisitBlock fuel)
              {| st_ir := prog_ir program; st_pass := empty_pass |}) as [[_ s]| |];
    [discriminate|contradiction|discriminate].
Qed.

(** C9 (code bug). The pass does not always complete. [loopy] has
    well-formed instructions, but its entry block 0 heads a cycle of
    sealed single-predecessor blocks (0 has only 1, 1 has only 0). The
    pass never completes, whatever the fuel. It gets stuck when it seals
    block 2: the read of R1 from block 1 takes the single-predecessor
    shortcut to 0, then to 1, and so on. It never reaches the Undef of the
    start block or a cycle-breaking phi. Each pass of the loop body leaves
    the state as it was and pushes one more ReadState, so after k passes
    the stack holds k + 2 entries. *)
Theorem SsaRewritePass_loopy_unbounded :
  arena_wf (arena (prog_ir loopy)) /\
  (forall n, SsaRewritePass n loopy = OutOfFuel) /\
  (forall n, SealBlock n 2 loopy_seal_state = OutOfFuel) /\
  (forall k,
     fst (read_iter (VarReg 1) k loopy_seal_state [new_read_state 1; new_read_state 0])
       = loopy_seal_state /\
     length (snd (read_iter (VarReg 1) k loopy_seal_state
                    [new_read_state 1; new_read_state 0])) = k + 2).
Proof.
  assert (Hs0 : is_sealed loopy_seal_state 0 = true) by (vm_compute; reflexivity).
  assert (Hs1 : is_sealed loopy_seal_state 1 = true) by (vm_compute; reflexivity).
  assert (Hd0 : def_get (current_def (st_pass loopy_seal_state)) (VarReg 1) !! 0%nat = None)
    by (vm_compute; reflexivity).
  assert (Hd1 : def_get (current_def (st_pass loopy_seal_state)) (VarReg 1) !! 1%nat = None)
    by (vm_compute; reflexivity).
  assert (Hp0 : imm_predecessors (block_of (st_ir loopy_seal_state) 0) = [1%nat])
    by (vm_compute; reflexivity).
  assert (Hp1 : imm_predecessors (block_of (st_ir loopy_seal_state) 1) = [0%nat])
    by (vm_compute; reflexivity).
  split; [apply loopy_wf|]. split; [apply SsaRewritePass_loopy_OutOfFuel|]. split.
  - intros n. apply (SealBlock_one_pred_stuck _ _ _ (VarReg 1) 100 1);
      [vm_compute; reflexivity|vm_compute; reflexivity|].
    by apply (ReadVariable_cycle _ _ 1 0).
  - intros k.
    destruct (read_iter_cycle (VarReg 1) loopy_seal_state 1 0 Hs1 Hs0 Hd1 Hd0 Hp1 Hp0 k
                [new_read_state 0] ltac:(discriminate)) as [[Hf Hl] _].
    split; [exact Hf|]. rewrite Hl. simpl. lia.
Qed.

(** ** Reachable reads are replaced *)

(** C5, counterexample: [GetRegister RZ] is a reachable [Get] that the
    pass leaves in place, with its use, in a run that completes. *)
Lemma rz_sink_counterexample :
  (0%nat ∈ visit_order rz_sink) /\
  match SsaRewritePass 10 rz_sink with
  | Ok st => option_map op (arena (st_ir st) !! 0%nat) = Some Opcode.GetRegister /\
             has_uses (st_ir st) 0
  | _ => False
  end.
Proof.
  split; [apply (bool_decide_unpack _); vm_compute; reflexivity|].
  vm_compute. split; [reflexivity|].
  exists 1%nat. eexists. split; [reflexivity|]. apply elem_of_cons. by left.
Qed.

Lemma subst_value_ref isG t v w g :
  clean isG v -> isG g = true -> subst_value t v w = InstRef g -> w = InstRef g.
Proof. intros Hv Hg. unfold subst_value. case_decide; [intros ->; by destruct (Hv g Hg)|done]. Qed.

Lemma is_ssa_read_subst t v i :
  is_ssa_read i = true -> is_ssa_read (subst_inst t v i) = true.
Proof.
  unfold is_ssa_read, Arg, subst_inst; cbn [op args].
  destruct (op i); try discriminate; try reflexivity;
    destruct (args i) as [|a l]; simpl; try discriminate;
    unfold subst_value; case_decide; subst; try discriminate; done.
Qed.

Lemma is_ssa_read_append i v p :
  is_ssa_read i = true ->
  is_ssa_read {| op := op i; flags := flags i; args := args i ++ [v];
                 phi_blocks := phi_blocks i ++ [p] |} = true.
Proof.
  unfold is_ssa_read, Arg; cbn [op args].
  destruct (op i); try discriminate; try reflexivity;
    destruct (args i) as [|a l]; simpl; try discriminate; done.
Qed.

Lemma ReplaceUsesWith_no_uses ir t v : v <> InstRef t -> ~ has_uses (ReplaceUsesWith ir t v) t.
Proof.
  intros Hv (u & i & Hi & Hin). rewrite lookup_ReplaceUsesWith in Hi.
  destruct (arena ir !! u) as [i'|]; [|discriminate]. injection Hi as <-.
  unfold subst_inst in Hin; cbn [args] in Hin.
  apply list_elem_of_In, in_map_iff in Hin as (w & Hw & _).
  unfold subst_value in Hw. case_decide; congruence.
Qed.

Lemma refs_ReplaceUsesWith isG ir t v u i g :
  clean isG v -> isG g = true ->
  arena (ReplaceUsesWith ir t v) !! u = Some i -> InstRef g ∈ args i ->
  exists i', arena ir !! u = Some i' /\ InstRef g ∈ args i'.
Proof.
  intros Hv Hg Hi Hin. rewrite lookup_ReplaceUsesWith in Hi.
  destruct (arena ir !! u) as [i'|]; [|discriminate]. injection Hi as <-.
  exists i'. split; [done|]. unfold subst_inst in Hin; cbn [args] in Hin.
  apply list_elem_of_In, in_map_iff in Hin as (w & Hw & Hin).
  apply (subst_value_ref isG t v w g Hv Hg) in Hw. subst w. by apply list_elem_of_In.
Qed.

Lemma refs_AddPhiOperand isG ir phi p v u i g :
  clean isG v -> isG g = true ->
  arena (AddPhiOperand ir phi p v) !! u = Some i -> InstRef g ∈ args i ->
  exists i', arena ir !! u = Some i' /\ InstRef g ∈ args i'.
Proof.
  intros Hv Hg Hi Hin. unfold AddPhiOperand in Hi; cbn [arena] in Hi.
  destruct (decide (phi = u)) as [<-|Hne].
  - rewrite lookup_alter_eq in Hi. destruct (arena ir !! phi) as [i'|]; [|discriminate].
    injection Hi as <-. exists i'. split; [done|]. cbn [args] in Hin.
    apply elem_of_app in Hin as [Hin|Hin]; [done|].
    apply list_elem_of_singleton in Hin. by destruct (Hv g Hg).
  - rewrite lookup_alter_ne in Hi by done. by exists i.
Qed.

Lemma filter_insert_fresh (P : nat -> Prop) `{!forall x, Decision (P x)} l k x :
  ~ P x -> filter P (take k l ++ x :: drop k l) = filter P l.
Proof.
  intros Hx. rewrite filter_app, filter_cons_False by done.
  by rewrite <- filter_app, take_drop.
Qed.

Lemma filter_list_erase (P : nat -> Prop) `{!forall x, Decision (P x)} l x :
  ~ P x -> filter P (list_erase x l) = filter P l.
Proof.
  intros Hx. induction l as [|y l IH]; simpl; [done|].
  case_decide as Hxy.
  - subst y. by rewrite filter_cons_False.
  - rewrite !filter_cons. by rewrite IH.
Qed.

Lemma def_get_def_set t v vm w :
  def_get (def_set t v vm) w = vm \/ def_get (def_set t v vm) w = def_get t w.
Proof.
  destruct t, v, w; simpl; auto; unfold map_or_empty; simpl;
    match goal with
    | |- context [<[?k := _]> _ !! ?k'] =>
        destruct (decide (k = k')) as [<-|Hne];
        [rewrite lookup_insert_eq; auto|rewrite lookup_insert_ne by done; auto]
    end.
Qed.

Section Replaced.
Variable program : Program.
Hypothesis Hids : ids_below_next (prog_ir program).

Local Abbreviation ir0 := (prog_ir program).
Local Abbreviation N0 := (next_id (prog_ir program)).
Local Abbreviation isG := (reachable_read program).
Local Abbreviation INV seen s := (ir_ok ir0 isG seen (st_ir s) /\ pass_ok ir0 isG (st_pass s)).

Lemma visit_order_lt g : g ∈ visit_order program -> g < N0.
Proof.
  unfold visit_order. rewrite list_elem_of_In, in_concat. intros (l & Hl & Hg).
  apply in_map_iff in Hl as (b & <- & _). unfold block_of in Hg.
  destruct (blocks ir0 !! b) as [blk|] eqn:Hb; [|simpl in Hg; contradiction].
  destruct Hids as [_ Hb']. specialize (Hb' b blk Hb). cbn beta in Hb'.
  rewrite List.Forall_forall in Hb'. by apply Hb'.
Qed.

Lemma read_lt g : isG g = true -> g < N0.
Proof.
  unfold reachable_read. intros H. apply andb_true_iff in H as [H _].
  apply bool_decide_eq_true_1 in H. by apply visit_order_lt.
Qed.

Lemma read_orig g : isG g = true -> exists i0, arena ir0 !! g = Some i0 /\ is_ssa_read i0 = true.
Proof.
  unfold reachable_read. intros H. apply andb_true_iff in H as [_ H].
  destruct (arena ir0 !! g) as [i0|]; [by exists i0|discriminate].
Qed.

Lemma orig_fresh u : N0 <= u -> arena ir0 !! u = None.
Proof.
  intros Hu. destruct (arena ir0 !! u) as [i0|] eqn:H; [|done].
  destruct Hids as [Ha _]. specialize (Ha u i0 H). simpl in Ha. lia.
Qed.

Lemma clean_fresh i : N0 <= i -> clean isG (InstRef i).
Proof. intros Hi g Hg [= <-]. apply read_lt in Hg. lia. Qed.

Lemma clean_Empty : clean isG Empty.
Proof. by intros g _. Qed.

Lemma fresh_args_clean seen ir u i v :
  ir_ok ir0 isG seen ir -> arena ir !! u = Some i -> N0 <= u -> v ∈ args i -> clean isG v.
Proof.
  intros Hok Hi Hu Hv g Hg ->. destruct (ok_refs _ _ _ _ Hok u i g Hi Hg Hv) as (i0 & H0 & _).
  by rewrite orig_fresh in H0.
Qed.

Lemma ir_ok_ReplaceUsesWith seen ir t v :
  ir_ok ir0 isG seen ir -> clean isG v -> ir_ok ir0 isG seen (ReplaceUsesWith ir t v).
Proof.
  intros [Hn Hr Hf Hp Hl] Hv. split.
  - exact Hn.
  - intros u i0 H0 Hs. destruct (Hr u i0 H0 Hs) as (i & Hi & Hsi).
    exists (subst_inst t v i). rewrite lookup_ReplaceUsesWith, Hi.
    split; [done|]. by apply is_ssa_read_subst.
  - intros u i g Hi Hg Hin.
    destruct (refs_ReplaceUsesWith isG ir t v u i g Hv Hg Hi Hin) as (i' & Hi' & Hin').
    exact (Hf u i' g Hi' Hg Hin').
  - intros g Hg Hs (u & i & Hi & Hin). apply (Hp g Hg Hs).
    destruct (refs_ReplaceUsesWith isG ir t v u i g Hv Hg Hi Hin) as (i' & Hi' & Hin').
    by exists u, i'.
  - exact Hl.
Qed.

Lemma ir_ok_AddPhiOperand seen ir phi p v :
  ir_ok ir0 isG seen ir -> clean isG v -> ir_ok ir0 isG seen (AddPhiOperand ir phi p v).
Proof.
  intros [Hn Hr Hf Hp Hl] Hv. split.
  - exact Hn.
  - intros u i0 H0 Hs. destruct (Hr u i0 H0 Hs) as (i & Hi & Hsi).
    unfold AddPhiOperand; cbn [arena]. destruct (decide (phi = u)) as [<-|Hne].
    + rewrite lookup_alter_eq, Hi. eexists; split; [reflexivity|]. by apply is_ssa_read_append.
    + rewrite lookup_alter_ne by done. by exists i.
  - intros u i g Hi Hg Hin.
    destruct (refs_AddPhiOperand isG ir phi p v u i g Hv Hg Hi Hin) as (i' & Hi' & Hin').
    exact (Hf u i' g Hi' Hg Hin').
  - intros g Hg Hs (u & i & Hi & Hin). apply (Hp g Hg Hs).
    destruct (refs_AddPhiOperand isG ir phi p v u i g Hv Hg Hi Hin) as (i' & Hi' & Hin').
    by exists u, i'.
  - exact Hl.
Qed.

Lemma ir_ok_set_instructions seen ir b l :
  ir_ok ir0 isG seen ir ->
  filter (fun i => i < N0) l = filter (fun i => i < N0) (instructions (block_of ir b)) ->
  ir_ok ir0 isG seen (set_instructions ir b l).
Proof.
  intros [Hn Hr Hf Hp Hl] Hb. split; try done.
  intros b'. unfold set_instructions. rewrite block_of_set_block.
  case_decide; subst; [|apply Hl]. cbn [instructions]. rewrite Hb. apply Hl.
Qed.

Lemma ir_ok_PrependNewInst seen ir b pos opc fl :
  ir_ok ir0 isG seen ir ->
  ir_ok ir0 isG seen (PrependNewInst ir b pos opc fl []).1 /\
  N0 <= (PrependNewInst ir b pos opc fl []).2.
Proof.
  intros Hok. pose proof Hok as [Hn Hr Hf Hp Hl]. split; [|exact Hn].
  unfold PrependNewInst. cbn [fst]. apply ir_ok_set_instructions.
  - split; cbn [next_id arena].
    + lia.
    + intros u i0 H0 Hs. destruct (Hr u i0 H0 Hs) as (i & Hi & Hsi).
      assert (u < N0) by (destruct Hids as [Ha _]; exact (Ha u i0 H0)).
      rewrite lookup_insert_ne by lia. by exists i.
    + intros u i g Hi Hg Hin. cbn [arena] in Hi. destruct (decide (next_id ir = u)) as [<-|Hne].
      * rewrite lookup_insert_eq in Hi. injection Hi as <-. cbn [args] in Hin.
        by apply not_elem_of_nil in Hin.
      * rewrite lookup_insert_ne in Hi by done. exact (Hf u i g Hi Hg Hin).
    + intros g Hg Hs (u & i & Hi & Hin). apply (Hp g Hg Hs). cbn [arena] in Hi.
      destruct (decide (next_id ir = u)) as [<-|Hne].
      * rewrite lookup_insert_eq in Hi. injection Hi as <-. cbn [args] in Hin.
        by apply not_elem_of_nil in Hin.
      * rewrite lookup_insert_ne in Hi by done. by exists u, i.
    + exact Hl.
  - unfold block_of; cbn [blocks]. fold (block_of ir b).
    apply filter_insert_fresh. lia.
Qed.

Lemma ir_ok_cons seen ir x :
  ir_ok ir0 isG seen ir -> (isG x = true -> ~ has_uses ir x) -> ir_ok ir0 isG (x :: seen) ir.
Proof.
  intros [Hn Hr Hf Hp Hl] Hx. split; try done.
  intros g Hg Hs. apply elem_of_cons in Hs as [->|Hs]; [by apply Hx|by apply Hp].
Qed.

Lemma ir_ok_weaken seen seen' ir :
  ir_ok ir0 isG seen ir -> (forall g, g ∈ seen' -> g ∈ seen) -> ir_ok ir0 isG seen' ir.
Proof. intros [Hn Hr Hf Hp Hl] Hs. split; try done. intros g Hg Hg'. apply Hp; auto. Qed.

Lemma pass_ok_WriteVariable var b v s :
  pass_ok ir0 isG (st_pass s) -> clean isG v -> pass_ok ir0 isG (st_pass (WriteVariable var b v s)).
Proof.
  intros [Hd Hp] Hv. split; [|exact Hp]. intros w b' v'.
  unfold WriteVariable, with_pass; cbn [st_pass current_def].
  destruct (def_get_def_set (current_def (st_pass s)) var
              (<[b:=v]> (def_get (current_def (st_pass s)) var)) w) as [->| ->]; [|apply Hd].
  destruct (decide (b = b')) as [<-|Hne].
  - rewrite lookup_insert_eq. by intros [= <-].
  - rewrite lookup_insert_ne by done. apply Hd.
Qed.

Lemma Forall_insert_or_assign (P : Variant * nat -> Prop) k x m :
  Forall P m -> P (k, x) -> Forall P (insert_or_assign k x m).
Proof.
  intros Hm Hx. induction Hm as [|[k' x'] m Hk Hm IH]; simpl; [by constructor|].
  case_decide; [by constructor|].
  destruct (variant_lt k k'); by repeat constructor.
Qed.

Lemma pass_ok_add_incomplete_phi b var phi s :
  pass_ok ir0 isG (st_pass s) -> N0 <= phi -> pass_ok ir0 isG (st_pass (add_incomplete_phi b var phi s)).
Proof.
  intros [Hd Hp] Hphi. split; [exact Hd|]. intros b' m.
  unfold add_incomplete_phi, with_pass; cbn [st_pass incomplete_phis].
  destruct (decide (b = b')) as [<-|Hne].
  - rewrite lookup_insert_eq. intros [= <-]. apply Forall_insert_or_assign; [|exact Hphi].
    destruct (incomplete_phis (st_pass s) !! b) as [m'|] eqn:Hm; [exact (Hp b m' Hm)|constructor].
  - rewrite lookup_insert_ne by done. apply Hp.
Qed.

Lemma pass_ok_mark_sealed b s :
  pass_ok ir0 isG (st_pass s) -> pass_ok ir0 isG (st_pass (mark_sealed b s)).
Proof. intros [Hd Hp]. split; [exact Hd|exact Hp]. Qed.

Lemma scan_in self same ops v :
  trivial_phi_scan self same ops = Some v -> v = same \/ v ∈ ops.
Proof.
  revert same. induction ops as [|o ops IH]; intros same; cbn [trivial_phi_scan].
  - intros [= <-]. by left.
  - destruct (bool_decide _ || bool_decide _).
    + intros H. destruct (IH same H) as [->|Hin]; [by left|right; by apply elem_of_cons; right].
    + destruct (negb (IsEmpty same)); [discriminate|].
      intros H. destruct (IH o H) as [->|Hin]; right; apply elem_of_cons; auto.
Qed.

Lemma INV_TryRemoveTrivialPhi seen s phi b u :
  INV seen s -> N0 <= phi ->
  INV seen (TryRemoveTrivialPhi s phi b u).1 /\ clean isG (TryRemoveTrivialPhi s phi b u).2.
Proof.
  intros [Hir Hp] Hphi. unfold TryRemoveTrivialPhi.
  destruct (trivial_phi_scan (InstRef phi) Empty (phi_args (st_ir s) phi)) as [same|] eqn:Hsc.
  2: { split; [split; done|by apply clean_fresh]. }
  assert (Hsame : clean isG same).
  { apply scan_in in Hsc as [->|Hin]; [apply clean_Empty|].
    unfold phi_args in Hin.
    destruct (arena (st_ir s) !! phi) as [i|] eqn:Hi; [|by apply not_elem_of_nil in Hin].
    exact (fresh_args_clean seen (st_ir s) phi i same Hir Hi Hphi Hin). }
  destruct (IsEmpty same).
  - match goal with |- context [PrependNewInst ?ir ?b ?k ?o ?f ?a] =>
      assert (H1 : ir_ok ir0 isG seen ir);
      [|destruct (ir_ok_PrependNewInst seen ir b k o f H1) as [H2 Hu];
        destruct (PrependNewInst ir b k o f a) as [ir' undef]] end.
    { apply ir_ok_set_instructions; [exact Hir|]. apply filter_list_erase. lia. }
    cbn [fst snd] in *. split; [split; [|exact Hp]|by apply clean_fresh].
    apply ir_ok_ReplaceUsesWith; [|by apply clean_fresh].
    apply ir_ok_set_instructions; [exact H2|].
    apply filter_insert_fresh. lia.
  - cbn [fst snd]. split; [split; [apply ir_ok_ReplaceUsesWith; done|exact Hp]|exact Hsame].
Qed.

Section ReadInv.
Variable var : Variant.

Lemma entry_ok_new b : entry_ok ir0 isG (new_read_state b).
Proof. split; [apply clean_Empty|simpl; intros [H|H]; discriminate]. Qed.

Lemma INV_prepare seen s top :
  INV seen s -> entry_ok ir0 isG top -> N0 <= rs_phi top ->
  INV seen (prepare_phi_operand var s top).1 /\ sop_ok ir0 isG (prepare_phi_operand var s top).2.
Proof.
  intros Hs Htop Hphi. unfold prepare_phi_operand. destruct (rs_preds top) as [|p rest].
  - pose proof (INV_TryRemoveTrivialPhi seen s (rs_phi top) (rs_block top) (UndefOpcode var) Hs Hphi)
      as [[H1 H2] H3].
    destruct (TryRemoveTrivialPhi s (rs_phi top) (rs_block top) (UndefOpcode var)) as [s' r].
    cbn [fst snd] in *. split; [split; [exact H1|by apply pass_ok_WriteVariable]|exact H3].
  - split; [exact Hs|]. split; [|apply entry_ok_new].
    split; [exact (proj1 Htop)|intros _; exact Hphi].
Qed.

Lemma INV_read_step seen s top :
  INV seen s -> entry_ok ir0 isG top ->
  INV seen (read_step var s top).1 /\ sop_ok ir0 isG (read_step var s top).2.
Proof.
  intros [Hir Hp] Htop. unfold read_step. destruct (rs_pc top) eqn:Hpc.
  - destruct (def_get (current_def (st_pass s)) var !! rs_block top) as [v|] eqn:Hd.
    + assert (Hv : clean isG v) by exact (ok_defs _ _ _ Hp _ _ _ Hd).
      unfold set_value; cbn [fst snd].
      split; [split; [exact Hir|by apply pass_ok_WriteVariable]|exact Hv].
    + destruct (negb (is_sealed s (rs_block top))).
      * destruct (ir_ok_PrependNewInst seen (st_ir s) (rs_block top) 0 Opcode.Phi NoFlags Hir)
          as [H1 Hphi].
        destruct (PrependNewInst (st_ir s) (rs_block top) 0 Opcode.Phi NoFlags []) as [ir' phi].
        cbn [fst snd] in *. unfold set_value; cbn [fst snd].
        split; [split|by apply clean_fresh].
        -- exact H1.
        -- apply pass_ok_WriteVariable; [|by apply clean_fresh].
           by apply pass_ok_add_incomplete_phi.
      * destruct (ir_ok_PrependNewInst seen (st_ir s) (rs_block top) 0 Opcode.Phi NoFlags Hir)
          as [H1 Hphi].
        destruct (imm_predecessors (block_of (st_ir s) (rs_block top))) as [|p [|q l]].
        2: { cbn [fst snd]. split; [split; done|]. split; [|apply entry_ok_new].
             split; [exact (proj1 Htop)|simpl; intros [H|H]; discriminate]. }
        all: destruct (PrependNewInst (st_ir s) (rs_block top) 0 Opcode.Phi NoFlags []) as [ir' phi];
          cbn [fst snd] in *; apply INV_prepare;
          [split; [exact H1|apply pass_ok_WriteVariable; [exact Hp|by apply clean_fresh]]
          |split; [exact (proj1 Htop)|intros _; exact Hphi]
          |exact Hphi].
  - cbn [fst snd]. split; [split; [exact Hir|apply pass_ok_WriteVariable; [exact Hp|exact (proj1 Htop)]]|].
    exact (proj1 Htop).
  - apply INV_prepare; [split; done|exact Htop|apply (proj2 Htop); by right].
  - destruct (rs_preds top) as [|p rest] eqn:Hpr.
    + apply INV_prepare; [split; done|exact Htop|apply (proj2 Htop); by left].
    + apply INV_prepare.
      * split; [apply ir_ok_AddPhiOperand; [exact Hir|exact (proj1 Htop)]|exact Hp].
      * split; [exact (proj1 Htop)|intros _; apply (proj2 Htop); by left].
      * apply (proj2 Htop). by left.
Qed.

Lemma INV_read_body seen s st :
  INV seen s -> Forall (entry_ok ir0 isG) st ->
  INV seen (read_body var s st).1 /\ Forall (entry_ok ir0 isG) (read_body var s st).2.
Proof.
  intros Hs Hst. unfold read_body. destruct st as [|top [|next rest]]; [done|done|].
  apply Forall_cons in Hst as [Htop Hst]. apply Forall_cons in Hst as [Hnext Hrest].
  pose proof (INV_read_step seen s top Hs Htop) as [Hs' Hsop].
  destruct (read_step var s top) as [s' [r|t e]]; cbn [fst snd] in *; split; try exact Hs'.
  - constructor; [|exact Hrest]. split; [exact Hsop|exact (proj2 Hnext)].
  - destruct Hsop as [Ht He]. constructor; [exact He|]. constructor; [exact Ht|].
    by constructor.
Qed.

Lemma INV_read_loop seen d n s st s' st' k :
  INV seen s -> Forall (entry_ok ir0 isG) st ->
  read_loop var d n s st = Some (s', st', k) -> INV seen s' /\ Forall (entry_ok ir0 isG) st'.
Proof.
  revert s st. induction n as [|n IH]; intros s st Hs Hst H; [discriminate|].
  cbn [read_loop] in H. pose proof (INV_read_body seen s st Hs Hst) as [H1 H2].
  destruct (read_body var s st) as [s1 st1]. cbn [fst snd] in *.
  destruct (Nat.leb (length st1) d); [by injection H as <- <- _|].
  exact (IH s1 st1 H1 H2 H).
Qed.

Lemma INV_ReadVariable seen n b s v s' :
  INV seen s -> ReadVariable var n b s = Some (v, s') -> INV seen s' /\ clean isG v.
Proof.
  intros Hs H. unfold ReadVariable in H.
  destruct (read_loop var 1 n s [new_read_state b; new_read_state 0])
    as [[[s1 [|top st1]] k]|] eqn:Hl; try discriminate.
  injection H as <- <-.
  assert (Hst : Forall (entry_ok ir0 isG) [new_read_state b; new_read_state 0])
    by (constructor; [apply entry_ok_new|constructor; [apply entry_ok_new|constructor]]).
  destruct (INV_read_loop seen 1 n s _ s1 _ k Hs Hst Hl) as [H1 H2].
  apply Forall_cons in H2 as [[Hr _] _]. by split.
Qed.
End ReadInv.

Lemma triple_bind {A B} (P : St -> Prop) (Q : A -> St -> Prop) (R : B -> St -> Prop)
    (m : M St A) (f : A -> M St B) :
  triple P m Q -> (forall a, triple (Q a) (f a) R) -> triple P (bindM m f) R.
Proof.
  intros Hm Hf s Hs. unfold bindM. specialize (Hm s Hs).
  destruct (m s) as [[a s']| |]; [exact (Hf a s' Hm)|exact I|exact I].
Qed.

Lemma triple_forM_ {A} (P : St -> Prop) (l : list A) (f : A -> M St unit) :
  (forall x, x ∈ l -> triple P (f x) (fun _ => P)) -> triple P (forM_ l f) (fun _ => P).
Proof.
  induction l as [|x l IH]; intros Hf; cbn [forM_].
  - intros s Hs. exact Hs.
  - apply (triple_bind P (fun _ => P)); [apply Hf; apply elem_of_cons; by left|].
    intros _. apply IH. intros y Hy. apply Hf. apply elem_of_cons. by right.
Qed.

Lemma triple_retM_bind {A B} (P : St -> Prop) (a : A) (f : A -> M St B) R :
  triple P (f a) R -> triple P (bindM (retM a) f) R.
Proof. intros H s Hs. exact (H s Hs). Qed.

Lemma triple_throw_bind {A B} (P : St -> Prop) e (f : A -> M St B) R :
  triple P (bindM (throwM e) f) R.
Proof. intros s _. exact I. Qed.

Lemma INV_AddPhiOperands seen var fuel phi b :
  N0 <= phi -> triple (fun s => INV seen s) (AddPhiOperands var fuel phi b) (fun _ s => INV seen s).
Proof.
  intros Hphi s Hs. unfold AddPhiOperands.
  apply (triple_bind (fun s => INV seen s) (fun _ s => INV seen s)); [| |exact Hs].
  - apply triple_forM_. intros p _ s1 Hs1.
    destruct (ReadVariable var fuel p s1) as [[v s2]|] eqn:H; [|exact I].
    destruct (INV_ReadVariable var seen fuel p s1 v s2 Hs1 H) as [[H1 H2] Hv].
    split; [by apply ir_ok_AddPhiOperand|exact H2].
  - intros _ s3 Hs3.
    pose proof (INV_TryRemoveTrivialPhi seen s3 phi b (UndefOpcode var) Hs3 Hphi) as [H1 _].
    destruct (TryRemoveTrivialPhi s3 phi b (UndefOpcode var)). exact H1.
Qed.

Lemma INV_SealBlock seen fuel b :
  triple (fun s => INV seen s) (SealBlock fuel b) (fun _ s => INV seen s).
Proof.
  intros s Hs. unfold SealBlock.
  apply (triple_bind (fun s => INV seen s) (fun _ s => INV seen s)); [| |exact Hs].
  - destruct (incomplete_phis (st_pass s) !! b) as [m|] eqn:Hm; [|intros s0 H0; exact H0].
    apply triple_forM_. intros [var phi] Hin.
    pose proof (ok_phis _ _ _ (proj2 Hs) b m Hm) as Hf.
    rewrite Forall_forall in Hf. specialize (Hf _ Hin). cbn [snd] in Hf.
    apply (triple_bind _ (fun _ s => INV seen s)); [by apply INV_AddPhiOperands|].
    intros _ s0 H0. exact H0.
  - intros _ s' [H1 H2]. split; [exact H1|by apply pass_ok_mark_sealed].
Qed.

Lemma INV_read_replace seen fuel var b x :
  triple (fun s => INV seen s) (let* v := read fuel var b in replace_uses x v)
         (fun _ s => INV (x :: seen) s).
Proof.
  intros s Hs. unfold bindM, read.
  destruct (ReadVariable var fuel b s) as [[v s1]|] eqn:H; [|exact I].
  destruct (INV_ReadVariable var seen fuel b s v s1 Hs H) as [[H1 H2] Hv].
  unfold replace_uses. split; [|exact H2].
  apply ir_ok_cons; [by apply ir_ok_ReplaceUsesWith|].
  intros Hx. apply ReplaceUsesWith_no_uses. exact (Hv x Hx).
Qed.

Lemma INV_write_notG seen x var b v :
  isG x = false -> clean isG v ->
  triple (fun s => INV seen s) (write var b v) (fun _ s => INV (x :: seen) s).
Proof.
  intros Hx Hv s [H1 H2]. unfold write.
  split; [apply ir_ok_cons; [exact H1|congruence]|by apply pass_ok_WriteVariable].
Qed.

Lemma INV_ret_notG seen x :
  isG x = false -> triple (fun s => INV seen s) (retM tt) (fun _ s => INV (x :: seen) s).
Proof. intros Hx s [H1 H2]. split; [apply ir_ok_cons; [exact H1|congruence]|exact H2]. Qed.

Lemma nth_ref_in l k g : nth k l Empty = InstRef g -> InstRef g ∈ l.
Proof.
  revert k. induction l as [|a l IH]; intros [|k]; simpl; try discriminate.
  - intros ->. apply elem_of_cons. by left.
  - intros H. apply elem_of_cons. right. by apply (IH k).
Qed.

Lemma triple_unfold {A} (P : St -> Prop) (m : M St A) Q :
  triple P m Q -> forall s, P s -> match m s with Ok (a, s') => Q a s' | _ => True end.
Proof. intros H. exact H. Qed.

Ltac close_visit HG Hcl :=
  first
  [ apply triple_throw_bind
  | apply triple_retM_bind; cbv beta; close_visit HG Hcl
  | apply INV_read_replace
  | apply INV_write_notG; [apply HG; reflexivity|apply Hcl]
  | apply INV_ret_notG; apply HG;
    first [ reflexivity
          | match goal with H : ?r = ?c |- negb _ = false => rewrite H; reflexivity end ]
  | case_decide; close_visit HG Hcl ].

Lemma INV_VisitInst seen fuel b x :
  (forall g, isG g = true -> (exists i0, arena ir0 !! x = Some i0 /\ InstRef g ∈ args i0) ->
             g ∈ seen) ->
  triple (fun s => INV seen s) (VisitInst fuel b x) (fun _ s => INV (x :: seen) s).
Proof.
  intros Hpre s Hs. unfold VisitInst.
  destruct (arena (st_ir s) !! x) as [inst|] eqn:Hx.
  2: { split; [|exact (proj2 Hs)]. apply ir_ok_cons; [exact (proj1 Hs)|].
       intros HG. destruct (read_orig x HG) as (i0 & H0 & Hr0).
       destruct (ok_reads _ _ _ _ (proj1 Hs) x i0 H0 Hr0) as (i & Hi & _). congruence. }
  assert (HG : is_ssa_read inst = false -> isG x = false).
  { intros Hr. destruct (isG x) eqn:HGx; [|done]. destruct (read_orig x HGx) as (i0 & H0 & Hr0).
    destruct (ok_reads _ _ _ _ (proj1 Hs) x i0 H0 Hr0) as (i & Hi & Hri). congruence. }
  assert (Hcl : forall k, clean isG (Arg inst k)).
  { intros k g Hg Hk. apply nth_ref_in in Hk.
    destruct (ok_refs _ _ _ _ (proj1 Hs) x inst g Hx Hg Hk) as (i0 & H0 & Hin0).
    apply (ok_replaced _ _ _ _ (proj1 Hs) g Hg (Hpre g Hg (ex_intro _ i0 (conj H0 Hin0)))).
    by exists x, inst. }
  clear Hx. cbv zeta. revert s Hs. unfold is_ssa_read in HG. revert HG.
  destruct (op inst); intros HG; cbv iota beta in HG;
    try lazymatch goal with
    | |- context [value_reg (Arg inst 0)] => revert HG; destruct (Arg inst 0); intros HG
    | |- context [value_pred (Arg inst 0)] => revert HG; destruct (Arg inst 0); intros HG
    | |- context [value_u32 (Arg inst 0)] =>
        revert HG; destruct (Arg inst 0) as [| | | | |ty z]; [..|destruct ty]; intros HG
    end;
    cbv iota beta in HG; cbn [value_reg value_pred value_u32];
    apply triple_unfold; close_visit HG Hcl.
Qed.


Lemma triple_post {A} (P : St -> Prop) (m : M St A) (Q R : A -> St -> Prop) :
  triple P m Q -> (forall a s, Q a s -> R a s) -> triple P m R.
Proof.
  intros Hm HQ s Hs. specialize (Hm s Hs).
  destruct (m s) as [[a s']| |]; [exact (HQ a s' Hm)|exact I|exact I].
Qed.

Lemma INV_forM_visit fuel b : forall L seen,
  (forall pre u post, filter (fun i => i < N0) L = pre ++ u :: post ->
     forall g, isG g = true -> (exists i0, arena ir0 !! u = Some i0 /\ InstRef g ∈ args i0) ->
     g ∈ seen \/ g ∈ pre) ->
  triple (fun s => INV seen s) (forM_ L (VisitInst fuel b)) (fun _ s => INV (L ++ seen) s).
Proof.
  induction L as [|x L IH]; intros seen Hpre; cbn [forM_].
  - intros s Hs. exact Hs.
  - apply (triple_bind (fun s => INV seen s) (fun _ s => INV (x :: seen) s)).
    + apply INV_VisitInst. intros g Hg Hu. destruct (decide (x < N0)) as [Hx|Hx].
      * destruct (Hpre [] x (filter (fun i => i < N0) L)
                    ltac:(by rewrite filter_cons_True) g Hg Hu) as [H|H]; [exact H|].
        by apply not_elem_of_nil in H.
      * destruct Hu as (i0 & H0 & _). rewrite orig_fresh in H0 by lia. discriminate.
    + intros _. apply (triple_post _ _ (fun _ s => INV (L ++ x :: seen) s)).
      * apply IH. intros pre u post Hl g Hg Hu. destruct (decide (x < N0)) as [Hx|Hx].
        -- destruct (Hpre (x :: pre) u post
                       ltac:(rewrite filter_cons_True by done; by rewrite Hl) g Hg Hu) as [H|H].
           ++ left. apply elem_of_cons. by right.
           ++ apply elem_of_cons in H as [->|H]; [left; apply elem_of_cons; by left|by right].
        -- destruct (Hpre pre u post
                       ltac:(rewrite filter_cons_False by done; exact Hl) g Hg Hu) as [H|H].
           ++ left. apply elem_of_cons. by right.
           ++ by right.
      * intros _ s [H1 H2]. split; [|exact H2]. apply (ir_ok_weaken _ _ _ H1).
        intros g. rewrite <- app_comm_cons. repeat (rewrite elem_of_app || rewrite elem_of_cons). tauto.
Qed.

Lemma INV_VisitBlock seen fuel b :
  (forall pre u post, instructions (block_of ir0 b) = pre ++ u :: post ->
     forall g, isG g = true -> (exists i0, arena ir0 !! u = Some i0 /\ InstRef g ∈ args i0) ->
     g ∈ seen \/ g ∈ pre) ->
  triple (fun s => INV seen s) (VisitBlock fuel b)
         (fun _ s => INV (instructions (block_of ir0 b) ++ seen) s).
Proof.
  intros Hpre s Hs. unfold VisitBlock.
  pose proof (ok_lists _ _ _ _ (proj1 Hs) b) as HL.
  apply (triple_bind (fun s' => INV seen s')
           (fun _ s' => INV (instructions (block_of (st_ir s) b) ++ seen) s')); [| |exact Hs].
  - apply INV_forM_visit. rewrite HL. exact Hpre.
  - intros _. apply (triple_post _ _ (fun _ s' => INV (instructions (block_of (st_ir s) b) ++ seen) s'));
      [apply INV_SealBlock|].
    intros _ s' [H1 H2]. split; [|exact H2]. apply (ir_ok_weaken _ _ _ H1).
    intros g. rewrite !elem_of_app. rewrite <- HL, list_elem_of_filter. tauto.
Qed.

Lemma INV_forM_blocks fuel : forall BL seen,
  (forall pre u post, concat (map (fun b => instructions (block_of ir0 b)) BL) = pre ++ u :: post ->
     forall g, isG g = true -> (exists i0, arena ir0 !! u = Some i0 /\ InstRef g ∈ args i0) ->
     g ∈ seen \/ g ∈ pre) ->
  triple (fun s => INV seen s) (forM_ BL (VisitBlock fuel))
         (fun _ s => INV (concat (map (fun b => instructions (block_of ir0 b)) BL) ++ seen) s).
Proof.
  induction BL as [|b BL IH]; intros seen Hpre; cbn [forM_ map concat] in *.
  - intros s Hs. exact Hs.
  - apply (triple_bind (fun s => INV seen s) (fun _ s => INV (instructions (block_of ir0 b) ++ seen) s)).
    + apply INV_VisitBlock. intros pre u post Hl. apply (Hpre pre u (post ++ concat (map (fun b => instructions (block_of ir0 b)) BL))).
      rewrite Hl. by rewrite <- app_assoc.
    + intros _. apply (triple_post _ _ (fun _ s =>
        INV (concat (map (fun b => instructions (block_of ir0 b)) BL) ++ instructions (block_of ir0 b) ++ seen) s)).
      * apply IH. intros pre u post Hl g Hg Hu.
        destruct (Hpre (instructions (block_of ir0 b) ++ pre) u post
                    ltac:(rewrite Hl; by rewrite app_assoc) g Hg Hu) as [H|H].
        -- left. apply elem_of_app. by right.
        -- apply elem_of_app in H as [H|H]; [left; apply elem_of_app; by left|by right].
      * intros _ s [H1 H2]. split; [|exact H2]. apply (ir_ok_weaken _ _ _ H1).
        intros g. rewrite !elem_of_app. tauto.
Qed.

Lemma filter_all (P : nat -> Prop) `{!forall x, Decision (P x)} l :
  Forall P l -> filter P l = l.
Proof. induction 1; [done|]. rewrite filter_cons_True by done. by f_equal. Qed.

Lemma INV_init : INV [] {| st_ir := ir0; st_pass := empty_pass |}.
Proof.
  split; split; cbn [st_ir st_pass].
  - lia.
  - intros u i0 H0 Hr. by exists i0.
  - intros u i g Hi _ Hin. by exists i.
  - intros g _ H. by apply not_elem_of_nil in H.
  - intros b. apply filter_all. unfold block_of.
    destruct (blocks ir0 !! b) as [blk|] eqn:Hb; [|constructor].
    exact (proj2 Hids b blk Hb).
  - intros var b v. destruct var; simpl; unfold map_or_empty; simpl;
      rewrite ?lookup_empty; discriminate.
  - intros b m. simpl. rewrite lookup_empty. discriminate.
Qed.

End Replaced.

Lemma uses_defined_before_spec ir isread : forall l seen pre u post inst g,
  uses_defined_before ir isread seen l = true -> l = pre ++ u :: post ->
  arena ir !! u = Some inst -> isread g = true -> InstRef g ∈ args inst ->
  g ∈ seen \/ g ∈ pre.
Proof.
  induction l as [|y l IH]; intros seen pre u post inst g Hl Heq Hu Hg Hin.
  - destruct pre; discriminate.
  - cbn [uses_defined_before] in Hl. apply andb_true_iff in Hl as [Hy Hl].
    destruct pre as [|z pre]; cbn [app] in Heq; injection Heq as <- Heq.
    + rewrite Hu in Hy. apply forallb_forall with (x := InstRef g) in Hy;
        [|by apply list_elem_of_In].
      rewrite Hg in Hy. cbn in Hy. left. by apply bool_decide_eq_true_1 in Hy.
    + destruct (IH (y :: seen) pre u post inst g Hl Heq Hu Hg Hin) as [H|H].
      * apply elem_of_cons in H as [->|H]; [right; apply elem_of_cons; by left|by left].
      * right. apply elem_of_cons. by right.
Qed.

(** C5 (amended). Let every instruction handle of the program be below
    [next_id], and let every reachable use of a reachable [Get] come after
    that [Get] in visiting order. If [SsaRewritePass] completes, no
    reachable [Get] of a register other than RZ, of a predicate other
    than PT, of a flag, of a goto variable or of the indirect-branch
    variable has a use left: each has been replaced by an SSA value. *)
Theorem SsaRewritePass_reads_replaced (fuel : nat) (program : Program) (st : St) :
  ids_below_next (prog_ir program) -> def_before_use program = true ->
  SsaRewritePass fuel program = Ok st ->
  forall g, reachable_read program g = true -> ~ has_uses (st_ir st) g.
Proof.
  intros Hids Hdef Hrun g Hg. unfold SsaRewritePass in Hrun.
  pose proof (INV_forM_blocks program Hids fuel (rev (post_order_blocks program)) []) as H.
  lapply H; clear H.
  2: { intros pre u post Hl g' Hg' (i0 & H0 & Hin).
       exact (uses_defined_before_spec _ _ _ [] pre u post i0 g' Hdef Hl H0 Hg' Hin). }
  intros H. specialize (H _ (INV_init program Hids)).
  destruct (forM_ (rev (post_order_blocks program)) (VisitBlock fuel)
              {| st_ir := prog_ir program; st_pass := empty_pass |}) as [[_ s]| |];
    try discriminate.
  injection Hrun as <-. destruct H as [H _]. apply (ok_replaced _ _ _ _ H g Hg).
  apply elem_of_app. left. unfold reachable_read in Hg.
  apply andb_true_iff in Hg as [Hg _]. exact (bool_decide_eq_true_1 _ Hg).
Qed.

Lemma SsaRewritePass_reads_replaced_witness :
  ids_below_next (prog_ir diamond) /\ def_before_use diamond = true /\
  reachable_read diamond 30 = true /\
  match SsaRewritePass 100 diamond with
  | Ok st => forall g, reachable_read diamond g = true -> ~ has_uses (st_ir st) g
  | _ => False
  end.
Proof.
  assert (Hi : ids_below_next (prog_ir diamond))
    by (apply (bool_decide_unpack _); vm_compute; reflexivity).
  assert (Hd : def_before_use diamond = true) by (vm_compute; reflexivity).
  split; [exact Hi|split; [exact Hd|split; [vm_compute; reflexivity|]]].
  destruct (SsaRewritePass 100 diamond) as [st| |] eqn:E.
  - exact (SsaRewritePass_reads_replaced 100 diamond st Hi Hd E).
  - vm_compute in E. discriminate E.
  - vm_compute in E. discriminate E.
Defined.

(* ------------------------------------------------------------------ *)
(** ** Further properties of the emitter, the translators and the pass *)

Lemma Inst_unfold opc fl ops es :
  IREmitter.Inst opc fl ops es =
    Ok (InstRef (next_id (eir es)),
        {| eir := (PrependNewInst (eir es) (eblock es)
                     (length (instructions (block_of (eir es) (eblock es)))) opc fl ops).1;
           eblock := eblock es |}).
Proof. reflexivity. Qed.

Lemma Inst_emits opc fl ops es :
  match IREmitter.Inst opc fl ops es with
  | Ok (r, es') => emits_value es es' r (Opcode.TypeOf opc)
  | _ => False
  end.
Proof.
  destruct (Inst_emitted opc fl ops es) as (es' & E & H1 & H2 & H3). rewrite E.
  split; [reflexivity|]. split; [unfold value_type; by rewrite H3|].
  split; [|split; eauto]. rewrite Inst_unfold in E. injection E as <-. reflexivity.
Qed.

Ltac typed_tac :=
  unfold typed_result;
  repeat (unfold bindM at 1; unfold Type_ at 1; cbv beta iota);
  repeat match goal with
  | |- context [decide ?P] => destruct (decide P) as [?Hd|?Hd]
  end;
  [..];
  try (cbv [throwM]; split; [reflexivity | intros ?; intuition congruence]);
  repeat match goal with
  | H : ~ (_ <> _) |- _ => apply dec_stable in H
  | H : ~ (_ \/ _) |- _ => apply Decidable.not_or in H as [? ?]
  end.

Ltac emit_finish :=
  lazymatch goal with
  | |- context [IREmitter.Inst ?o ?f ?l ?e] =>
      let HE := fresh "HE" in
      pose proof (Inst_emits o f l e) as HE;
      destruct (IREmitter.Inst o f l e) as [[? ?]| |];
      [split; [ | exact HE]; intuition (try reflexivity; try assumption; auto) | contradiction | contradiction]
  | |- _ => cbv [throwM]; split; [reflexivity | intros ?; intuition (try congruence; try discriminate)]
  end.

Ltac typed_cases t := destruct t; emit_finish.

Lemma FPMul_typed a b control es :
  typed_result (FPMul a b control) es
    (value_type (eir es) a = value_type (eir es) b /\ is_float (value_type (eir es) a) = true)
    (value_type (eir es) a) InvalidArgument.
Proof.
  unfold FPMul. typed_tac. typed_cases (value_type (eir es) a).
Qed.

(** X2. IREmitter::FPFma succeeds exactly when its three operands have the
    same floating-point type (F16, F32 or F64). It then emits one
    instruction of that type; otherwise it throws InvalidArgument. *)
Lemma FPFma_typing a b c control es :
  typed_result (FPFma a b c control) es
    (value_type (eir es) a = value_type (eir es) b /\ value_type (eir es) a = value_type (eir es) c /\
     is_float (value_type (eir es) a) = true)
    (value_type (eir es) a) InvalidArgument.
Proof.
  unfold FPFma. typed_tac. typed_cases (value_type (eir es) a).
Qed.

Lemma CompositeConstruct_typed e1 e2 e3 e4 es :
  typed_result (CompositeConstruct2 e1 e2) es
    (value_type (eir es) e1 = value_type (eir es) e2 /\
     is_composite_element (value_type (eir es) e1) = true)
    (vector_of 2 (value_type (eir es) e1)) InvalidArgument /\
  typed_result (CompositeConstruct3 e1 e2 e3) es
    (value_type (eir es) e1 = value_type (eir es) e2 /\ value_type (eir es) e1 = value_type (eir es) e3 /\
     is_composite_element (value_type (eir es) e1) = true)
    (vector_of 3 (value_type (eir es) e1)) InvalidArgument /\
  typed_result (CompositeConstruct4 e1 e2 e3 e4) es
    (value_type (eir es) e1 = value_type (eir es) e2 /\ value_type (eir es) e1 = value_type (eir es) e3 /\
     value_type (eir es) e1 = value_type (eir es) e4 /\
     is_composite_element (value_type (eir es) e1) = true)
    (vector_of 4 (value_type (eir es) e1)) InvalidArgument.
Proof.
  split; [|split].
  - unfold CompositeConstruct2. typed_tac. typed_cases (value_type (eir es) e1).
  - unfold CompositeConstruct3. typed_tac. typed_cases (value_type (eir es) e1).
  - unfold CompositeConstruct4. typed_tac. typed_cases (value_type (eir es) e1).
Qed.

(** X4. IREmitter::Select succeeds exactly when both alternatives have the
    same type among U8, U16, U32, U64 and F32. It then emits one
    instruction of that type; otherwise it throws InvalidArgument. *)
Lemma Select_typing condition a b es :
  typed_result (Select condition a b) es
    (value_type (eir es) a = value_type (eir es) b /\ is_select_type (value_type (eir es) a) = true)
    (value_type (eir es) a) InvalidArgument.
Proof.
  unfold Select. typed_tac. typed_cases (value_type (eir es) a).
Qed.

(** X5. IAdd and ISub succeed exactly when both operands have the same
    type, U32 or U64. They then emit one instruction of that type;
    otherwise they throw InvalidArgument. *)
Lemma IAdd_ISub_typing a b es :
  typed_result (IAdd a b) es
    (value_type (eir es) a = value_type (eir es) b /\ is_int_type (value_type (eir es) a) = true)
    (value_type (eir es) a) InvalidArgument /\
  typed_result (ISub a b) es
    (value_type (eir es) a = value_type (eir es) b /\ is_int_type (value_type (eir es) a) = true)
    (value_type (eir es) a) InvalidArgument.
Proof.
  split.
  - unfold IAdd. typed_tac. typed_cases (value_type (eir es) a).
  - unfold ISub. typed_tac. typed_cases (value_type (eir es) a).
Qed.

Lemma FP_unary_typed value control es :
  let ty := value_type (eir es) value in
  typed_result (FPAbs value) es (is_float ty = true) ty InvalidArgument /\
  typed_result (FPNeg value) es (is_float ty = true) ty InvalidArgument /\
  typed_result (FPSaturate value) es (is_float ty = true) ty InvalidArgument /\
  typed_result (FPRoundEven value control) es (is_float ty = true) ty InvalidArgument /\
  typed_result (FPFloor value control) es (is_float ty = true) ty InvalidArgument /\
  typed_result (FPCeil value control) es (is_float ty = true) ty InvalidArgument /\
  typed_result (FPTrunc value control) es (is_float ty = true) ty InvalidArgument /\
  typed_result (FPRecip value) es (is_f32_f64 ty = true) ty InvalidArgument /\
  typed_result (FPRecipSqrt value) es (is_f32_f64 ty = true) ty InvalidArgument.
Proof.
  intros ty.
  repeat split;
    cbv [FPAbs FPNeg FPSaturate FPRoundEven FPFloor FPCeil FPTrunc FPRecip FPRecipSqrt];
    typed_tac; subst ty; typed_cases (value_type (eir es) value).
Qed.

(** X7. The six floating-point comparisons succeed exactly when both
    operands have the same floating-point type, ordered or not. Each then
    emits one U1 instruction; otherwise it throws InvalidArgument. *)
Lemma FP_compare_typing lhs rhs ordered es :
  let ok := value_type (eir es) lhs = value_type (eir es) rhs /\
            is_float (value_type (eir es) lhs) = true in
  typed_result (FPEqual lhs rhs ordered) es ok IRType.U1 InvalidArgument /\
  typed_result (FPNotEqual lhs rhs ordered) es ok IRType.U1 InvalidArgument /\
  typed_result (FPLessThan lhs rhs ordered) es ok IRType.U1 InvalidArgument /\
  typed_result (FPGreaterThan lhs rhs ordered) es ok IRType.U1 InvalidArgument /\
  typed_result (FPLessThanEqual lhs rhs ordered) es ok IRType.U1 InvalidArgument /\
  typed_result (FPGreaterThanEqual lhs rhs ordered) es ok IRType.U1 InvalidArgument.
Proof.
  intros ok.
  repeat split;
    cbv [FPEqual FPNotEqual FPLessThan FPGreaterThan FPLessThanEqual FPGreaterThanEqual];
    typed_tac; subst ok; destruct (value_type (eir es) lhs), ordered; emit_finish.
Qed.

Lemma ConvertFToI_typed bitsize is_signed value es :
  typed_result (ConvertFToI bitsize is_signed value) es
    ((bitsize = 16 \/ bitsize = 32 \/ bitsize = 64)%nat /\ is_float (value_type (eir es) value) = true)
    (if Nat.eqb bitsize 64 then IRType.U64 else IRType.U32) InvalidArgument.
Proof.
  unfold ConvertFToI; destruct is_signed; cbv [ConvertFToS ConvertFToU];
    unfold typed_result, bindM at 1, Type_ at 1; cbv beta iota.
  all: destruct (Nat.eqb_spec bitsize 16) as [->|H16];
    [destruct (value_type (eir es) value); emit_finish|].
  all: destruct (Nat.eqb_spec bitsize 32) as [->|H32];
    [destruct (value_type (eir es) value); emit_finish|].
  all: destruct (Nat.eqb_spec bitsize 64) as [->|H64];
    [destruct (value_type (eir es) value); emit_finish|].
  all: cbv [throwM]; split; [reflexivity|]; intros [[?|[?|?]] _]; lia.
Qed.



Lemma FPAbsNeg_typed value abs neg es :
  match FPAbsNeg value abs neg es with
  | Ok (r, es') =>
      value_type (eir es') r = value_type (eir es) value /\
      eblock es' = eblock es /\
      instructions (block_of (eir es') (eblock es)) =
        instructions (block_of (eir es) (eblock es)) ++ seq (next_id (eir es)) (Nat.b2n abs + Nat.b2n neg) /\
      ((abs || neg) = true -> is_float (value_type (eir es) value) = true) /\
      (abs = false -> neg = false -> r = value /\ es' = es)
  | Throw e => e = InvalidArgument /\ (abs || neg) = true /\ is_float (value_type (eir es) value) = false
  | OutOfFuel => False
  end.
Proof.
  pose proof (fun es => proj1 (FP_unary_typed value (Build_FpControl false RDontCare FmzDontCare) es)) as HA.
  pose proof (fun v es => proj1 (proj2 (FP_unary_typed v (Build_FpControl false RDontCare FmzDontCare) es))) as HN.
  cbv zeta in HA, HN.
  unfold FPAbsNeg. destruct abs, neg; cbn [Nat.b2n orb plus]; unfold bindM, retM.
  - specialize (HA es). unfold typed_result in HA.
    destruct (FPAbs value es) as [[r1 es1]|e|];
      [|destruct HA as [-> ?]; split; [done|split; [done|]]; destruct (is_float _); tauto|done].
    destruct HA as [Hf (-> & Ht1 & Hn1 & [o1 (Hb1 & Hi1 & _)] & _)].
    specialize (HN (InstRef (next_id (eir es))) es1). unfold typed_result in HN.
    destruct (FPNeg _ es1) as [[r2 es2]|e|];
      [|rewrite Ht1 in HN; destruct HN as [-> HN]; tauto|done].
    destruct HN as [_ (-> & Ht2 & Hn2 & [o2 (Hb2 & Hi2 & _)] & _)].
    rewrite Hb1 in Hb2, Hi2. rewrite Hi1, Hn1 in Hi2.
    split; [congruence|]. split; [congruence|].
    split; [rewrite Hi2, <- app_assoc; reflexivity|].
    split; [intros _; exact Hf|]. discriminate.
  - specialize (HA es). unfold typed_result in HA.
    destruct (FPAbs value es) as [[r1 es1]|e|];
      [|destruct HA as [-> ?]; split; [done|split; [done|]]; destruct (is_float _); tauto|done].
    destruct HA as [Hf (-> & Ht1 & Hn1 & [o1 (Hb1 & Hi1 & _)] & _)].
    split; [exact Ht1|]. split; [exact Hb1|]. split; [exact Hi1|].
    split; [intros _; exact Hf|]. discriminate.
  - specialize (HN value es). unfold typed_result in HN.
    destruct (FPNeg value es) as [[r1 es1]|e|];
      [|destruct HN as [-> ?]; split; [done|split; [done|]]; destruct (is_float _); tauto|done].
    destruct HN as [Hf (-> & Ht1 & Hn1 & [o1 (Hb1 & Hi1 & _)] & _)].
    split; [exact Ht1|]. split; [exact Hb1|]. split; [exact Hi1|].
    split; [intros _; exact Hf|]. discriminate.
  - split; [done|]. split; [done|]. split; [cbn [seq]; by rewrite app_nil_r|].
    split; [discriminate|]. auto.
Qed.

Lemma Inst_arena opc fl ops es :
  match IREmitter.Inst opc fl ops es with
  | Ok (_, es') =>
      arena (eir es') = <[next_id (eir es) := {| op := opc; flags := fl; args := ops; phi_blocks := [] |}]> (arena (eir es)) /\
      next_id (eir es') = S (next_id (eir es))
  | _ => False
  end.
Proof. rewrite Inst_unfold. split; reflexivity. Qed.

(** X10. IREmitter::GetPred appends a GetPred instruction on the predicate
    and, when is_negated, a LogicalNot of it. It returns the last of these
    instructions, of type U1. *)
Lemma GetPred_emits pred neg es :
  match GetPred pred neg es with
  | Ok (r, es') =>
      let n := next_id (eir es) in
      value_type (eir es') r = IRType.U1 /\ eblock es' = eblock es /\
      instructions (block_of (eir es') (eblock es)) =
        instructions (block_of (eir es) (eblock es)) ++ seq n (if neg then 2 else 1) /\
      arena (eir es') !! n =
        Some {| op := Opcode.GetPred; flags := NoFlags; args := [ImmPred pred]; phi_blocks := [] |} /\
      r = InstRef (if neg then S n else n) /\
      (neg = true -> arena (eir es') !! S n =
        Some {| op := Opcode.LogicalNot; flags := NoFlags; args := [InstRef n]; phi_blocks := [] |})
  | _ => False
  end.
Proof.
  unfold GetPred, bindM.
  pose proof (Inst_arena Opcode.GetPred NoFlags [ImmPred pred] es) as HA1.
  destruct (Inst_emitted Opcode.GetPred NoFlags [ImmPred pred] es) as (es1 & E1 & (Hb1 & Hi1 & _) & _ & Ha1).
  rewrite E1 in HA1 |- *. destruct HA1 as [_ Hn1]. destruct neg; cbn beta iota.
  - pose proof (Inst_arena Opcode.LogicalNot NoFlags [InstRef (next_id (eir es))] es1) as HA2.
    destruct (Inst_emitted Opcode.LogicalNot NoFlags [InstRef (next_id (eir es))] es1)
      as (es2 & E2 & (Hb2 & Hi2 & _) & _ & Ha2).
    rewrite E2 in HA2 |- *. destruct HA2 as [HA2 _].
    rewrite Hn1 in Ha2, HA2 |- *. rewrite Hb1 in Hb2, Hi2. rewrite Hi1, Hn1 in Hi2. cbv zeta.
    unfold value_type. rewrite Ha2. cbn [Opcode.TypeOf op].
    split; [reflexivity|]. split; [congruence|]. split; [rewrite Hi2, <- app_assoc; reflexivity|].
    split; [rewrite HA2, lookup_insert_ne by lia; exact Ha1|].
    split; [reflexivity|]. intros _; reflexivity.
  - unfold retM. cbv zeta. unfold value_type. rewrite Ha1. cbn [Opcode.TypeOf op].
    split; [reflexivity|]. split; [exact Hb1|]. split; [exact Hi1|].
    split; [reflexivity|]. split; [reflexivity|]. discriminate.
Qed.

Ltac extract_after_construct H :=
  let Hel := fresh "Hel" in let Ht := fresh "Ht" in
  unfold typed_result in H;
  lazymatch goal with |- match ?m with _ => _ end => destruct m as [[? ?]| |] end;
  [|exact I|exact I];
  destruct H as [(_ & Hel) (-> & Ht & _)];
  repeat match type of Hel with _ /\ _ => destruct Hel as [_ Hel] end;
  unfold typed_result, CompositeExtract, bindM, Type_; rewrite Ht; cbv beta iota;
  lazymatch type of Hel with is_composite_element ?t = true =>
    destruct t; try discriminate Hel; cbn [vector_of] end;
  match goal with
  | |- context [Nat.leb ?k ?i] =>
      destruct (Nat.leb_spec k i); [cbv [throwM]; split; [reflexivity|lia] | emit_finish]
  end.

(** X11. Extracting element i of a vector just built by CompositeConstruct
    of n elements (n = 2, 3 or 4) succeeds exactly when i < n. It then
    emits one instruction of the element type; otherwise it throws
    InvalidArgument. *)
Lemma CompositeConstruct_Extract e1 e2 e3 e4 i es :
  match CompositeConstruct2 e1 e2 es with
  | Ok (v, es1) => typed_result (CompositeExtract v i) es1 (i < 2)%nat (value_type (eir es) e1) InvalidArgument
  | _ => True
  end /\
  match CompositeConstruct3 e1 e2 e3 es with
  | Ok (v, es1) => typed_result (CompositeExtract v i) es1 (i < 3)%nat (value_type (eir es) e1) InvalidArgument
  | _ => True
  end /\
  match CompositeConstruct4 e1 e2 e3 e4 es with
  | Ok (v, es1) => typed_result (CompositeExtract v i) es1 (i < 4)%nat (value_type (eir es) e1) InvalidArgument
  | _ => True
  end.
Proof.
  destruct (CompositeConstruct_typed e1 e2 e3 e4 es) as (H2 & H3 & H4).
  split; [|split].
  - extract_after_construct H2.
  - extract_after_construct H3.
  - extract_after_construct H4.
Qed.
(* ------------------------------------------------------------------ *)
(** ** Emitter typing, restated *)

(** X1. IREmitter::FPMul succeeds exactly when both operands have the same
    floating-point type (F16, F32 or F64). It then emits one instruction
    whose result has that type; otherwise it throws InvalidArgument. *)
Lemma FPMul_typing a b control es :
  typed_result (FPMul a b control) es
    (value_type (eir es) a = value_type (eir es) b /\ is_float (value_type (eir es) a) = true)
    (value_type (eir es) a) InvalidArgument.
Proof. exact (FPMul_typed a b control es). Qed.

(** X3. CompositeConstruct of 2, 3 or 4 elements succeeds exactly when all
    elements have the same type among U32, F16, F32 and F64. It then emits
    one instruction of the matching vector type; otherwise it throws
    InvalidArgument. *)
Lemma CompositeConstruct_typing e1 e2 e3 e4 es :
  typed_result (CompositeConstruct2 e1 e2) es
    (value_type (eir es) e1 = value_type (eir es) e2 /\
     is_composite_element (value_type (eir es) e1) = true)
    (vector_of 2 (value_type (eir es) e1)) InvalidArgument /\
  typed_result (CompositeConstruct3 e1 e2 e3) es
    (value_type (eir es) e1 = value_type (eir es) e2 /\ value_type (eir es) e1 = value_type (eir es) e3 /\
     is_composite_element (value_type (eir es) e1) = true)
    (vector_of 3 (value_type (eir es) e1)) InvalidArgument /\
  typed_result (CompositeConstruct4 e1 e2 e3 e4) es
    (value_type (eir es) e1 = value_type (eir es) e2 /\ value_type (eir es) e1 = value_type (eir es) e3 /\
     value_type (eir es) e1 = value_type (eir es) e4 /\
     is_composite_element (value_type (eir es) e1) = true)
    (vector_of 4 (value_type (eir es) e1)) InvalidArgument.
Proof. exact (CompositeConstruct_typed e1 e2 e3 e4 es). Qed.

(** X6. FPAbs, FPNeg, FPSaturate, FPRoundEven, FPFloor, FPCeil and FPTrunc
    succeed exactly on an F16, F32 or F64 operand, and FPRecip and
    FPRecipSqrt exactly on an F32 or F64 operand. Each then emits one
    instruction of the operand's type; otherwise it throws
    InvalidArgument. *)
Lemma FP_unary_typing value control es :
  let ty := value_type (eir es) value in
  typed_result (FPAbs value) es (is_float ty = true) ty InvalidArgument /\
  typed_result (FPNeg value) es (is_float ty = true) ty InvalidArgument /\
  typed_result (FPSaturate value) es (is_float ty = true) ty InvalidArgument /\
  typed_result (FPRoundEven value control) es (is_float ty = true) ty InvalidArgument /\
  typed_result (FPFloor value control) es (is_float ty = true) ty InvalidArgument /\
  typed_result (FPCeil value control) es (is_float ty = true) ty InvalidArgument /\
  typed_result (FPTrunc value control) es (is_float ty = true) ty InvalidArgument /\
  typed_result (FPRecip value) es (is_f32_f64 ty = true) ty InvalidArgument /\
  typed_result (FPRecipSqrt value) es (is_f32_f64 ty = true) ty InvalidArgument.
Proof. exact (FP_unary_typed value control es). Qed.

(** X8. ConvertFToI, signed or unsigned, succeeds exactly when the bit
    size is 16, 32 or 64 and the operand is floating-point. It then emits
    one instruction of type U64 for 64 bits and U32 for 16 or 32 bits;
    otherwise it throws InvalidArgument. *)
Lemma ConvertFToI_typing bitsize is_signed value es :
  typed_result (ConvertFToI bitsize is_signed value) es
    ((bitsize = 16 \/ bitsize = 32 \/ bitsize = 64)%nat /\ is_float (value_type (eir es) value) = true)
    (if Nat.eqb bitsize 64 then IRType.U64 else IRType.U32) InvalidArgument.
Proof. exact (ConvertFToI_typed bitsize is_signed value es). Qed.

(** X9. FPAbsNeg appends an FPAbs when abs is set and then an FPNeg when
    neg is set, and its result keeps the operand's type. With neither flag
    it returns the operand and emits nothing; with a flag on a non-
    floating operand it throws InvalidArgument. *)
Lemma FPAbsNeg_typing value abs neg es :
  match FPAbsNeg value abs neg es with
  | Ok (r, es') =>
      value_type (eir es') r = value_type (eir es) value /\
      eblock es' = eblock es /\
      instructions (block_of (eir es') (eblock es)) =
        instructions (block_of (eir es) (eblock es)) ++ seq (next_id (eir es)) (Nat.b2n abs + Nat.b2n neg) /\
      ((abs || neg) = true -> is_float (value_type (eir es) value) = true) /\
      (abs = false -> neg = false -> r = value /\ es' = es)
  | Throw e => e = InvalidArgument /\ (abs || neg) = true /\ is_float (value_type (eir es) value) = false
  | OutOfFuel => False
  end.
Proof. exact (FPAbsNeg_typed value abs neg es). Qed.


Open Scope Z_scope.

Lemma bitfield_range position bits raw :
  0 <= bits -> 0 <= Maxwell.bitfield position bits raw < 2 ^ bits.
Proof.
  intros Hb. unfold Maxwell.bitfield. rewrite Z.land_ones by exact Hb.
  apply Z.mod_pos_bound. apply Z.pow_pos_nonneg; lia.
Qed.

Lemma testbit_13 v : 0 <= v < 16384 -> Z.testbit v 13 = (8192 <=? v).
Proof.
  intros Hv. pose proof (Z.testbit_true v 13 ltac:(lia)) as Ht.
  change (2 ^ 13) with 8192 in Ht.
  destruct (Z.leb_spec 8192 v).
  - assert (E : v / 8192 = 1) by (symmetry; apply (Z.div_unique_pos v 8192 1 (v - 8192)); lia).
    rewrite E in Ht. apply Ht. reflexivity.
  - rewrite Z.div_small in Ht by lia. destruct (Z.testbit v 13); [|reflexivity].
    destruct Ht as [Ht _]. discriminate (Ht eq_refl).
Qed.

Lemma bitfield_signed_14 position raw :
  Maxwell.bitfield_signed position 14 raw =
    let v := Maxwell.bitfield position 14 raw in if 8192 <=? v then v - 16384 else v.
Proof.
  unfold Maxwell.bitfield_signed. change (14 - 1) with 13. change (2 ^ 14) with 16384.
  pose proof (bitfield_range position 14 raw ltac:(lia)) as Hr. change (2 ^ 14) with 16384 in Hr.
  rewrite testbit_13 by exact Hr. reflexivity.
Qed.

Lemma bitfield_signed_14_range position raw :
  -8192 <= Maxwell.bitfield_signed position 14 raw < 8192.
Proof.
  rewrite bitfield_signed_14. cbv zeta.
  pose proof (bitfield_range position 14 raw ltac:(lia)) as Hr. change (2 ^ 14) with 16384 in Hr.
  destruct (Z.leb_spec 8192 (Maxwell.bitfield position 14 raw)); lia.
Qed.

Ltac emit_step es1 Hb Hi Ha HA Hn :=
  lazymatch goal with |- context [IREmitter.Inst ?o ?f ?l ?e] =>
    let E := fresh "E" in
    pose proof (Inst_arena o f l e) as HA;
    destruct (Inst_emitted o f l e) as (es1 & E & (Hb & Hi & _) & _ & Ha);
    rewrite E in HA |- *; destruct HA as [HA Hn]; cbv beta iota; clear E
  end.

(** X13. UnpackCbuf succeeds exactly when the binding is below 18 and the
    signed 14-bit offset is non-negative and even. It then appends
    GetCbuf(binding, 4*offset+4), CompositeConstruct(0, that) and
    PackDouble2x32 and returns the F64 result, otherwise it throws
    NotImplemented; so the offset >= 0x4000 check never fires. *)
Lemma UnpackCbuf_emits insn es :
  let offset := Maxwell.bitfield_signed 20 14 insn in
  let binding := Maxwell.bitfield 34 5 insn in
  let ok := binding < 18 /\ 0 <= offset /\ Z.rem offset 2 = 0 in
  match Maxwell.UnpackCbuf insn es with
  | Ok (r, es') =>
      let n := next_id (eir es) in
      ok /\ r = InstRef (S (S n)) /\ value_type (eir es') r = IRType.F64 /\
      eblock es' = eblock es /\
      instructions (block_of (eir es') (eblock es)) =
        instructions (block_of (eir es) (eblock es)) ++ [n; S n; S (S n)] /\
      arena (eir es') !! n = Some {| op := Opcode.GetCbuf; flags := NoFlags;
          args := [Imm IRType.U32 binding; Imm IRType.U32 (4 * offset + 4)]; phi_blocks := [] |} /\
      arena (eir es') !! S n = Some {| op := Opcode.CompositeConstructU32x2; flags := NoFlags;
          args := [Imm IRType.U32 0; InstRef n]; phi_blocks := [] |} /\
      arena (eir es') !! S (S n) = Some {| op := Opcode.PackDouble2x32; flags := NoFlags;
          args := [InstRef (S n)]; phi_blocks := [] |}
  | Throw e => e = NotImplemented /\ ~ ok
  | OutOfFuel => False
  end.
Proof.
  intros offset binding ok. unfold Maxwell.UnpackCbuf. fold offset binding.
  pose proof (bitfield_signed_14_range 20 insn) as Ho. fold offset in Ho.
  pose proof (bitfield_range 34 5 insn ltac:(lia)) as Hbd. fold binding in Hbd. change (2 ^ 5) with 32 in Hbd.
  destruct (Z.leb_spec 18 binding).
  { split; [reflexivity|]. intros (? & _); lia. }
  replace (16384 <=? offset) with false by (symmetry; apply Z.leb_gt; lia). cbn [orb].
  destruct (Z.ltb_spec offset 0).
  { split; [reflexivity|]. intros (_ & ? & _); lia. }
  destruct (Z.eqb_spec (Z.rem offset 2) 0); cbn [negb].
  2:{ split; [reflexivity|]. intros (_ & _ & ?); contradiction. }
  rewrite (Z.mod_small binding) by (cbn; lia).
  rewrite (Z.mod_small offset) by (cbn; lia).
  rewrite (Z.mod_small (offset * 4 + 4)) by (cbn; lia).
  replace (offset * 4 + 4) with (4 * offset + 4) by lia.
  unfold bindM, GetCbuf, Imm32.
  emit_step es1 Hb1 Hi1 Ha1 HA1 Hn1.
  unfold CompositeConstruct2, bindM, Type_.
  replace (value_type (eir es1) (InstRef (next_id (eir es)))) with IRType.U32
    by (unfold value_type; rewrite Ha1; reflexivity).
  cbn [value_type]. destruct (decide (IRType.U32 <> IRType.U32)) as [Hne|_]; [contradiction|].
  cbv beta iota.
  emit_step es2 Hb2 Hi2 Ha2 HA2 Hn2.
  unfold PackDouble2x32.
  emit_step es3 Hb3 Hi3 Ha3 HA3 Hn3.
  rewrite Hn1 in *. rewrite Hn2 in *.
  rewrite Hb1 in Hb2, Hi2. rewrite Hb2 in Hb3, Hi3. rewrite Hi1 in Hi2. rewrite Hi2 in Hi3.
  cbv zeta. split; [subst ok; auto|]. split; [reflexivity|].
  split; [unfold value_type; rewrite Ha3; reflexivity|].
  split; [congruence|]. split; [rewrite Hi3, <- !app_assoc; reflexivity|].
  split; [rewrite HA3, HA2, !lookup_insert_ne by lia; exact Ha1|].
  split; [rewrite HA3, lookup_insert_ne by lia; exact Ha2|]. exact Ha3.
Qed.
(** X14. If the register writes succeed without dropping instructions and
    the register arithmetic does not throw, TranslateF2I succeeds exactly
    when the CC bit is clear, the destination format is I16, I32 or I64,
    and the source is floating-point. *)
Lemma TranslateF2I_outcome X RegAdd insn src_a es
  (HX : forall r v s, exists s', X r v s = Ok (tt, s') /\ arena (eir s) ⊆ arena (eir s'))
  (HR : forall r k, exists r', RegAdd r k = inr r') :
  let f := Maxwell.decode_F2I insn in
  let ok := Maxwell.cc f = 0 /\ 1 <= Maxwell.dest_format f <= 3 /\
            is_float (value_type (eir es) src_a) = true in
  match Maxwell.TranslateF2I X RegAdd insn src_a es with
  | Ok _ => ok
  | Throw _ => ~ ok
  | OutOfFuel => False
  end.
Proof.
  intros f ok. subst ok. unfold Maxwell.TranslateF2I. fold f. cbv zeta. unfold bindM at 1.
  pose proof (FPAbsNeg_typed src_a (negb (Maxwell.abs f =? 0)) (negb (Maxwell.neg f =? 0)) es) as H1.
  destruct (FPAbsNeg _ _ _ es) as [[r1 es1]|e|];
    [|destruct H1 as (_ & _ & Hf); intros (_ & _ & Hf'); congruence|contradiction].
  destruct H1 as (Ht1 & _ & _ & _ & _).
  assert (Hrd : 0 <= Maxwell.rounding f < 4) by (apply (bitfield_range 39 2 insn); lia).
  assert (Hdf : 0 <= Maxwell.dest_format f < 4) by (apply (bitfield_range 8 2 insn); lia).
  unfold bindM at 1.
  match goal with |- context [FPTrunc r1 ?c] => set (ctl := c) end.
  clearbody ctl.
  destruct (FP_unary_typed r1 ctl es1) as (_ & _ & _ & HRE & HFL & HCE & HTR & _).
  cbv zeta in HRE, HFL, HCE, HTR. rewrite Ht1 in HRE, HFL, HCE, HTR.
  assert (Hround : exists m, typed_result m es1 (is_float (value_type (eir es) src_a) = true)
                               (value_type (eir es) src_a) InvalidArgument /\
     (match Maxwell.rounding f with
      | 0 => FPRoundEven r1 ctl | 1 => FPFloor r1 ctl | 2 => FPCeil r1 ctl | 3 => FPTrunc r1 ctl
      | _ => throwM NotImplemented end) = m).
  { assert (E : Maxwell.rounding f = 0 \/ Maxwell.rounding f = 1 \/ Maxwell.rounding f = 2 \/
                Maxwell.rounding f = 3) by lia.
    destruct E as [E|[E|[E|E]]]; rewrite E; eauto. }
  destruct Hround as (m & Hm & ->). unfold typed_result in Hm.
  destruct (m es1) as [[r2 es2]|e|];
    [|destruct Hm as [_ Hm]; intros (_ & _ & Hf'); contradiction|contradiction].
  destruct Hm as [Hf (_ & Ht2 & _)]. clear HRE HFL HCE HTR.
  unfold bindM at 1.
  assert (E : Maxwell.dest_format f = 0 \/ Maxwell.dest_format f = 1 \/
              Maxwell.dest_format f = 2 \/ Maxwell.dest_format f = 3) by lia.
  destruct E as [E|[E|[E|E]]]; rewrite E; cbn [Maxwell.BitSize];
    [cbv [throwM]; intros (_ & ? & _); lia|..].
  all: unfold retM; cbv beta iota; unfold bindM at 1.
  all: lazymatch goal with |- context [ConvertFToI ?b ?sg ?v ?st] =>
         pose proof (ConvertFToI_typed b sg v st) as HC; unfold typed_result in HC; destruct (ConvertFToI b sg v st) as [[r3 es3]|err|];
         [|destruct HC as [_ HC]; rewrite Ht2 in HC; exfalso; apply HC; split; [lia|exact Hf]|contradiction]
       end.
  all: destruct HC as [_ (-> & Ht3 & Hn3 & _)]; cbn [Nat.eqb] in Ht3 |- *.
  all: unfold bindM.
  3:{
    unfold UnpackUint2x32.
    emit_step es4 Hb4 Hi4 Ha4 HA4 Hn4.
    destruct (HR (Maxwell.dest_reg f) 0) as [q0 ER0]. rewrite ER0. cbn [Maxwell.lift]. unfold retM. cbv beta iota.
    unfold CompositeExtract, bindM, Type_.
    replace (value_type (eir es4) (InstRef (next_id (eir es3)))) with IRType.U32x2
      by (unfold value_type; rewrite Ha4; reflexivity).
    cbv beta iota. cbn [Nat.leb].
    emit_step es5 Hb5 Hi5 Ha5 HA5 Hn5.
    destruct (HX q0 (InstRef (next_id (eir es4))) es5) as (es6 & EX6 & Hsub6). rewrite EX6. cbv beta iota.
    destruct (HR (Maxwell.dest_reg f) 1) as [q1 ER1]. rewrite ER1. cbn [Maxwell.lift]. unfold retM. cbv beta iota.
    assert (Hv6 : value_type (eir es6) (InstRef (next_id (eir es3))) = IRType.U32x2).
    { assert (Hl5 : arena (eir es5) !! next_id (eir es3) =
        Some {| op := Opcode.UnpackUint2x32; flags := NoFlags;
                args := [InstRef (next_id (eir es2))]; phi_blocks := [] |})
        by (rewrite HA5, Hn4, lookup_insert_ne by lia; exact Ha4).
      unfold value_type. rewrite (lookup_weaken _ _ _ _ Hl5 Hsub6). reflexivity. }
    rewrite Hv6.
    cbv beta iota. cbn [Nat.leb].
    emit_step es7 Hb7 Hi7 Ha7 HA7 Hn7.
    destruct (HX q1 (InstRef (next_id (eir es6))) es7) as (es8 & EX8 & _). rewrite EX8. cbv beta iota.
    destruct (Z.eqb_spec (Maxwell.cc f) 0); cbn [negb].
    - cbv [retM]; cbv beta iota. split; [assumption|]. split; [lia|exact Hf].
    - cbv [throwM retM]; cbv beta iota. intros (? & _). contradiction. }
  all: destruct (HX (Maxwell.dest_reg f) (InstRef (next_id (eir es2))) es3) as (es9 & EX & _);
    rewrite EX; cbv beta iota.
  all: destruct (Z.eqb_spec (Maxwell.cc f) 0); cbn [negb];
    [cbv [retM]; cbv beta iota; split; [assumption|]; split; [lia|exact Hf] | cbv [throwM retM]; cbv beta iota; intros (? & _); contradiction].
Qed.

Ltac ipa_tail HW ipa ff ctl V S H :=
  let d := constr:(Maxwell.ipa_dest_reg ipa) in
  destruct (Z.eqb_spec (Maxwell.sat ipa) 0) as [Hs0|Hs0]; cbn [negb];
  [ cbv beta iota; destruct (HW d V S) as (s4 & EW); rewrite EW; cbv beta iota; tauto
  | destruct (Z.eqb_spec (Maxwell.attribute ipa) ff) as [Hff|Hff];
    [ cbv [throwM]; cbv beta iota; split; [reflexivity|]; intros (_ & _ & [Hq|Hq]); contradiction
    | destruct (FP_unary_typed V ctl S) as (_ & _ & HS & _); cbv zeta in HS;
      unfold typed_result in HS; rewrite H in HS;
      destruct (FPSaturate V S) as [[r5 es5]|err|];
      [ destruct HS as [_ (-> & _)]; cbv beta iota;
        match goal with |- context [?fw d ?W ?S5] =>
          destruct (HW d W S5) as (s4 & EW); rewrite EW; cbv beta iota; tauto end
      | destruct HS as [_ HS]; exfalso; apply HS; reflexivity
      | contradiction ] ] ].

(** X15. If register reads return F32 values without dropping instructions
    and register writes succeed, IPA succeeds exactly when it is not
    indexed (IDX clear or index register RZ), the interpolation mode is
    Pass or Multiply, and saturation is not requested on FrontFace. Every
    failure is NotImplemented. *)
Lemma IPA_outcome F_read F_write IsGeneric PositionW FrontFace dc insn es
  (HF : forall r s, exists v s', F_read r s = Ok (v, s') /\ value_type (eir s') v = IRType.F32 /\
                                 arena (eir s) ⊆ arena (eir s'))
  (HW : forall r v s, exists s', F_write r v s = Ok (tt, s')) :
  let ipa := Maxwell.decode_IPA insn in
  let ok := (Maxwell.idx ipa = 0 \/ Maxwell.index_reg ipa = Z.of_nat RZ) /\
            (Maxwell.interpolation_mode ipa = 0 \/ Maxwell.interpolation_mode ipa = 1) /\
            (Maxwell.sat ipa = 0 \/ Maxwell.attribute ipa <> FrontFace) in
  match Maxwell.IPA F_read F_write IsGeneric PositionW FrontFace dc insn es with
  | Ok _ => ok
  | Throw e => e = NotImplemented /\ ~ ok
  | OutOfFuel => False
  end.
Proof.
  intros ipa ok. subst ok. unfold Maxwell.IPA. fold ipa. cbv zeta.
  assert (Hm : 0 <= Maxwell.interpolation_mode ipa < 4) by (apply (bitfield_range 54 2 insn); lia).
  assert (Hs : 0 <= Maxwell.sat ipa < 2) by (apply (bitfield_range 51 1 insn); lia).
  destruct (Z.eqb_spec (Maxwell.idx ipa) 0) as [Hi|Hi];
    [|destruct (Z.eqb_spec (Maxwell.index_reg ipa) (Z.of_nat RZ)) as [Hr|Hr]]; cbn [negb andb].
  3:{ split; [reflexivity|]. intros ([?|?] & _); contradiction. }
  all: unfold bindM, GetAttribute.
  all: emit_step es1 Hb1 Hi1 Ha1 HA1 Hn1.
  all: destruct (IsGeneric (Maxwell.attribute ipa)); unfold retM; cbv beta iota.
  all: assert (E : Maxwell.interpolation_mode ipa = 0 \/ Maxwell.interpolation_mode ipa = 1 \/
                   Maxwell.interpolation_mode ipa = 2 \/ Maxwell.interpolation_mode ipa = 3) by lia.
  all: assert (Hv1 : value_type (eir es1) (InstRef (next_id (eir es))) = IRType.F32)
         by (unfold value_type; rewrite Ha1; reflexivity).
  all: destruct E as [E|[E|[E|E]]]; rewrite E; cbv beta iota;
    [
    | destruct (HF (Maxwell.multiplier ipa) es1) as (v & es2 & EF & Hv & Hsub); rewrite EF; cbv beta iota;
      assert (Hv2 : value_type (eir es2) (InstRef (next_id (eir es))) = IRType.F32)
        by (unfold value_type; rewrite (lookup_weaken _ _ _ _ Ha1 Hsub); reflexivity);
      pose proof (FPMul_typed (InstRef (next_id (eir es))) v dc es2) as HM; unfold typed_result in HM;
      destruct (FPMul _ v dc es2) as [[r3 es3]|err|];
      [ destruct HM as [_ (-> & Ht3 & _)]; rewrite Hv2 in Ht3; clear Hv1
      | destruct HM as [_ HM]; exfalso; apply HM; rewrite Hv2, Hv; split; reflexivity
      | contradiction ]
    | cbv [throwM]; cbv beta iota; split; [reflexivity|]; intros (_ & [Hq|Hq] & _); lia
    | cbv [throwM]; cbv beta iota; split; [reflexivity|]; intros (_ & [Hq|Hq] & _); lia].
  all: lazymatch goal with
       | H : value_type (eir ?S) ?V = IRType.F32 |- context [FPSaturate ?V] =>
           ipa_tail HW ipa FrontFace dc V S H
       end.
Qed.

Lemma bitfield_clear_disjoint p b q k x :
  0 <= p -> 0 <= b -> 0 <= q -> 0 <= k -> q + k <= p \/ p + b <= q ->
  Maxwell.bitfield p b (Z.land x (Z.lnot (Z.shiftl (Z.ones k) q))) = Maxwell.bitfield p b x.
Proof.
  intros Hp Hb Hq Hk Hd. apply Z.bits_inj'. intros n Hn. unfold Maxwell.bitfield.
  rewrite !Z.land_spec, !Z.shiftr_spec, Z.land_spec, Z.lnot_spec, Z.shiftl_spec, !Z.testbit_ones by lia.
  destruct (Z.leb_spec 0 n), (Z.ltb_spec n b); cbn [andb]; rewrite ?andb_false_r; try reflexivity; try lia.
  destruct (Z.leb_spec 0 (n + p - q)), (Z.ltb_spec (n + p - q) k); cbn [andb negb];
    rewrite ?andb_true_r; try reflexivity; lia.
Qed.

(** X17. IPA ignores the sample_mode field (bits 52 and 53): clearing
    those bits of the instruction word does not change what IPA does. *)
Lemma IPA_sample_mode_ignored F_read F_write IsGeneric PositionW FrontFace dc insn :
  Maxwell.IPA F_read F_write IsGeneric PositionW FrontFace dc
    (Z.land insn (Z.lnot (Z.shiftl (Z.ones 2) 52))) =
  Maxwell.IPA F_read F_write IsGeneric PositionW FrontFace dc insn.
Proof.
  unfold Maxwell.IPA, Maxwell.decode_IPA. cbn [Maxwell.idx Maxwell.index_reg Maxwell.attribute
    Maxwell.interpolation_mode Maxwell.multiplier Maxwell.sat Maxwell.ipa_dest_reg].
  rewrite !bitfield_clear_disjoint by lia. reflexivity.
Qed.
Lemma sealed_TryRemoveTrivialPhi s phi block u :
  sealed_blocks (st_pass (TryRemoveTrivialPhi s phi block u).1) = sealed_blocks (st_pass s).
Proof.
  unfold TryRemoveTrivialPhi.
  destruct (trivial_phi_scan (InstRef phi) Empty (phi_args (st_ir s) phi)) as [same|]; [|reflexivity].
  destruct (IsEmpty same); [|reflexivity].
  match goal with |- context [PrependNewInst ?ir ?b ?k ?o ?f ?a] =>
    destruct (PrependNewInst ir b k o f a) as [ir' undef] end. reflexivity.
Qed.

Section ReadSealed.
Variable var : Variant.

Lemma sealed_prepare_phi_operand s top :
  sealed_blocks (st_pass (prepare_phi_operand var s top).1) = sealed_blocks (st_pass s).
Proof.
  unfold prepare_phi_operand. destruct (rs_preds top); [|reflexivity].
  pose proof (sealed_TryRemoveTrivialPhi s (rs_phi top) (rs_block top) (UndefOpcode var)) as H.
  destruct (TryRemoveTrivialPhi s (rs_phi top) (rs_block top) (UndefOpcode var)). exact H.
Qed.

Lemma sealed_read_step s top :
  sealed_blocks (st_pass (read_step var s top).1) = sealed_blocks (st_pass s).
Proof.
  unfold read_step. destruct (rs_pc top).
  - destruct (def_get (current_def (st_pass s)) var !! rs_block top); [reflexivity|].
    destruct (negb (is_sealed s (rs_block top))).
    + destruct (PrependNewInst (st_ir s) (rs_block top) 0 Opcode.Phi NoFlags []). reflexivity.
    + destruct (imm_predecessors (block_of (st_ir s) (rs_block top))) as [|p [|q l]];
        [| reflexivity |];
        destruct (PrependNewInst (st_ir s) (rs_block top) 0 Opcode.Phi NoFlags []);
        rewrite sealed_prepare_phi_operand; reflexivity.
  - reflexivity.
  - apply sealed_prepare_phi_operand.
  - destruct (rs_preds top); rewrite sealed_prepare_phi_operand; reflexivity.
Qed.

Lemma sealed_read_loop d n s st s' st' k :
  read_loop var d n s st = Some (s', st', k) -> sealed_blocks (st_pass s') = sealed_blocks (st_pass s).
Proof.
  revert s st. induction n as [|n IH]; intros s st H; [discriminate|].
  rewrite read_loop_S in H.
  assert (Hb : sealed_blocks (st_pass (read_body var s st).1) = sealed_blocks (st_pass s)).
  { unfold read_body. destruct st as [|top [|next rest]]; [reflexivity|reflexivity|].
    pose proof (sealed_read_step s top) as H1.
    destruct (read_step var s top) as [s1 [r|t e]]; exact H1. }
  destruct (read_body var s st) as [s1 st1]. cbn [fst] in Hb.
  destruct (Nat.leb (length st1) d); [injection H as <- _ _; exact Hb|].
  rewrite (IH s1 st1 H). exact Hb.
Qed.

Lemma sealed_ReadVariable n b s v s' :
  ReadVariable var n b s = Some (v, s') -> sealed_blocks (st_pass s') = sealed_blocks (st_pass s).
Proof.
  intros H. unfold ReadVariable in H.
  destruct (read_loop var 1 n s [new_read_state b; new_read_state 0])
    as [[[s1 [|top st1]] k]|] eqn:Hl; try discriminate.
  injection H as _ <-. exact (sealed_read_loop _ _ _ _ _ _ _ Hl).
Qed.

Lemma sealed_AddPhiOperands fuel phi b L :
  triple (fun s => sealed_blocks (st_pass s) = L) (AddPhiOperands var fuel phi b)
         (fun _ s => sealed_blocks (st_pass s) = L).
Proof.
  intros s Hs. unfold AddPhiOperands.
  apply (triple_bind (fun s => sealed_blocks (st_pass s) = L) (fun _ s => sealed_blocks (st_pass s) = L));
    [| |exact Hs].
  - apply triple_forM_. intros p _ s1 Hs1.
    destruct (ReadVariable var fuel p s1) as [[v s2]|] eqn:H; [|exact I].
    cbn. rewrite (sealed_ReadVariable _ _ _ _ _ H). exact Hs1.
  - intros _ s3 Hs3. cbn.
    pose proof (sealed_TryRemoveTrivialPhi s3 phi b (UndefOpcode var)) as H.
    destruct (TryRemoveTrivialPhi s3 phi b (UndefOpcode var)). cbn [fst] in H. congruence.
Qed.
End ReadSealed.

Lemma sealed_read_replace fuel var b x L :
  triple (fun s => sealed_blocks (st_pass s) = L) (let* v := read fuel var b in replace_uses x v)
         (fun _ s => sealed_blocks (st_pass s) = L).
Proof.
  intros s Hs. unfold bindM, read.
  destruct (ReadVariable var fuel b s) as [[v s1]|] eqn:H; [|exact I].
  cbn. rewrite (sealed_ReadVariable _ _ _ _ _ _ H). exact Hs.
Qed.

Ltac close_sealed :=
  first
  [ apply triple_throw_bind
  | apply triple_retM_bind; cbv beta; close_sealed
  | apply sealed_read_replace
  | intros ? Hs0; exact Hs0
  | case_decide; close_sealed ].

Lemma sealed_VisitInst fuel b i L :
  triple (fun s => sealed_blocks (st_pass s) = L) (VisitInst fuel b i)
         (fun _ s => sealed_blocks (st_pass s) = L).
Proof.
  intros s Hs. unfold VisitInst.
  destruct (arena (st_ir s) !! i) as [inst|]; [|exact Hs].
  cbv zeta. revert s Hs.
  destruct (op inst);
    try lazymatch goal with
    | |- context [value_reg (Arg inst 0)] => destruct (Arg inst 0)
    | |- context [value_pred (Arg inst 0)] => destruct (Arg inst 0)
    | |- context [value_u32 (Arg inst 0)] => destruct (Arg inst 0) as [| | | | |ty z]; [..|destruct ty]
    end;
    cbn [value_reg value_pred value_u32];
    apply triple_unfold; close_sealed.
Qed.

Lemma sealed_SealBlock fuel b L :
  triple (fun s => forall x, x ∈ L -> x ∈ sealed_blocks (st_pass s)) (SealBlock fuel b)
         (fun _ s => forall x, x ∈ b :: L -> x ∈ sealed_blocks (st_pass s)).
Proof.
  intros s Hs. unfold SealBlock.
  set (L0 := sealed_blocks (st_pass s)).
  apply (triple_bind (fun s => sealed_blocks (st_pass s) = L0) (fun _ s => sealed_blocks (st_pass s) = L0));
    [| |reflexivity].
  - destruct (incomplete_phis (st_pass s) !! b) as [m|]; [|intros s0 H0; exact H0].
    apply triple_forM_. intros [var phi] _.
    apply (triple_bind _ (fun _ s => sealed_blocks (st_pass s) = L0)); [apply sealed_AddPhiOperands|].
    intros _ s0 H0. exact H0.
  - intros _ s' Hs' x Hx. cbn. rewrite Hs'.
    destruct (decide (b ∈ L0)) as [Hb|Hb]; apply elem_of_cons in Hx as [->|Hx];
      rewrite ?elem_of_cons; auto.
Qed.

Lemma sealed_VisitBlock fuel b L :
  triple (fun s => forall x, x ∈ L -> x ∈ sealed_blocks (st_pass s)) (VisitBlock fuel b)
         (fun _ s => forall x, x ∈ b :: L -> x ∈ sealed_blocks (st_pass s)).
Proof.
  intros s Hs. unfold VisitBlock.
  set (L0 := sealed_blocks (st_pass s)).
  apply (triple_bind (fun s => sealed_blocks (st_pass s) = L0) (fun _ s => sealed_blocks (st_pass s) = L0));
    [| |reflexivity].
  - apply triple_forM_. intros i _. apply sealed_VisitInst.
  - intros _ s' Hs'. apply sealed_SealBlock. intros x Hx. rewrite Hs'. exact (Hs x Hx).
Qed.

Lemma sealed_forM_blocks fuel : forall BL L,
  triple (fun s => forall x, x ∈ L -> x ∈ sealed_blocks (st_pass s)) (forM_ BL (VisitBlock fuel))
         (fun _ s => forall x, x ∈ BL ++ L -> x ∈ sealed_blocks (st_pass s)).
Proof.
  induction BL as [|b BL IH]; intros L; cbn [forM_ app].
  - intros s Hs. exact Hs.
  - apply (triple_bind _ (fun _ s => forall x, x ∈ b :: L -> x ∈ sealed_blocks (st_pass s)));
      [apply sealed_VisitBlock|].
    intros _ s Hs. specialize (IH (b :: L) s Hs).
    destruct (forM_ BL (VisitBlock fuel) s) as [[u s']| |]; [|exact I|exact I].
    intros x Hx. apply IH. clear -Hx. set_solver.
Qed.

(** X22. When SsaRewritePass completes, every block of the program's post-
    order list is sealed. *)
Lemma SsaRewritePass_all_sealed fuel program :
  match SsaRewritePass fuel program with
  | Ok s => forall b, b ∈ post_order_blocks program -> b ∈ sealed_blocks (st_pass s)
  | _ => True
  end.
Proof.
  unfold SsaRewritePass.
  pose proof (sealed_forM_blocks fuel (rev (post_order_blocks program)) []
                {| st_ir := prog_ir program; st_pass := empty_pass |}
                ltac:(intros x Hx; by apply elem_of_nil in Hx)) as H.
  destruct (forM_ (rev (post_order_blocks program)) (VisitBlock fuel)
              {| st_ir := prog_ir program; st_pass := empty_pass |}) as [[_ s]| |]; [|exact I|exact I].
  intros b Hb. apply H. rewrite app_nil_r. apply list_elem_of_In, in_rev. rewrite rev_involutive. by apply list_elem_of_In.
Qed.
Lemma def_get_def_set_ne t v v' vm : v' <> v -> def_get (def_set t v vm) v' = def_get t v'.
Proof.
  intros Hne. destruct t, v, v'; cbn; try reflexivity; try congruence;
    unfold map_or_empty; cbn; rewrite lookup_insert_ne by congruence; reflexivity.
Qed.

Lemma def_set_def_set t v m1 m2 : def_set (def_set t v m1) v m2 = def_set t v m2.
Proof. destruct t, v; cbn; try reflexivity; by rewrite insert_insert_eq. Qed.

Lemma lookup_WriteVariable var b v s var' b' :
  def_get (current_def (st_pass (WriteVariable var b v s))) var' !! b' =
  if decide (var' = var /\ b' = b) then Some v else def_get (current_def (st_pass s)) var' !! b'.
Proof.
  unfold WriteVariable. cbn [st_pass with_pass current_def].
  destruct (decide (var' = var)) as [->|Hv].
  - rewrite def_get_def_set_eq.
    destruct (decide (b' = b)) as [->|Hb].
    + rewrite decide_True by tauto. apply lookup_insert_eq.
    + rewrite decide_False by tauto. by apply lookup_insert_ne.
  - rewrite decide_False by tauto. by rewrite def_get_def_set_ne.
Qed.

(** X18. WriteVariable(variable, block, value) sets the current definition
    of variable in block to value. Every other variable and block pair
    keeps its definition, including other registers, predicates and goto
    variables. *)
Lemma WriteVariable_lookup var b v s var' b' :
  def_get (current_def (st_pass (WriteVariable var b v s))) var' !! b' =
  if decide (var' = var /\ b' = b) then Some v else def_get (current_def (st_pass s)) var' !! b'.
Proof. exact (lookup_WriteVariable var b v s var' b'). Qed.

Lemma WriteVariable_twice var b v s :
  WriteVariable var b v (WriteVariable var b v s) = WriteVariable var b v s.
Proof.
  unfold WriteVariable. cbn [st_pass with_pass current_def sealed_blocks incomplete_phis st_ir].
  rewrite def_get_def_set_eq, def_set_def_set, insert_insert_eq. reflexivity.
Qed.

(** X21. In one block, visiting SetRegister(R, v) with R not RZ and then
    GetRegister(R) replaces every use of the GetRegister by v. No
    instruction is created and the rest of the IR is unchanged. *)
Lemma VisitInst_set_get_forward n b i j r s inst_i inst_j :
  arena (st_ir s) !! i = Some inst_i -> op inst_i = Opcode.SetRegister -> Arg inst_i 0 = ImmReg r ->
  arena (st_ir s) !! j = Some inst_j -> op inst_j = Opcode.GetRegister -> Arg inst_j 0 = ImmReg r ->
  r <> RZ ->
  (let* _ := VisitInst (S n) b i in VisitInst (S n) b j) s =
    Ok (tt, with_ir (WriteVariable (VarReg r) b (Arg inst_i 1) s)
                    (ReplaceUsesWith (st_ir s) j (Arg inst_i 1))).
Proof.
  intros Hi Hoi Hai Hj Hoj Haj Hr.
  unfold bindM at 1. unfold VisitInst at 1. rewrite Hi. cbv zeta. rewrite Hoi, Hai.
  cbn [value_reg]. unfold bindM at 1, retM. rewrite decide_True by exact Hr.
  unfold write. cbv beta iota.
  unfold VisitInst. cbn [st_ir WriteVariable with_pass]. rewrite Hj. cbv zeta. rewrite Hoj, Haj.
  cbn [value_reg]. unfold bindM, retM. rewrite decide_True by exact Hr.
  unfold read, ReadVariable. rewrite read_loop_S. unfold read_body, read_step.
  cbn [rs_pc rs_block new_read_state]. rewrite lookup_WriteVariable, decide_True by tauto.
  cbn. rewrite WriteVariable_twice. reflexivity.
Qed.


Lemma below_refl es : below es es.
Proof. split; [lia|reflexivity]. Qed.

Lemma below_trans es1 es2 es3 : below es1 es2 -> below es2 es3 -> below es1 es3.
Proof. intros [H1 H2] [H3 H4]. split; [lia|]. intros k Hk. rewrite H4 by lia. apply H2, Hk. Qed.

Lemma value_type_below es es' v :
  below es es' -> fresh_for es v -> value_type (eir es') v = value_type (eir es) v.
Proof. intros [_ H] Hf. destruct v; try reflexivity. cbn. rewrite H by exact Hf. reflexivity. Qed.

Lemma fresh_for_below es es' v : below es es' -> fresh_for es v -> fresh_for es' v.
Proof. intros [H _] Hf. destruct v; cbn in *; try exact I; lia. Qed.

Lemma Inst_below opc fl ops es :
  match IREmitter.Inst opc fl ops es with
  | Ok (r, es') => below es es' /\ r = InstRef (next_id (eir es)) /\ next_id (eir es') = S (next_id (eir es)) /\
                   value_type (eir es') r = Opcode.TypeOf opc
  | _ => False
  end.
Proof.
  pose proof (Inst_arena opc fl ops es) as HA.
  destruct (Inst_emitted opc fl ops es) as (es' & E & _ & _ & Ha).
  rewrite E in HA |- *. destruct HA as [HA Hn].
  split; [split; [lia|]|split; [reflexivity|split; [exact Hn|]]].
  - intros k Hk. rewrite HA. apply lookup_insert_ne. lia.
  - cbn. rewrite Ha. reflexivity.
Qed.

Ltac inst_step es1 Hb Hr Hn Ht :=
  lazymatch goal with |- context [IREmitter.Inst ?o ?f ?l ?e] =>
    pose proof (Inst_below o f l e) as Hb;
    destruct (IREmitter.Inst o f l e) as [[? es1]| |]; [|contradiction|contradiction];
    destruct Hb as (Hb & Hr & Hn & Ht); subst; cbv beta iota end.

Lemma GetPred_below pred neg es :
  match GetPred pred neg es with
  | Ok (r, es') => below es es' /\ fresh_for es' r /\ value_type (eir es') r = IRType.U1
  | _ => False
  end.
Proof.
  unfold GetPred, bindM. inst_step es1 Hb1 Hr1 Hn1 Ht1.
  destruct neg; cbv beta iota.
  - inst_step es2 Hb2 Hr2 Hn2 Ht2.
    split; [exact (below_trans _ _ _ Hb1 Hb2)|]. split; [cbn; lia|exact Ht2].
  - unfold retM. split; [exact Hb1|]. split; [cbn; lia|exact Ht1].
Qed.


Lemma GetFlowTest_below ft es :
  match GetFlowTest ft es with
  | Ok (b, es') => is_other_flow_test ft = false /\ below es es' /\ fresh_for es' b /\
                   value_type (eir es') b = IRType.U1 /\
                   (ft = FT_T -> b = Imm1 true) /\ (ft = FT_F -> b = Imm1 false)
  | Throw e => e = NotImplemented /\ is_other_flow_test ft = true
  | OutOfFuel => False
  end.
Proof.
  destruct ft; cbn [GetFlowTest is_other_flow_test].
  - unfold retM. split; [reflexivity|]. split; [apply below_refl|].
    split; [exact I|]. split; [reflexivity|]. split; [discriminate|reflexivity].
  - unfold GetZFlag. inst_step es1 Hb1 Hr1 Hn1 Ht1.
    split; [reflexivity|]. split; [exact Hb1|]. split; [cbn; lia|]. split; [exact Ht1|].
    split; discriminate.
  - unfold GetZFlag, LogicalNot, bindM. inst_step es1 Hb1 Hr1 Hn1 Ht1. inst_step es2 Hb2 Hr2 Hn2 Ht2.
    split; [reflexivity|]. split; [exact (below_trans _ _ _ Hb1 Hb2)|]. split; [cbn; lia|].
    split; [exact Ht2|]. split; discriminate.
  - unfold retM. split; [reflexivity|]. split; [apply below_refl|].
    split; [exact I|]. split; [reflexivity|]. split; [reflexivity|discriminate].
  - cbv [throwM]. split; reflexivity.
Qed.

(** X12. IREmitter::Condition throws NotImplemented exactly when the flow
    test is not T, F, EQ or NE. Otherwise it returns a LogicalAnd of two
    U1 operands, the second being the immediate true for T and false for
    F, in either evaluation order of the two arguments. *)
Lemma Condition_outcome ltr c es :
  match IREmitter.Condition ltr c es with
  | Ok (r, es') =>
      is_other_flow_test (cond_flow_test c) = false /\
      exists n a b, r = InstRef n /\
        arena (eir es') !! n = Some {| op := Opcode.LogicalAnd; flags := NoFlags; args := [a; b]; phi_blocks := [] |} /\
        value_type (eir es') a = IRType.U1 /\ value_type (eir es') b = IRType.U1 /\
        (cond_flow_test c = FT_T -> b = Imm1 true) /\ (cond_flow_test c = FT_F -> b = Imm1 false)
  | Throw e => e = NotImplemented /\ is_other_flow_test (cond_flow_test c) = true
  | OutOfFuel => False
  end.
Proof.
  unfold IREmitter.Condition. cbv zeta.
  pose proof (GetPred_below (cond_pred c) (cond_negated c)) as HP.
  pose proof (GetFlowTest_below (cond_flow_test c)) as HF.
  destruct ltr; unfold bindM, LogicalAnd.
  - specialize (HP es). destruct (GetPred (cond_pred c) (cond_negated c) es) as [[a es1]| |];
      [|contradiction|contradiction].
    destruct HP as (Hb1 & Hf1 & Ht1).
    specialize (HF es1). destruct (GetFlowTest (cond_flow_test c) es1) as [[b es2]| |]; [|exact HF|contradiction].
    destruct HF as (Ho & Hb2 & Hf2 & Ht2 & HT & HFf).
    pose proof (Inst_arena Opcode.LogicalAnd NoFlags [a; b] es2) as HA.
    pose proof (Inst_below Opcode.LogicalAnd NoFlags [a; b] es2) as HB.
    destruct (Inst_emitted Opcode.LogicalAnd NoFlags [a; b] es2) as (es3 & E & _ & _ & Ha).
    rewrite E in HA, HB |- *. destruct HB as (Hb3 & _).
    split; [exact Ho|]. exists (next_id (eir es2)), a, b.
    split; [reflexivity|]. split; [exact Ha|].
    split; [rewrite (value_type_below es2 es3), (value_type_below es1 es2); auto;
            apply (fresh_for_below es1); assumption|].
    split; [rewrite (value_type_below es2 es3); auto|]. split; assumption.
  - specialize (HF es). destruct (GetFlowTest (cond_flow_test c) es) as [[b es1]| |]; [|exact HF|contradiction].
    destruct HF as (Ho & Hb1 & Hf1 & Ht1 & HT & HFf).
    specialize (HP es1). destruct (GetPred (cond_pred c) (cond_negated c) es1) as [[a es2]| |];
      [|contradiction|contradiction].
    destruct HP as (Hb2 & Hf2 & Ht2).
    pose proof (Inst_emitted Opcode.LogicalAnd NoFlags [a; b] es2) as (es3 & E & _ & _ & Ha).
    pose proof (Inst_below Opcode.LogicalAnd NoFlags [a; b] es2) as HB.
    rewrite E in HB |- *. destruct HB as (Hb3 & _).
    split; [exact Ho|]. exists (next_id (eir es2)), a, b.
    split; [reflexivity|]. split; [exact Ha|].
    split; [rewrite (value_type_below es2 es3); auto|].
    split; [rewrite (value_type_below es2 es3), (value_type_below es1 es2); auto;
            apply (fresh_for_below es1); assumption|]. split; assumption.
Qed.
Lemma def_set_def_get_same t var b v :
  def_get t var !! b = Some v -> def_set t var (<[b := v]> (def_get t var)) = t.
Proof.
  intros H. rewrite insert_id by exact H.
  destruct t as [r p g ib z sg c o], var; cbn in *; try reflexivity;
    unfold map_or_empty in *; cbn in *;
    lazymatch goal with
    | H : match ?m !! ?k with _ => _ end !! _ = Some _ |- _ =>
        destruct (m !! k) eqn:E; [|by rewrite lookup_empty in H];
        rewrite insert_id by exact E; reflexivity
    end.
Qed.

Lemma WriteVariable_same var b v s :
  def_get (current_def (st_pass s)) var !! b = Some v -> WriteVariable var b v s = s.
Proof.
  intros H. destruct s as [ir [sb ip cd]]. unfold WriteVariable, with_pass. cbn in *.
  rewrite def_set_def_get_same by exact H. reflexivity.
Qed.

(** X19. Reading a variable in a block where it already has a current
    definition returns that definition in one pass of the loop and leaves
    the whole pass state unchanged. *)
Lemma ReadVariable_defined var n b s v :
  def_get (current_def (st_pass s)) var !! b = Some v ->
  ReadVariable var (S n) b s = Some (v, s).
Proof.
  intros H. unfold ReadVariable. rewrite read_loop_S. unfold read_body, read_step.
  cbn [rs_pc rs_block new_read_state]. rewrite H. cbn.
  rewrite WriteVariable_same by exact H. reflexivity.
Qed.

Lemma ReadVariable_defined_witness :
  def_get (current_def (st_pass Inputs.single_pred_state)) (VarReg 3) !! 0%nat = Some (Imm IRType.U32 7) /\
  ReadVariable (VarReg 3) 1 0 Inputs.single_pred_state = Some (Imm IRType.U32 7, Inputs.single_pred_state).
Proof.
  assert (H : def_get (current_def (st_pass Inputs.single_pred_state)) (VarReg 3) !! 0%nat =
              Some (Imm IRType.U32 7)) by reflexivity.
  split; [exact H|]. exact (ReadVariable_defined (VarReg 3) 0 0 Inputs.single_pred_state _ H).
Defined.

(** X20. Reading a variable with no definition in a block that is not
    sealed prepends an operandless phi to the block. The phi is recorded
    as the block's incomplete phi for the variable, becomes the variable's
    definition in the block, and is returned. *)
Lemma ReadVariable_unsealed_phi var n s b :
  is_sealed s b = false ->
  def_get (current_def (st_pass s)) var !! b = None ->
  ReadVariable var (S n) b s =
    Some (InstRef (next_id (st_ir s)),
          WriteVariable var b (InstRef (next_id (st_ir s)))
            (add_incomplete_phi b var (next_id (st_ir s))
               (Ssa.with_ir s (PrependNewInst (st_ir s) b 0 Opcode.Phi NoFlags []).1))).
Proof. exact (ReadVariable_unsealed var n s b). Qed.

Lemma ReadVariable_unsealed_phi_witness :
  let s := {| st_ir := eir Inputs.three_blocks; st_pass := empty_pass |} in
  is_sealed s 0 = false /\ def_get (current_def (st_pass s)) (VarReg 1) !! 0%nat = None /\
  ReadVariable (VarReg 1) 1 0 s =
    Some (InstRef 0, WriteVariable (VarReg 1) 0 (InstRef 0)
                       (add_incomplete_phi 0 (VarReg 1) 0
                          (Ssa.with_ir s (PrependNewInst (eir Inputs.three_blocks) 0 0 Opcode.Phi NoFlags []).1))).
Proof.
  intros s.
  assert (H1 : is_sealed s 0 = false) by reflexivity.
  assert (H2 : def_get (current_def (st_pass s)) (VarReg 1) !! 0%nat = None) by reflexivity.
  split; [exact H1|]. split; [exact H2|].
  exact (ReadVariable_unsealed_phi (VarReg 1) 0 s 0 H1 H2).
Defined.

Lemma VisitInst_set_get_forward_witness :
  let s := Inputs.set_get_state in
  let inst_i := Inputs.mkinst Opcode.SetRegister [ImmReg 1; Imm IRType.U32 5] in
  let inst_j := Inputs.mkinst Opcode.GetRegister [ImmReg 1] in
  arena (st_ir s) !! 0%nat = Some inst_i /\ arena (st_ir s) !! 1%nat = Some inst_j /\ (1 <> RZ)%nat /\
  (let* _ := VisitInst 1 0 0 in VisitInst 1 0 1) s =
    Ok (tt, Ssa.with_ir (WriteVariable (VarReg 1) 0 (Imm IRType.U32 5) s)
                        (ReplaceUsesWith (st_ir s) 1 (Imm IRType.U32 5))).
Proof.
  intros s inst_i inst_j.
  assert (Hi : arena (st_ir s) !! 0%nat = Some inst_i) by reflexivity.
  assert (Hj : arena (st_ir s) !! 1%nat = Some inst_j) by reflexivity.
  assert (Hr : (1 <> RZ)%nat) by (cbv; lia).
  split; [exact Hi|]. split; [exact Hj|]. split; [exact Hr|].
  exact (VisitInst_set_get_forward 0 0 0 1 1 s inst_i inst_j Hi eq_refl eq_refl Hj eq_refl eq_refl Hr).
Defined.

Lemma TranslateF2I_outcome_witness :
  let X := fun (_ : Z) (_ : Value) (s : EmitState) => Ok (tt, s) in
  let RegAdd := fun r k : Z => (inr (r + k) : Exception + Z) in
  let es := Inputs.three_blocks in
  let src_a := Imm IRType.F32 0 in
  let insn := 512 in
  (forall r v s, exists s', X r v s = Ok (tt, s') /\ arena (eir s) ⊆ arena (eir s')) /\
  (forall r k, exists r', RegAdd r k = inr r') /\
  (let f := Maxwell.decode_F2I insn in
   let ok := Maxwell.cc f = 0 /\ 1 <= Maxwell.dest_format f <= 3 /\
             is_float (value_type (eir es) src_a) = true in
   match Maxwell.TranslateF2I X RegAdd insn src_a es with
   | Ok _ => ok
   | Throw _ => ~ ok
   | OutOfFuel => False
   end).
Proof.
  intros X RegAdd es src_a insn.
  assert (HX : forall r v s, exists s', X r v s = Ok (tt, s') /\ arena (eir s) ⊆ arena (eir s'))
    by (intros r v s; exists s; split; reflexivity).
  assert (HR : forall r k, exists r', RegAdd r k = inr r') by (intros r k; eexists; reflexivity).
  split; [exact HX|]. split; [exact HR|].
  exact (TranslateF2I_outcome X RegAdd insn src_a es HX HR).
Defined.

Lemma IPA_outcome_witness :
  let F_read := fun (_ : Z) (s : EmitState) => Ok (Imm IRType.F32 1, s) in
  let F_write := fun (_ : Z) (_ : Value) (s : EmitState) => Ok (tt, s) in
  let IsGeneric := fun a : Z => Z.leb 32 a in
  let dc := Build_FpControl false RDontCare FmzDontCare in
  let es := Inputs.three_blocks in
  let insn := Z.shiftl 1 54 in
  (forall r s, exists v s', F_read r s = Ok (v, s') /\ value_type (eir s') v = IRType.F32 /\
                            arena (eir s) ⊆ arena (eir s')) /\
  (forall r v s, exists s', F_write r v s = Ok (tt, s')) /\
  (let ipa := Maxwell.decode_IPA insn in
   let ok := (Maxwell.idx ipa = 0 \/ Maxwell.index_reg ipa = Z.of_nat RZ) /\
             (Maxwell.interpolation_mode ipa = 0 \/ Maxwell.interpolation_mode ipa = 1) /\
             (Maxwell.sat ipa = 0 \/ Maxwell.attribute ipa <> 255) in
   match Maxwell.IPA F_read F_write IsGeneric 31 255 dc insn es with
   | Ok _ => ok
   | Throw e => e = NotImplemented /\ ~ ok
   | OutOfFuel => False
   end).
Proof.
  intros F_read F_write IsGeneric dc es insn.
  assert (HF : forall r s, exists v s', F_read r s = Ok (v, s') /\ value_type (eir s') v = IRType.F32 /\
                                        arena (eir s) ⊆ arena (eir s'))
    by (intros r s; exists (Imm IRType.F32 1), s; split; [reflexivity|split; reflexivity]).
  assert (HW : forall r v s, exists s', F_write r v s = Ok (tt, s'))
    by (intros r v s; exists s; reflexivity).
  split; [exact HF|]. split; [exact HW|].
  exact (IPA_outcome F_read F_write IsGeneric 31 255 dc insn es HF HW).
Defined.
